(** * MembersGame: team generation and payout allocation

    A shallow embedding of [utils/handicap.ts] and [utils/game.ts]
    (team-size planner, group formation, group-to-team assignment,
    payout allocator) together with the properties of the
    natural-language specification that concern them; and, with
    properties of their own, of [utils/savedCourses.ts], the stroke
    allocation of [components/Scorecards.tsx], the roster and team
    handlers of [components/CourseManager.tsx], the lookup of
    [api/ghin.ts] and the team-size planner of the earlier
    [utils/game.ts].

    Conventions of the embedding.

    - A JavaScript [number] that holds a count, an index, a rounded
      amount or a course handicap is an integer and is modelled in [Z].
      A [number] that may hold a fraction (handicap index, slope, fees,
      the number of paid places, payout ratios, raw amounts, group
      strength, a random draw) is modelled in [Q]: arithmetic is exact,
      a decimal constant of the source is that decimal, the rounding
      error of IEEE doubles is not modelled, and neither are NaN and the
      infinities.  Integers stay below 2^53, where doubles hold them
      exactly.
    - An optional field ([x?: T]) is an [option].
    - [Array.prototype.sort] is stable; it is modelled as a stable
      insertion sort driven by the sign of the comparator.
    - [throw new Error(msg)] is the [Err msg] result.
    - [String.prototype.localeCompare] depends on the host's locale and
      is a parameter of the development.
    - [Math.random] is a parameter as well: the sequence of its results,
      in call order.
    - A [Map], and the own properties of an object, are the list of
      their entries in insertion order; reading a property of an object
      also finds the members of [Object.prototype].
    - Reading a property of [undefined] throws a [TypeError]: the
      [Err typeError] result.
    - [String.prototype.trim] and [toLowerCase] are parameters.
    - A function that loads the saved courses and persists them is the
      function from the object loaded to the object persisted; a handler
      of a component is the function from the state it reads to the
      state it sets. *)

From Stdlib Require Import String Ascii DecimalString.
From Stdlib Require Import ZArith QArith Qround Bool List.
From Stdlib Require Import Permutation Sorted Lia Lqa.
Import ListNotations.

#[local] Open Scope Z_scope.

(* ================================================================= *)
(** * JavaScript numbers *)

Module Js.

(** [Math.round]: the nearest integer, a tie going toward +infinity. *)
Definition round (x : Q) : Z := Qfloor (x + (1 # 2)).

(** [Math.floor]. *)
Definition floor (x : Q) : Z := Qfloor x.

(** [ToUint32], [ToInt32] on an integer. *)
Definition toUint32 (x : Z) : Z := x mod 4294967296.
Definition toInt32 (x : Z) : Z :=
  let u := toUint32 x in if u <? 2147483648 then u else u - 4294967296.

(** [a ^ b], [a | b], [a >>> n] and [Math.imul a b]. *)
Definition xor (a b : Z) : Z := toInt32 (Z.lxor (toInt32 a) (toInt32 b)).
Definition or (a b : Z) : Z := toInt32 (Z.lor (toInt32 a) (toInt32 b)).
Definition ushr (a n : Z) : Z := Z.shiftr (toUint32 a) n.
Definition imul (a b : Z) : Z := toInt32 (toInt32 a * toInt32 b).

(** The sign of a fraction, as a comparator result is read by [sort]. *)
Definition sign (x : Q) : Z := Z.sgn (Qnum x).

(** A number in a template literal: its decimal digits. *)
Definition showZ (z : Z) : string :=
  match z with
  | Z0 => "0"
  | Zpos p => NilEmpty.string_of_uint (Pos.to_uint p)
  | Zneg p => String "-" (NilEmpty.string_of_uint (Pos.to_uint p))
  end.

End Js.

(** Results of code that can throw. *)
Inductive result (A : Type) : Type :=
| Ok (a : A)
| Err (msg : string).
Arguments Ok {A} a.
Arguments Err {A} msg.

(* ================================================================= *)
(** * Data model ([types/golf.ts], [utils/game.ts]) *)

Inductive Tee : Type := white | blue | red.

Record Player : Type := mkPlayer {
  player_id : string;
  firstName : string;
  lastName : option string;
  handicapIndex : Q;
  tee : Tee;
  linkGroupId : option string
}.

(** A slope that is [None] stands for an entry that was never set. *)
Record CourseSlopesByTee : Type := mkSlopes {
  slope_white : option Q;
  slope_blue : option Q;
  slope_red : option Q
}.

Record Course : Type := mkCourse {
  course_name : string;
  par : Z;
  slopes : CourseSlopesByTee;
  course_players : list Player
}.

Record GameSettings : Type := mkSettings {
  entryFeePerPlayer : Q;
  skinsPoolPerPlayer : option Q;
  randomSeed : option Z;
  randomizeTeams : option bool;
  paidPlaces : option Q
}.

(** [{ ...p, courseHandicap }]. *)
Record PlayerWithCH : Type := mkPlayerWithCH {
  player : Player;
  courseHandicap : Z
}.

Record Team : Type := mkTeam {
  team_id : Z;
  players : list PlayerWithCH;
  teamHandicap : Z
}.

Record Payout : Type := mkPayout {
  place : Z;
  amount : Z
}.

Record GameResult : Type := mkGameResult {
  course : Course;
  teams : list Team;
  totalPlayers : Z;
  prizePool : Z;
  skinsPool : Z;
  payouts : list Payout
}.

(** The local [Group] type of [generateGame]. *)
Record Group : Type := mkGroup {
  group_id : string;
  members : list PlayerWithCH;
  size : Z;
  strength : Q
}.

(* ================================================================= *)
(** * Handicap enrichment ([utils/handicap.ts]) *)

Definition slopeOf (s : CourseSlopesByTee) (t : Tee) : option Q :=
  match t with
  | white => slope_white s
  | blue => slope_blue s
  | red => slope_red s
  end.

(** [course.slopes[tee] || 0]: an unset or zero slope is falsy. *)
Definition slopeOrZero (c : Course) (t : Tee) : Q :=
  match slopeOf (slopes c) t with
  | Some s => if Qeq_bool s 0 then 0%Q else s
  | None => 0%Q
  end.

Definition courseHandicapFor (c : Course) (hi : Q) (t : Tee) : Z :=
  let slope := slopeOrZero c t in
  let ch := ((hi * slope) / 113)%Q in
  Js.round ch.

Definition computePlayerCH (c : Course) (p : Player) : PlayerWithCH :=
  {| player := p;
     courseHandicap := courseHandicapFor c (handicapIndex p) (tee p) |}.

(* ================================================================= *)
(** * Team-size planner *)

Definition fours (k : Z) : list Z := repeat 4 (Z.to_nat k).

Definition determineTeamSizes (total : Z) : list Z :=
  if total <=? 4 then [total]
  else
    let n4 := total / 4 in
    let rem := total - n4 * 4 in
    if rem =? 0 then fours n4
    else if rem =? 1 then
      if 2 <=? n4 then fours (n4 - 2) ++ [3; 3; 3]
      else [3; 2]
    else if rem =? 2 then
      if 1 <=? n4 then fours (n4 - 1) ++ [3; 3]
      else [2]
    else fours n4 ++ [3].

Definition sumZ (l : list Z) : Z := fold_left Z.add l 0.

(* ================================================================= *)
(** * Randomness *)

(** A result of [Math.random] or of the seeded generator: a fraction in
    the interval [0, 1). *)
Record unitQ : Type := mkUnitQ {
  uq : Q;
  uq_range : Qle_bool 0 uq && negb (Qle_bool 1 uq) = true
}.

(** What the host provides: the collation of [localeCompare] and the
    successive results of [Math.random]. *)
Record Host : Type := mkHost {
  localeCompare : string -> string -> Z;
  mathRandom : nat -> unitQ
}.

(** mulberry32.  The closure variable [t] is a number that is only ever
    read through 32-bit operators; [rng seed] starts it at [seed >>> 0]. *)
Definition rng (seed : Z) : Z := Js.ushr seed 0.

Definition rng_output (t : Z) : Z :=
  let r := Js.imul (Js.xor t (Js.ushr t 15)) (Js.or 1 t) in
  let r := Js.xor r (r + Js.imul (Js.xor r (Js.ushr r 7)) (Js.or 61 r)) in
  Js.ushr (Js.xor r (Js.ushr r 14)) 0.

Definition rng_next (t : Z) : Q * Z :=
  let t := t + 1831565813 in
  (inject_Z (rng_output t) / 4294967296, t)%Q.

(** The function held by [rand]: the seeded closure with its state, or
    [Math.random] with the number of draws made so far. *)
Inductive Rand : Type :=
| Seeded (t : Z)
| Ambient (k : nat).

Definition draw (h : Host) (rand : Rand) : Q * Rand :=
  match rand with
  | Seeded t => let (u, t') := rng_next t in (u, Seeded t')
  | Ambient k => (uq (mathRandom h k), Ambient (S k))
  end.

(** [typeof settings.randomSeed === 'number' ? rng(settings.randomSeed)
    : Math.random], where [ambient] is the state of [Math.random]. *)
Definition randOf (settings : GameSettings) (ambient : Rand) : Rand :=
  match randomSeed settings with
  | Some seed => Seeded (rng seed)
  | None => ambient
  end.

(* ================================================================= *)
(** * Arrays *)

Fixpoint updAt {A : Type} (k : nat) (f : A -> A) (l : list A) : list A :=
  match l, k with
  | [], _ => []
  | x :: xs, O => f x :: xs
  | x :: xs, S k' => x :: updAt k' f xs
  end.

(** [[arr[i], arr[j]] = [arr[j], arr[i]]].  Both indices lie inside the
    array wherever the program swaps, a draw being below 1. *)
Definition swap {A : Type} (arr : list A) (i j : nat) : list A :=
  match nth_error arr i, nth_error arr j with
  | Some a, Some b => updAt j (fun _ => a) (updAt i (fun _ => b) arr)
  | _, _ => arr
  end.

(** The Fisher-Yates loop of [shuffleInPlace], which [generateGame]
    repeats inline for the groups and for the team indices: [i] runs from
    [arr.length - 1] down to 1. *)
Fixpoint shuffleFrom {A : Type} (h : Host) (i : nat) (arr : list A)
    (rand : Rand) : list A * Rand :=
  match i with
  | O => (arr, rand)
  | S i' =>
      let (u, rand') := draw h rand in
      let j := Z.to_nat (Js.floor (u * inject_Z (Z.of_nat i + 1))) in
      shuffleFrom h i' (swap arr i j) rand'
  end.

Definition shuffleInPlace {A : Type} (h : Host) (arr : list A)
    (rand : Rand) : list A * Rand :=
  shuffleFrom h (length arr - 1) arr rand.

(** [arr.sort(cmp)].  The sort is stable; for a comparator that is a
    total preorder every stable sort returns the list built here, where
    [x] moves behind [y] only when [cmp x y > 0]. *)
Fixpoint insertBy {A : Type} (cmp : A -> A -> Z) (x : A) (l : list A)
    : list A :=
  match l with
  | [] => [x]
  | y :: l' => if 0 <? cmp x y then y :: insertBy cmp x l' else x :: l
  end.

Definition sortBy {A : Type} (cmp : A -> A -> Z) (l : list A) : list A :=
  fold_right (insertBy cmp) [] l.

(** [arr.map((x, idx) => f idx x)]. *)
Fixpoint mapiFrom {A B : Type} (f : nat -> A -> B) (i : nat) (l : list A)
    : list B :=
  match l with
  | [] => []
  | x :: xs => f i x :: mapiFrom f (S i) xs
  end.

Definition mapi {A B : Type} (f : nat -> A -> B) (l : list A) : list B :=
  mapiFrom f 0 l.

(** [arr.slice(i, j)]. *)
Definition slice {A : Type} (i j : nat) (l : list A) : list A :=
  firstn (j - i) (skipn i l).

Definition len {A : Type} (l : list A) : Z := Z.of_nat (length l).

(* ================================================================= *)
(** * Group formation *)

(** [p.linkGroupId ?? `single:${p.id}`]. *)
Definition groupKey (p : PlayerWithCH) : string :=
  match linkGroupId (player p) with
  | Some gid => gid
  | None => ("single:" ++ player_id (player p))%string
  end.

(** [groupsMap.get(gid)], creating the group when it is absent, then
    [g.members.push(p)].  The list holds the values of the [Map] in
    insertion order. *)
Fixpoint groupsPush (gid : string) (p : PlayerWithCH) (m : list Group)
    : list Group :=
  match m with
  | [] => [ {| group_id := gid; members := [p]; size := 0; strength := 0 |} ]
  | g :: rest =>
      if String.eqb (group_id g) gid
      then {| group_id := group_id g; members := members g ++ [p];
              size := size g; strength := strength g |} :: rest
      else g :: groupsPush gid p rest
  end.

Definition groupsMap (enriched : list PlayerWithCH) : list Group :=
  fold_left (fun m p => groupsPush (groupKey p) p m) enriched [].

(** [members.reduce((s, m) => s + m.courseHandicap, 0)]. *)
Definition sumCH (ms : list PlayerWithCH) : Z :=
  fold_left (fun s m => s + courseHandicap m) ms 0.

(** [for (let i = 0; i < members.length; i += 4)
       chunked.push(members.slice(i, i + 4))]; the loop runs at most
    [members.length] times. *)
Fixpoint chunkLoop {A : Type} (fuel i : nat) (ms : list A) : list (list A) :=
  match fuel with
  | O => []
  | S fuel' =>
      if (i <? length ms)%nat
      then slice i (i + 4) ms :: chunkLoop fuel' (i + 4) ms
      else []
  end.

Definition chunked {A : Type} (ms : list A) : list (list A) :=
  chunkLoop (length ms) 0 ms.

Definition chunkGroup (gid : string) (idx : nat) (chunk : list PlayerWithCH)
    : Group :=
  {| group_id := (gid ++ "#" ++ Js.showZ (Z.of_nat idx + 1))%string;
     members := chunk;
     size := len chunk;
     strength := inject_Z (sumCH chunk) / inject_Z (len chunk) |}.

(** One turn of the loop over [groupsMap.values()]: the groups pushed
    for the map entry [g]. *)
Definition emitGroup (g : Group) : list Group :=
  let sz := len (members g) in
  if 4 <? sz then mapi (chunkGroup (group_id g)) (chunked (members g))
  else
    [ {| group_id := group_id g;
         members := members g;
         size := sz;
         strength := inject_Z (sumCH (members g))
                     / inject_Z (Z.max 1 (len (members g))) |} ].

Definition formGroups (enriched : list PlayerWithCH) : list Group :=
  flat_map emitGroup (groupsMap enriched).

(** [settings.randomizeTeams] read as a condition. *)
Definition randomize (settings : GameSettings) : bool :=
  match randomizeTeams settings with
  | Some b => b
  | None => false
  end.

(** [(a, b) => b.size - a.size || a.id.localeCompare(b.id)]. *)
Definition cmpRandomized (h : Host) (a b : Group) : Z :=
  let d := size b - size a in
  if d =? 0 then localeCompare h (group_id a) (group_id b) else d.

(** The comparator of the balanced order: size descending, then strength
    ascending, then identifier. *)
Definition cmpBalanced (h : Host) (a b : Group) : Z :=
  if negb (size a =? size b) then size b - size a
  else if negb (Qeq_bool (strength a) (strength b))
       then Js.sign (strength a - strength b)
       else localeCompare h (group_id a) (group_id b).

(* ================================================================= *)
(** * Group-to-team assignment *)

(** [teamsInit] paired with [remaining]. *)
Definition Placement : Type := (list Team * list Z)%type.

(** [teamsInit[idx].players.push(...g.members); remaining[idx] -= g.size]. *)
Definition placeAt (idx : nat) (g : Group) (st : Placement) : Placement :=
  (updAt idx (fun t => {| team_id := team_id t;
                          players := players t ++ members g;
                          teamHandicap := teamHandicap t |}) (fst st),
   updAt idx (fun r => r - size g) (snd st)).

(** The first index of [order] whose remaining capacity holds [sz]. *)
Fixpoint firstFit (order : list nat) (remaining : list Z) (sz : Z)
    : option nat :=
  match order with
  | [] => None
  | idx :: rest =>
      match nth_error remaining idx with
      | Some r => if sz <=? r then Some idx else firstFit rest remaining sz
      | None => firstFit rest remaining sz
      end
  end.

(** The scan of the balanced policy; [bestIdx = None] is the source's -1. *)
Fixpoint bestScan (ks : list nat) (remaining : list Z) (sz : Z)
    (bestIdx : option nat) (bestRemain : Z) : option nat :=
  match ks with
  | [] => bestIdx
  | k :: ks' =>
      match nth_error remaining k with
      | Some rem =>
          if (sz <=? rem) && (bestRemain <? rem)
          then bestScan ks' remaining sz (Some k) rem
          else bestScan ks' remaining sz bestIdx bestRemain
      | None => bestScan ks' remaining sz bestIdx bestRemain
      end
  end.

Definition teamIndices (st : Placement) : list nat :=
  seq 0 (length (fst st)).

Definition unableToPlace (g : Group) : string :=
  ("Unable to place group of size " ++ Js.showZ (size g)
   ++ " within team capacities")%string.

(** The team chosen for [g] by the randomized policy: the first fit in a
    freshly shuffled order of the team indices, else the first fit from
    the left. *)
Definition pickRandomized (h : Host) (st : Placement) (g : Group)
    (rand : Rand) : option nat * Rand :=
  let (order, rand') := shuffleInPlace h (teamIndices st) rand in
  match firstFit order (snd st) (size g) with
  | Some idx => (Some idx, rand')
  | None => (firstFit (teamIndices st) (snd st) (size g), rand')
  end.

Fixpoint assignRandomized (h : Host) (groups : list Group) (st : Placement)
    (rand : Rand) : result Placement :=
  match groups with
  | [] => Ok st
  | g :: rest =>
      let (choice, rand') := pickRandomized h st g rand in
      match choice with
      | Some idx => assignRandomized h rest (placeAt idx g st) rand'
      | None => Err (unableToPlace g)
      end
  end.

(** The team chosen for [g] by the balanced policy: the largest remaining
    capacity that fits, else the first fit from the left. *)
Definition pickBalanced (st : Placement) (g : Group) : option nat :=
  match bestScan (teamIndices st) (snd st) (size g) None (-1) with
  | Some bestIdx => Some bestIdx
  | None => firstFit (teamIndices st) (snd st) (size g)
  end.

Fixpoint assignBalanced (groups : list Group) (st : Placement)
    : result Placement :=
  match groups with
  | [] => Ok st
  | g :: rest =>
      match pickBalanced st g with
      | Some bestIdx => assignBalanced rest (placeAt bestIdx g st)
      | None => Err (unableToPlace g)
      end
  end.

(** [(a, b) => sizeDiff !== 0 ? sizeDiff : a.teamHandicap - b.teamHandicap]. *)
Definition cmpTeams (a b : Team) : Z :=
  let sizeDiff := len (players a) - len (players b) in
  if negb (sizeDiff =? 0) then sizeDiff
  else teamHandicap a - teamHandicap b.

(* ================================================================= *)
(** * Payout allocator *)

Definition qmax (a b : Q) : Q := if Qle_bool a b then b else a.

(** [Math.min(a, b)]. *)
Definition qmin (a b : Q) : Q := if Qle_bool a b then a else b.

Definition sumQ (l : list Q) : Q := fold_left Qplus l 0%Q.

(** The loop of the [default] case, [count] turns from index [i].  The
    bound [n] is a number that need not be whole:
    [for (let i = 0; i < n; i++)] runs for [i = 0, ..., ceil(n) - 1], and
    [i === n - 1] holds on the last turn when [n] is whole and on no turn
    otherwise. *)
Fixpoint taperLoop (count : nat) (i : Z) (n : Q) (remaining share : Q)
    : list Q :=
  match count with
  | O => []
  | S count' =>
      let v := if Qeq_bool (inject_Z i) (n - 1) then remaining
               else qmax 0.05 share in
      v :: taperLoop count' (i + 1) n (remaining - v)%Q (share * 0.7)%Q
  end.

(** [places] is the number read from the settings, whole or not;
    [numTeams] is the length of an array.  The [case] labels of the
    [switch] are met by [===], so a number of places that is not whole
    goes to the [default] case.  The constants are the decimals of the
    source, in exact arithmetic. *)
Definition basePayoutRatios (places : Q) (numTeams : Z) : list Q :=
  let n := qmax 1 (qmin places (inject_Z numTeams)) in
  if Qeq_bool n 1 then [1%Q]
  else if Qeq_bool n 2 then [0.6; 0.4]%Q
  else if Qeq_bool n 3 then [0.5; 0.3; 0.2]%Q
  else if Qeq_bool n 4 then [0.4; 0.3; 0.2; 0.1]%Q
  else if Qeq_bool n 5 then [0.35; 0.25; 0.18; 0.12; 0.10]%Q
  else
    let ratios := taperLoop (Z.to_nat (Qceiling n)) 0 n 1%Q 0.35%Q in
    let sum := sumQ ratios in
    map (fun r => (r / sum)%Q) ratios.

(** One run of the inner [for] loop of [tryRound]: the adjusted array,
    the difference left, and [adjusted]. *)
Fixpoint adjustPass (step dir : Z) (rounded : list Z) (diff : Z)
    : list Z * Z * bool :=
  match rounded with
  | [] => ([], diff, false)
  | r :: rest =>
      if step <=? diff then
        let next := r + dir * step in
        if (0 <? dir) || ((dir <? 0) && (0 <=? next)) then
          let '(rest', diff', _) := adjustPass step dir rest (diff - step) in
          (next :: rest', diff', true)
        else
          let '(rest', diff', adjusted) := adjustPass step dir rest diff in
          (r :: rest', diff', adjusted)
      else (rounded, diff, false)
  end.

(** [while (diff >= step) { ...; if (!adjusted) break }].  A turn that
    adjusts lowers [diff] by at least [step], so [diff / step] turns
    exhaust the loop. *)
Fixpoint adjustLoop (fuel : nat) (step dir : Z) (rounded : list Z) (diff : Z)
    : list Z * Z :=
  match fuel with
  | O => (rounded, diff)
  | S fuel' =>
      if step <=? diff then
        let '(rounded', diff', adjusted) := adjustPass step dir rounded diff in
        if adjusted then adjustLoop fuel' step dir rounded' diff'
        else (rounded', diff')
      else (rounded, diff)
  end.

(** [for (i = 1; ...) if (rounded[i] > rounded[i - 1]) rounded[i] =
    rounded[i - 1]], [prev] being the entry just settled. *)
Fixpoint clampFrom (prev : Z) (l : list Z) : list Z :=
  match l with
  | [] => []
  | x :: xs =>
      let x' := if prev <? x then prev else x in
      x' :: clampFrom x' xs
  end.

Definition enforceNonIncreasing (rounded : list Z) : list Z :=
  match rounded with
  | [] => []
  | x :: xs => x :: clampFrom x xs
  end.

Definition tryRound (values : list Q) (total step : Z) : list Z * Z :=
  let rounded :=
    map (fun v => Z.max 0 (Js.round (v / inject_Z step) * step)) values in
  let diff := total - sumZ rounded in
  let dir := Z.sgn diff in
  let diff := Z.abs diff in
  let turns := Z.to_nat (diff / step) in
  let rounded := fst (adjustLoop turns step dir rounded diff) in
  let rounded := enforceNonIncreasing rounded in
  (rounded, sumZ rounded).

Definition roundPayoutsPrefer10Then5 (values : list Q) (total : Z) : list Z :=
  let v10 := tryRound values total 10 in
  if snd v10 =? total then fst v10
  else
    let v5 := tryRound values total 5 in
    if negb (snd v5 =? total) then
      let diff := total - snd v5 in
      enforceNonIncreasing (updAt 0 (fun top => top + diff) (fst v5))
    else fst v5.

(* ================================================================= *)
(** * [generateGame] *)

Definition teamsInit (teamSizes : list Z) : list Team :=
  mapi (fun idx _ => {| team_id := Z.of_nat idx + 1;
                        players := [];
                        teamHandicap := 0 |}) teamSizes.

(** The ordering of the groups, and the state of [Math.random] after it. *)
Definition orderGroups (h : Host) (settings : GameSettings)
    (groups : list Group) : list Group * Rand :=
  if randomize settings then
    let (shuffled, rand') :=
      shuffleInPlace h groups (randOf settings (Ambient 0)) in
    (sortBy (cmpRandomized h) shuffled, rand')
  else (sortBy (cmpBalanced h) groups, Ambient 0).

(** The placement loop of the selected policy.  With a seed the second
    [rng(settings.randomSeed)] starts the sequence again; without one
    [Math.random] goes on from [ambient]. *)
Definition assignGroups (h : Host) (settings : GameSettings)
    (sortedGroups : list Group) (ambient : Rand) (st : Placement)
    : result Placement :=
  if randomize settings
  then assignRandomized h sortedGroups st (randOf settings ambient)
  else assignBalanced sortedGroups st.

Definition withTeamHandicap (t : Team) : Team :=
  {| team_id := team_id t;
     players := players t;
     teamHandicap := sumCH (players t) |}.

Definition sortTeams (ts : list Team) : list Team :=
  mapi (fun idx t => {| team_id := Z.of_nat idx + 1;
                        players := players t;
                        teamHandicap := teamHandicap t |})
       (sortBy cmpTeams ts).

Definition payoutsFor (settings : GameSettings) (prizePool numTeams : Z)
    : list Payout :=
  let places := qmax 1 (match paidPlaces settings with
                        | Some p => p
                        | None => 3%Q
                        end) in
  let ratios := basePayoutRatios places numTeams in
  let rawAmounts := map (fun r => (r * inject_Z prizePool)%Q) ratios in
  let finalAmounts := roundPayoutsPrefer10Then5 rawAmounts prizePool in
  mapi (fun i amt => {| place := Z.of_nat i + 1; amount := amt |})
       finalAmounts.

Definition generateGame (h : Host) (c : Course) (ps : list Player)
    (settings : GameSettings) : result GameResult :=
  let enriched := map (computePlayerCH c) ps in
  let teamSizes := determineTeamSizes (len enriched) in
  let groups := formGroups enriched in
  let (sortedGroups, ambient) := orderGroups h settings groups in
  match assignGroups h settings sortedGroups ambient
          (teamsInit teamSizes, teamSizes) with
  | Err msg => Err msg
  | Ok (teams, _) =>
      let sortedTeams := sortTeams (map withTeamHandicap teams) in
      let prizePool :=
        Z.max 0 (Js.round (entryFeePerPlayer settings
                           * inject_Z (len enriched))) in
      let skinsPool :=
        Z.max 0 (Js.round (match skinsPoolPerPlayer settings with
                           | Some s => s
                           | None => 0%Q
                           end * inject_Z (len enriched))) in
      Ok {| course := c;
            teams := sortedTeams;
            totalPlayers := len enriched;
            prizePool := prizePool;
            skinsPool := skinsPool;
            payouts := payoutsFor settings prizePool (len sortedTeams) |}
  end.

(* ================================================================= *)
(** * Handicap enrichment, the second entry point ([utils/handicap.ts]) *)

Definition playerWithCourseHandicap (c : Course) (p : Player) : PlayerWithCH :=
  let ch := courseHandicapFor c (handicapIndex p) (tee p) in
  {| player := p; courseHandicap := ch |}.

(* ================================================================= *)
(** * JavaScript maps and objects *)

(** A [Map], or the own properties of an object: the entries in
    insertion order.  [mapSet] replaces the value of a key that is
    present and appends a key that is not. *)
Fixpoint mapSet {K V : Type} (eqb : K -> K -> bool) (k : K) (v : V)
    (m : list (K * V)) : list (K * V) :=
  match m with
  | [] => [(k, v)]
  | (k', v') :: rest =>
      if eqb k' k then (k', v) :: rest
      else (k', v') :: mapSet eqb k v rest
  end.

Fixpoint mapGet {K V : Type} (eqb : K -> K -> bool) (k : K)
    (m : list (K * V)) : option V :=
  match m with
  | [] => None
  | (k', v') :: rest => if eqb k' k then Some v' else mapGet eqb k rest
  end.

(** [Array.from(map.values())]. *)
Definition mapValues {K V : Type} (m : list (K * V)) : list V := map snd m.

(** [for (const x of xs) map.set(key(x), x)]. *)
Definition mapSetAll {K V : Type} (eqb : K -> K -> bool) (key : V -> K)
    (xs : list V) (m : list (K * V)) : list (K * V) :=
  fold_left (fun m x => mapSet eqb (key x) x m) xs m.

(** The names that every object inherits from [Object.prototype]. *)
Definition objectPrototypeKeys : list string :=
  [ "constructor"; "__defineGetter__"; "__defineSetter__"; "hasOwnProperty";
    "__lookupGetter__"; "__lookupSetter__"; "isPrototypeOf";
    "propertyIsEnumerable"; "toString"; "valueOf"; "__proto__";
    "toLocaleString" ]%string.

(** What [obj[name]] finds in an object of data: an own property, a
    member of [Object.prototype], or nothing. *)
Inductive Property (V : Type) : Type :=
| Own (v : V)
| Inherited
| Missing.
Arguments Own {V} v.
Arguments Inherited {V}.
Arguments Missing {V}.

Definition getProperty {V : Type} (obj : list (string * V)) (name : string)
    : Property V :=
  match mapGet String.eqb name obj with
  | Some v => Own v
  | None =>
      if existsb (String.eqb name) objectPrototypeKeys then Inherited
      else Missing
  end.

(** The string functions of the host that the code calls and whose
    tables (Unicode white space, case mapping) are not spelled out. *)
Record Text : Type := mkText {
  trim : string -> string;
  toLowerCase : string -> string
}.

(** [s.includes(q)], on the code units. *)
Fixpoint includes (s q : string) : bool :=
  String.prefix q s
  || match s with
     | EmptyString => false
     | String _ s' => includes s' q
     end.

(** [s || ''] for an optional string. *)
Definition orEmpty (s : option string) : string :=
  match s with
  | Some s => s
  | None => EmptyString
  end.

(* ================================================================= *)
(** * Saved courses ([utils/savedCourses.ts]) *)

(** The declarations of [SavedPlayer], [SavedHole], [SavedCourseData]
    and [SavedCourses] are in [types/saved], which is not at hand; the
    fields are those the code reads and writes. *)
Record SavedPlayer : Type := mkSavedPlayer {
  saved_firstName : string;
  saved_lastName : option string;
  saved_handicapIndex : Q;
  saved_tee : Tee
}.

Record SavedHole : Type := mkSavedHole {
  hole_number : Z;
  hole_par : Z;
  hole_strokeIndex : option Z;
  hole_yardage : option Z
}.

Record SavedCourseData : Type := mkSavedCourseData {
  Players : list SavedPlayer;
  Holes : list SavedHole
}.

(** The object read from and written to local storage; the functions
    below go from the object that [loadSavedCourses] returns to the one
    handed to [persistSavedCourses]. *)
Definition SavedCourses : Type := list (string * SavedCourseData).

(** [ensureCourse], then the use of the course it returns.  For a name
    that [Object.prototype] provides, [db[courseName]] is that member,
    which has no [Players] and no [Holes]. *)
Definition ensureCourse (db : SavedCourses) (courseName : string)
    : Property SavedCourseData :=
  match getProperty db courseName with
  | Own course => Own course
  | Inherited => Inherited
  | Missing => Own {| Players := []; Holes := [] |}
  end.

Definition typeError : string := "TypeError"%string.

(** The key of [upsertPlayers]: trimmed, lower-cased first and last
    name. *)
Definition playerNameKey (tx : Text) (p : SavedPlayer) : string :=
  (toLowerCase tx (trim tx (saved_firstName p)) ++ "|"
   ++ toLowerCase tx (trim tx (orEmpty (saved_lastName p))))%string.

Definition cmpSavedPlayers (h : Host) (a b : SavedPlayer) : Z :=
  let ln := localeCompare h (orEmpty (saved_lastName a))
                            (orEmpty (saved_lastName b)) in
  if negb (ln =? 0) then ln
  else localeCompare h (saved_firstName a) (saved_firstName b).

(** The list that [upsertPlayers] stores in [course.Players]. *)
Definition mergePlayers (h : Host) (tx : Text)
    (existing players : list SavedPlayer) : list SavedPlayer :=
  let map := mapSetAll String.eqb (playerNameKey tx) players
               (mapSetAll String.eqb (playerNameKey tx) existing []) in
  sortBy (cmpSavedPlayers h) (mapValues map).

Definition upsertPlayers (h : Host) (tx : Text) (courseName : string)
    (players : list SavedPlayer) (db : SavedCourses) : result SavedCourses :=
  match ensureCourse db courseName with
  | Own course =>
      Ok (mapSet String.eqb courseName
            {| Players := mergePlayers h tx (Players course) players;
               Holes := Holes course |} db)
  | _ => Err typeError
  end.

(** [searchPlayers]: at most ten saved players whose name contains the
    query. *)
Definition searchPlayers (tx : Text) (courseName query : string)
    (db : SavedCourses) : result (list SavedPlayer) :=
  match getProperty db courseName with
  | Missing => Ok []
  | found =>
      if String.eqb (trim tx query) EmptyString then Ok []
      else
        match found with
        | Own course =>
            let q := toLowerCase tx (trim tx query) in
            Ok (firstn 10
                  (filter (fun p =>
                             includes
                               (toLowerCase tx
                                  (saved_firstName p ++ " "
                                   ++ orEmpty (saved_lastName p))%string)
                               q)
                          (Players course)))
        | _ => Err typeError
        end
  end.

(** The list that [upsertHoles] stores in [course.Holes]. *)
Definition mergeHoles (existing holes : list SavedHole) : list SavedHole :=
  let byNo := mapSetAll Z.eqb hole_number holes
                (mapSetAll Z.eqb hole_number existing []) in
  sortBy (fun a b => hole_number a - hole_number b) (mapValues byNo).

Definition upsertHoles (courseName : string) (holes : list SavedHole)
    (db : SavedCourses) : result SavedCourses :=
  match ensureCourse db courseName with
  | Own course =>
      Ok (mapSet String.eqb courseName
            {| Players := Players course;
               Holes := mergeHoles (Holes course) holes |} db)
  | _ => Err typeError
  end.

(* ================================================================= *)
(** * Scorecards ([components/Scorecards.tsx]) *)

(** [while (courseHandicap - strokes * 18 >= strokeIndex) strokes++]. *)
Fixpoint strokesLoop (fuel : nat) (courseHandicap strokeIndex strokes : Z)
    : Z :=
  match fuel with
  | O => strokes
  | S fuel' =>
      if strokeIndex <=? courseHandicap - strokes * 18
      then strokesLoop fuel' courseHandicap strokeIndex (strokes + 1)
      else strokes
  end.

(** The loop adds a stroke per turn and stops at the latest when
    [strokes * 18] reaches the course handicap: [courseHandicap] turns
    are enough. *)
Definition strokesOnHole (courseHandicap : Z) (strokeIndex : option Z) : Z :=
  match strokeIndex with
  | None => 0
  | Some si =>
      if (si =? 0) || (si <=? 0) then 0
      else if courseHandicap <=? 0 then 0
      else strokesLoop (Z.to_nat courseHandicap) courseHandicap si 0
  end.

(** A hole of the printed card. *)
Record CardHole : Type := mkCardHole {
  card_number : Z;
  card_par : Z;
  card_strokeIndex : option Z
}.

(** [db[course.name]?.Holes ?? []]. *)
Definition savedHoles (db : SavedCourses) (courseName : string)
    : list SavedHole :=
  match getProperty db courseName with
  | Own entry => Holes entry
  | _ => []
  end.

Definition holes18 (holes : list SavedHole) : list CardHole :=
  match holes with
  | [] => []
  | _ =>
      let byNo :=
        fold_left
          (fun m h => mapSet Z.eqb (hole_number h)
                        {| card_number := hole_number h;
                           card_par := hole_par h;
                           card_strokeIndex := hole_strokeIndex h |} m)
          holes [] in
      map (fun i =>
             match mapGet Z.eqb i byNo with
             | Some h => h
             | None => {| card_number := i; card_par := 4;
                          card_strokeIndex := Some i |}
             end)
          (map Z.of_nat (seq 1 18))
  end.

(** The number of dots printed for [s] strokes:
    [s > 0 ? '•'.repeat(Math.min(s, 3)) : '']. *)
Definition dots (s : Z) : Z := if 0 <? s then Z.min s 3 else 0.

(** The strokes, hole by hole, on the row of a player. *)
Definition strokesRow (c : Course) (card : list CardHole) (p : PlayerWithCH)
    : list Z :=
  let ch := courseHandicapFor c (handicapIndex (player p)) (tee (player p)) in
  map (fun h => strokesOnHole ch (card_strokeIndex h)) card.

(* ================================================================= *)
(** * Course manager ([components/CourseManager.tsx]) *)

(** [arr.find(p)] followed by a change of the element found. *)
Fixpoint updFirst {A : Type} (p : A -> bool) (f : A -> A) (l : list A)
    : list A :=
  match l with
  | [] => []
  | x :: xs => if p x then f x :: xs else x :: updFirst p f xs
  end.

(** The array after [arr.splice(i, 1)]. *)
Definition spliceOut {A : Type} (i : nat) (l : list A) : list A :=
  firstn i l ++ skipn (S i) l.

(** [handleDrop]: the teams of the game after a player is dragged from
    one team and dropped on another.  [draggedPlayer] is the source team
    and the position in it.  With a position outside the source team,
    [undefined] is pushed and the recomputation of the handicaps
    throws. *)
Definition handleDrop (gameTeams : list Team)
    (draggedPlayer : option (Z * nat)) (targetTeamId : Z)
    : result (list Team) :=
  match draggedPlayer with
  | None => Ok gameTeams
  | Some (sourceTeamId, playerIndex) =>
      if sourceTeamId =? targetTeamId then Ok gameTeams
      else
        match find (fun t => team_id t =? sourceTeamId) gameTeams,
              find (fun t => team_id t =? targetTeamId) gameTeams with
        | Some sourceTeam, Some targetTeam =>
            match nth_error (players sourceTeam) playerIndex with
            | Some movedPlayer =>
                let updatedTeams :=
                  updFirst (fun t => team_id t =? sourceTeamId)
                    (fun t => {| team_id := team_id t;
                                 players := spliceOut playerIndex (players t);
                                 teamHandicap := teamHandicap t |})
                    gameTeams in
                let updatedTeams :=
                  updFirst (fun t => team_id t =? targetTeamId)
                    (fun t => {| team_id := team_id t;
                                 players := players t ++ [movedPlayer];
                                 teamHandicap := teamHandicap t |})
                    updatedTeams in
                Ok (map withTeamHandicap updatedTeams)
            | None => Err typeError
            end
        | _, _ => Ok gameTeams
        end
  end.

(** [deletePlayer]. *)
Definition deletePlayer (players : list Player) (index : nat) : list Player :=
  firstn index players ++ skipn (index + 1) players.

(** [makeId]; [randomPart] is [Math.random().toString(36).slice(2, 8)]
    and [timePart] is [Date.now().toString(36)]. *)
Definition makeId (prefix randomPart timePart : string) : string :=
  (prefix ++ "_" ++ randomPart ++ "_" ++ timePart)%string.

(** A [linkGroupId] read as a condition: set and not empty. *)
Definition linked (p : Player) : bool :=
  match linkGroupId p with
  | Some (String _ _) => true
  | _ => false
  end.

Definition hasGroup (gid : string) (p : Player) : bool :=
  match linkGroupId p with
  | Some g => String.eqb g gid
  | None => false
  end.

(** [Array.from(new Set(xs))]: the first occurrences, in order. *)
Definition distinct (xs : list string) : list string :=
  fold_left (fun seen x => if existsb (String.eqb x) seen then seen
                           else seen ++ [x]) xs [].

Definition withLink (gid : option string) (p : Player) : Player :=
  {| player_id := player_id p; firstName := firstName p;
     lastName := lastName p; handicapIndex := handicapIndex p;
     tee := tee p; linkGroupId := gid |}.

Definition isSelected (selectedPlayerIds : list string) (p : Player) : bool :=
  existsb (String.eqb (player_id p)) selectedPlayerIds.

(** [linkSelectedPlayers]: the players of the course afterwards. *)
Definition linkSelectedPlayers (players : list Player)
    (selectedPlayerIds : list string) (randomPart timePart : string)
    : list Player :=
  let selected := filter (isSelected selectedPlayerIds) players in
  if (length selected <? 2)%nat || (4 <? length selected)%nat then players
  else
    let distinctGroups :=
      distinct (flat_map (fun p => if linked p
                                   then [orEmpty (linkGroupId p)] else [])
                         selected) in
    if (1 <? length distinctGroups)%nat then players
    else
      let update groupId :=
        map (fun p => if isSelected selectedPlayerIds p
                      then withLink (Some groupId) p else p) players in
      match distinctGroups with
      | existingGroupId :: _ =>
          let existingMembersCount :=
            length (filter (hasGroup existingGroupId) players) in
          let toAddCount :=
            length (filter (fun p => negb (linked p)) selected) in
          if (4 <? existingMembersCount + toAddCount)%nat then players
          else update existingGroupId
      | [] => update (makeId "grp" randomPart timePart)
      end.

(** [unlinkSelectedPlayers]. *)
Definition unlinkSelectedPlayers (players : list Player)
    (selectedPlayerIds : list string) : list Player :=
  if existsb (isSelected selectedPlayerIds) players
  then map (fun p => if isSelected selectedPlayerIds p
                     then withLink None p else p) players
  else players.

(* ================================================================= *)
(** * Handicap lookup ([api/ghin.ts]) *)

Definition MOCK_GHIN_BY_NUMBER : list (string * Q) :=
  [ ("1234567"%string, 8.4%Q); ("7654321"%string, 12.1%Q);
    ("1111111"%string, 2.3%Q) ].

Definition MOCK_GHIN_BY_NAME : list (string * Q) :=
  [ ("ann-smith"%string, 10.2%Q); ("john-doe"%string, 15.6%Q);
    ("tiger-woods"%string, (-3.1)%Q) ].

Definition normalizeName (tx : Text) (first last : string) : string :=
  (toLowerCase tx (trim tx first) ++ "-"
   ++ toLowerCase tx (trim tx last))%string.

(** [x.toFixed(1)] read back by [Number]: the nearest tenth, a tie going
    away from zero. *)
Definition toFixed1 (x : Q) : Q :=
  if Qle_bool 0 x then (inject_Z (Js.round (x * 10)) / 10)%Q
  else (- (inject_Z (Js.round (- x * 10)) / 10))%Q.

(** [Array.from(seed).reduce((acc, c) => acc + c.charCodeAt(0), 0)]; the
    characters of a string are its code units, which are below 256
    here. *)
Definition charCodeSum (seed : string) : Z :=
  fold_left (fun acc c => acc + Z.of_N (N_of_ascii c))
    (list_ascii_of_string seed) 0.

Definition hashToHandicap (seed : string) : Q :=
  let sum := charCodeSum seed in
  let val := (inject_Z (sum mod 414) / 10 - 5)%Q in
  toFixed1 val.

Inductive GhinQuery : Type :=
| ByNumber (ghinNumber : string)
| ByName (firstName lastName : string).

(** What the promise of [getHandicapIndex] resolves to: a number, or,
    for a key that [in] finds on [Object.prototype], the member of that
    name. *)
Inductive Resolved : Type :=
| Index (hi : Q)
| Member (name : string).

Definition getHandicapIndex (tx : Text) (query : GhinQuery) : Resolved :=
  match query with
  | ByNumber ghinNumber =>
      let n := trim tx ghinNumber in
      match getProperty MOCK_GHIN_BY_NUMBER n with
      | Own hi => Index hi
      | Inherited => Member n
      | Missing => Index (hashToHandicap ("ghin:" ++ n))
      end
  | ByName firstName lastName =>
      let key := normalizeName tx firstName lastName in
      match getProperty MOCK_GHIN_BY_NAME key with
      | Own hi => Index hi
      | Inherited => Member key
      | Missing => Index (hashToHandicap ("name:" ++ key))
      end
  end.

(* ================================================================= *)
(** * The team-size planner of the earlier [utils/game.ts] *)

Module Legacy.

(** [Math.ceil]. *)
Definition ceil (x : Q) : Z := Qceiling x.

(** [for (let i = 0; i < extras; i++) sizes[i] = 4], from index [i] on
    and for [count] more turns.  The loop meets the indices in order, so
    that an index outside the array is its length, where the store
    appends. *)
Fixpoint fillFours (count i : nat) (sizes : list Z) : list Z :=
  match count with
  | O => sizes
  | S count' =>
      fillFours count' (S i)
        (if (i <? length sizes)%nat then updAt i (fun _ => 4) sizes
         else sizes ++ [4])
  end.

Definition determineTeamSizes (total : Z) : list Z :=
  if total <=? 4 then [total]
  else
    let numTeams := ceil (inject_Z total / 4) in
    let sizes := repeat 3 (Z.to_nat numTeams) in
    let extras := total - numTeams * 3 in
    fillFours (Z.to_nat extras) 0 sizes.

End Legacy.

(* ================================================================= *)
(** * Notions used by the statements *)

(** [clamp(x, lo, hi)], on numbers that need not be whole. *)
Definition clamp (x lo hi : Q) : Q := qmin (qmax lo x) hi.



(** Non-increasing by position. *)
Definition nonIncreasing (l : list Z) : Prop :=
  forall i a b, nth_error l i = Some a -> nth_error l (S i) = Some b -> b <= a.

(** The final order of the teams: member count, then team handicap. *)
Definition teamLe (a b : Team) : Prop :=
  len (players a) < len (players b)
  \/ (len (players a) = len (players b) /\ teamHandicap a <= teamHandicap b).

(** The identifiers 1, 2, ..., k. *)
Definition oneTo (k : nat) : list Z := map (fun i => Z.of_nat i + 1) (seq 0 k).

(** The players saved for a course: [db[courseName]?.Players ?? []]. *)
Definition savedPlayers (db : SavedCourses) (courseName : string)
    : list SavedPlayer :=
  match getProperty db courseName with
  | Own entry => Players entry
  | _ => []
  end.

(** The number of players that carry the link group [gid]. *)
Definition linkCount (gid : string) (players : list Player) : nat :=
  length (filter (hasGroup gid) players).

(** [ceil(n / 4)] on naturals. *)
Definition ceilDiv4 (n : nat) : nat := ((n + 3) / 4)%nat.

(** The settings with [randomSeed] replaced. *)
Definition withSeed (settings : GameSettings) (seed : option Z)
    : GameSettings :=
  {| entryFeePerPlayer := entryFeePerPlayer settings;
     skinsPoolPerPlayer := skinsPoolPerPlayer settings;
     randomSeed := seed;
     randomizeTeams := randomizeTeams settings;
     paidPlaces := paidPlaces settings |}.

(** [settings.paidPlaces ?? 3]. *)
Definition requestedPlaces (settings : GameSettings) : Q :=
  match paidPlaces settings with
  | Some p => p
  | None => 3%Q
  end.

(** The settings with [paidPlaces] replaced. *)
Definition withPaidPlaces (settings : GameSettings) (places : Q)
    : GameSettings :=
  {| entryFeePerPlayer := entryFeePerPlayer settings;
     skinsPoolPerPlayer := skinsPoolPerPlayer settings;
     randomSeed := randomSeed settings;
     randomizeTeams := randomizeTeams settings;
     paidPlaces := Some places |}.

(** The host with the collation [collate] and the draws [random]. *)
Definition hostWith (collate : string -> string -> Z)
    (random : nat -> unitQ) : Host :=
  {| localeCompare := collate; mathRandom := random |}.

(* ================================================================= *)
(** * Invariants used by the proofs *)

(** The players of [roster] with the group key [gid], in roster order. *)
Definition playersWithKey (gid : string) (roster : list PlayerWithCH)
    : list PlayerWithCH :=
  filter (fun p => String.eqb (groupKey p) gid) roster.

(** What the map of groups holds once the players [pre] are entered: one
    entry per key, with the players of that key in roster order. *)
Definition GroupsOf (pre : list PlayerWithCH) (m : list Group) : Prop :=
  NoDup (map group_id m)
  /\ (forall g, In g m -> members g = playersWithKey (group_id g) pre)
  /\ (forall p, In p pre -> In (groupKey p) (map group_id m)).

(** The total size of some groups. *)
Definition load (gs : list Group) : Z := sumZ (map size gs).

(** A run of the placement loop, whichever policy picks the team: each
    group goes to a team whose remaining capacity holds it. *)
Inductive Assigns : list Group -> Placement -> Placement -> Prop :=
| Assigns_nil (st : Placement) : Assigns [] st st
| Assigns_cons (g : Group) (gs : list Group) (st st' : Placement)
    (idx : nat) (r : Z) :
    nth_error (snd st) idx = Some r ->
    size g <= r ->
    Assigns gs (placeAt idx g st) st' ->
    Assigns (g :: gs) st st'.

(** Every team has a remaining capacity, none of them negative. *)
Definition Capacity (st : Placement) : Prop :=
  length (fst st) = length (snd st) /\ Forall (fun r => 0 <= r) (snd st).

(** [book] records, per team, its planned size and the groups placed in
    it so far; [Booked book st] says that [st] is what these placements
    produce. *)
Definition Booked (book : list (Z * list Group)) (st : Placement) : Prop :=
  map players (fst st) = map (fun e => flat_map members (snd e)) book
  /\ snd st = map (fun e => fst e - load (snd e)) book.

(** An amount that [tryRound step] can hold before the final clamp: a
    non-negative multiple of [step]. *)
Definition Payable (step x : Z) : Prop := 0 <= x /\ (step | x).

(* ================================================================= *)
(** * Sample inputs *)

(** A host whose collation is the order of the code units and whose
    [Math.random] always returns 0, and sample inputs. *)
Definition codeUnitCompare (a b : string) : Z :=
  match String.compare a b with
  | Lt => -1
  | Eq => 0
  | Gt => 1
  end.

Definition zeroDraw : unitQ := {| uq := 0; uq_range := eq_refl |}.

Definition sampleHost : Host :=
  {| localeCompare := codeUnitCompare; mathRandom := fun _ => zeroDraw |}.

Definition sampleCourse : Course :=
  {| course_name := "Sample";
     par := 72;
     slopes := {| slope_white := Some 113%Q;
                  slope_blue := Some 122%Q;
                  slope_red := None |};
     course_players := [] |}.

Definition samplePlayer (pid : string) (hi : Q) (link : option string)
    : Player :=
  {| player_id := pid; firstName := pid; lastName := None;
     handicapIndex := hi; tee := white; linkGroupId := link |}.

(** Settings with a whole number of paid places, or none. *)
Definition sampleSettings (fee : Q) (rnd : option bool) (seed places : option Z)
    : GameSettings :=
  {| entryFeePerPlayer := fee; skinsPoolPerPlayer := None;
     randomSeed := seed; randomizeTeams := rnd;
     paidPlaces := option_map inject_Z places |}.

(** Eight unlinked players with handicap indices 5 to 12. *)
Definition roster8 : list Player :=
  [ samplePlayer "1"%string 5 None; samplePlayer "2"%string 6 None;
    samplePlayer "3"%string 7 None; samplePlayer "4"%string 8 None;
    samplePlayer "5"%string 9 None; samplePlayer "6"%string 10 None;
    samplePlayer "7"%string 11 None; samplePlayer "8"%string 12 None ].

(** Five players, the first four linked as one group. *)
Definition roster5linked : list Player :=
  [ samplePlayer "1"%string 5 (Some "a"%string);
    samplePlayer "2"%string 6 (Some "a"%string);
    samplePlayer "3"%string 7 (Some "a"%string);
    samplePlayer "4"%string 8 (Some "a"%string);
    samplePlayer "5"%string 9 None ].

(** Five players linked as one group. *)
Definition roster5group : list Player :=
  [ samplePlayer "1"%string 5 (Some "a"%string);
    samplePlayer "2"%string 6 (Some "a"%string);
    samplePlayer "3"%string 7 (Some "a"%string);
    samplePlayer "4"%string 8 (Some "a"%string);
    samplePlayer "5"%string 9 (Some "a"%string) ].

(** Ten players in four link groups, of three, three, two and two. *)
Definition roster10groups : list Player :=
  [ samplePlayer "1"%string 5 (Some "a"%string);
    samplePlayer "2"%string 6 (Some "a"%string);
    samplePlayer "3"%string 7 (Some "a"%string);
    samplePlayer "4"%string 8 (Some "b"%string);
    samplePlayer "5"%string 9 (Some "b"%string);
    samplePlayer "6"%string 10 (Some "b"%string);
    samplePlayer "7"%string 11 (Some "c"%string);
    samplePlayer "8"%string 12 (Some "c"%string);
    samplePlayer "9"%string 13 (Some "d"%string);
    samplePlayer "10"%string 14 (Some "d"%string) ].

(** Six players linked as three pairs. *)
Definition roster6pairs : list Player :=
  [ samplePlayer "1"%string 5 (Some "a"%string);
    samplePlayer "2"%string 6 (Some "a"%string);
    samplePlayer "3"%string 7 (Some "b"%string);
    samplePlayer "4"%string 8 (Some "b"%string);
    samplePlayer "5"%string 9 (Some "c"%string);
    samplePlayer "6"%string 10 (Some "c"%string) ].

(** [n] unlinked players with identifiers 1 to [n] and index 10. *)
Definition rosterOf (n : nat) : list Player :=
  map (fun i => samplePlayer (Js.showZ (Z.of_nat i + 1)) 10 None) (seq 0 n).

(** A second source of random draws. *)
Definition halfDraw : unitQ := {| uq := 0.5; uq_range := eq_refl |}.

(** A host whose [Math.random] alternates between 0 and 0.5. *)
Definition alternatingHost : Host :=
  {| localeCompare := codeUnitCompare;
     mathRandom := fun k => if Nat.even k then zeroDraw else halfDraw |}.

(* ================================================================= *)
(** * Sums and lists *)

Lemma fold_add_acc (l : list Z) (a : Z) :
  fold_left Z.add l a = a + fold_left Z.add l 0.
Proof.
  revert a. induction l as [|x l IH]; intros a; simpl.
  - lia.
  - rewrite IH, (IH x). lia.
Qed.

Lemma sumZ_nil : sumZ [] = 0.
Proof. reflexivity. Qed.

Lemma sumZ_cons (x : Z) (l : list Z) : sumZ (x :: l) = x + sumZ l.
Proof. unfold sumZ. simpl. apply fold_add_acc. Qed.

Lemma sumZ_app (l1 l2 : list Z) : sumZ (l1 ++ l2) = sumZ l1 + sumZ l2.
Proof.
  induction l1 as [|x l1 IH]; simpl.
  - reflexivity.
  - rewrite !sumZ_cons, IH. lia.
Qed.

Lemma sumZ_fours (k : Z) : 0 <= k -> sumZ (fours k) = 4 * k.
Proof.
  intros Hk. unfold fours.
  rewrite <- (Z2Nat.id k) at 2 by lia.
  induction (Z.to_nat k) as [|m IH]; simpl repeat.
  - reflexivity.
  - rewrite sumZ_cons, IH. lia.
Qed.

Lemma In_fours (k x : Z) : In x (fours k) -> x = 4.
Proof. unfold fours. intros H. apply repeat_spec in H. exact H. Qed.

(* ================================================================= *)
(** * Team-size planner: properties *)

Lemma determineTeamSizes_sum (n : Z) : sumZ (determineTeamSizes n) = n.
Proof.
  unfold determineTeamSizes.
  destruct (n <=? 4) eqn:E4.
  - rewrite sumZ_cons, sumZ_nil. lia.
  - apply Z.leb_gt in E4.
    assert (Hq : 1 <= n / 4) by (apply Z.div_le_lower_bound; lia).
    pose proof (Z.mod_pos_bound n 4 ltac:(lia)) as Hm.
    pose proof (Z.div_mod n 4 ltac:(lia)) as Hd.
    repeat match goal with
    | |- context [if ?b then _ else _] => destruct b eqn:?
    end;
    rewrite ?Z.eqb_eq, ?Z.eqb_neq, ?Z.leb_le, ?Z.leb_gt in *;
    rewrite ?sumZ_app, ?sumZ_fours by lia;
    repeat rewrite sumZ_cons; rewrite ?sumZ_nil; lia.
Qed.

Lemma determineTeamSizes_members (n x : Z) :
  5 <= n -> In x (determineTeamSizes n) ->
  (x = 3 \/ x = 4) \/ (x = 2 /\ n = 5).
Proof.
  intros Hn. unfold determineTeamSizes.
  assert (E4 : (n <=? 4) = false) by (apply Z.leb_gt; lia).
  rewrite E4.
  assert (Hq : 1 <= n / 4) by (apply Z.div_le_lower_bound; lia).
  pose proof (Z.div_mod n 4 ltac:(lia)) as Hd.
  repeat match goal with
  | |- context [if ?b then _ else _] => destruct b eqn:?
  end;
  rewrite ?Z.eqb_eq, ?Z.eqb_neq, ?Z.leb_le, ?Z.leb_gt in *;
  intros Hin; rewrite ?in_app_iff in Hin; simpl in Hin;
  repeat match goal with
  | H : _ \/ _ |- _ => destruct H
  | H : In _ (fours _) |- _ => apply In_fours in H
  | H : False |- _ => destruct H
  end; try lia.
Qed.

(** C3.  For every total [n >= 1] the plan sums to [n]; it is the single
    team [[n]] when [n <= 4]; from 5 on every size is 2, 3 or 4; no size
    is 5; a size 2 occurs only for the totals 2 and 5; and the totals 5,
    6, 9 and 10 give [[3;2]], [[3;3]], [[3;3;3]] and [[4;3;3]]. *)
Theorem determineTeamSizes_plan (n : Z) (Hn : 1 <= n) :
  sumZ (determineTeamSizes n) = n
  /\ (n <= 4 -> determineTeamSizes n = [n])
  /\ (5 <= n ->
      Forall (fun s => s = 2 \/ s = 3 \/ s = 4) (determineTeamSizes n))
  /\ ~ In 5 (determineTeamSizes n)
  /\ (In 2 (determineTeamSizes n) -> n = 2 \/ n = 5)
  /\ determineTeamSizes 5 = [3; 2]
  /\ determineTeamSizes 6 = [3; 3]
  /\ determineTeamSizes 9 = [3; 3; 3]
  /\ determineTeamSizes 10 = [4; 3; 3].
Proof.
  assert (Hsmall : n <= 4 -> determineTeamSizes n = [n]).
  { intros H. unfold determineTeamSizes.
    assert (E : (n <=? 4) = true) by (apply Z.leb_le; exact H).
    rewrite E. reflexivity. }
  split; [apply determineTeamSizes_sum|].
  split; [exact Hsmall|].
  split.
  { intros H5. apply Forall_forall. intros x Hx.
    destruct (determineTeamSizes_members n x H5 Hx) as [[?|?]|[? _]]; auto. }
  split.
  { intros H5. destruct (Z_le_gt_dec n 4) as [Hle|Hgt].
    - rewrite (Hsmall Hle) in H5. simpl in H5. lia.
    - destruct (determineTeamSizes_members n 5 ltac:(lia) H5)
        as [[?|?]|[? _]]; lia. }
  split.
  { intros H2. destruct (Z_le_gt_dec n 4) as [Hle|Hgt].
    - rewrite (Hsmall Hle) in H2. simpl in H2. lia.
    - destruct (determineTeamSizes_members n 2 ltac:(lia) H2)
        as [[?|?]|[_ ?]]; lia. }
  repeat split; reflexivity.
Qed.

Lemma determineTeamSizes_plan_witness :
  sumZ (determineTeamSizes 10) = 10
  /\ Forall (fun s => s = 2 \/ s = 3 \/ s = 4) (determineTeamSizes 10).
Proof.
  destruct (determineTeamSizes_plan 10 ltac:(lia)) as (Hs & _ & Hm & _).
  split; [exact Hs | apply Hm; lia].
Defined.

(* ================================================================= *)
(** * Handicap enrichment: properties *)




Lemma round_zero (x : Q) : (x == 0)%Q -> Js.round x = 0.
Proof.
  intros Hx. unfold Js.round.
  assert (E : (x + (1 # 2) == 1 # 2)%Q) by (rewrite Hx; ring).
  rewrite E. reflexivity.
Qed.





(* ================================================================= *)
(** * The empty roster *)

Lemma qmax_cases (a b : Q) :
  ((a <= b)%Q /\ qmax a b = b) \/ ((b < a)%Q /\ qmax a b = a).
Proof.
  unfold qmax. destruct (Qle_bool a b) eqn:E.
  - left. split; [apply Qle_bool_iff, E|reflexivity].
  - right. split; [|reflexivity]. apply Qnot_le_lt. intros H.
    apply Qle_bool_iff in H. congruence.
Qed.

Lemma qmin_cases (a b : Q) :
  ((a <= b)%Q /\ qmin a b = a) \/ ((b < a)%Q /\ qmin a b = b).
Proof.
  unfold qmin. destruct (Qle_bool a b) eqn:E.
  - left. split; [apply Qle_bool_iff, E|reflexivity].
  - right. split; [|reflexivity]. apply Qnot_le_lt. intros H.
    apply Qle_bool_iff in H. congruence.
Qed.

Lemma Qeq_bool_false (x y : Q) : ~ (x == y)%Q -> Qeq_bool x y = false.
Proof.
  intros H. destruct (Qeq_bool x y) eqn:E; [|reflexivity].
  apply Qeq_bool_iff in E. contradiction.
Qed.

Lemma basePayoutRatios_one_team (places : Q) :
  basePayoutRatios (qmax 1 places) 1 = [1%Q].
Proof.
  unfold basePayoutRatios. change (inject_Z 1) with 1%Q.
  assert (E : (qmax 1 (qmin (qmax 1 places) 1) == 1)%Q).
  { destruct (qmax_cases 1 places) as [[H1 ->]|[H1 ->]];
      destruct (qmin_cases places 1) as [[H2 E2]|[H2 E2]];
      destruct (qmin_cases 1 1) as [[H3 E3]|[H3 E3]];
      rewrite ?E2, ?E3;
      match goal with
      | |- (qmax 1 ?x == 1)%Q =>
          destruct (qmax_cases 1 x) as [[H4 ->]|[H4 ->]]
      end; lra. }
  apply Qeq_bool_iff in E. rewrite E. reflexivity.
Qed.

Lemma payoutsFor_empty_pool_one_team (settings : GameSettings) :
  payoutsFor settings 0 1 = [ {| place := 1; amount := 0 |} ].
Proof.
  unfold payoutsFor. rewrite basePayoutRatios_one_team. reflexivity.
Qed.

Lemma orderGroups_nil (h : Host) (settings : GameSettings) :
  fst (orderGroups h settings []) = [].
Proof.
  unfold orderGroups. destruct (randomize settings); reflexivity.
Qed.

Lemma assignGroups_nil (h : Host) (settings : GameSettings) (ambient : Rand)
    (st : Placement) :
  assignGroups h settings [] ambient st = Ok st.
Proof.
  unfold assignGroups. destruct (randomize settings); reflexivity.
Qed.

(** C6, as the code has it.  An empty roster does not fail; the plan for
    zero players is the single size 0, so the result holds one team
    without players (identifier 1, team handicap 0), both pools are 0
    and the one payout is 0. *)
Theorem generateGame_empty_roster (h : Host) (c : Course)
    (settings : GameSettings) :
  generateGame h c [] settings
  = Ok {| course := c;
          teams := [ {| team_id := 1; players := []; teamHandicap := 0 |} ];
          totalPlayers := 0;
          prizePool := 0;
          skinsPool := 0;
          payouts := [ {| place := 1; amount := 0 |} ] |}.
Proof.
  unfold generateGame.
  change (map (computePlayerCH c) []) with (@nil PlayerWithCH).
  change (len (@nil PlayerWithCH)) with 0.
  change (formGroups []) with (@nil Group).
  pose proof (orderGroups_nil h settings) as Hg.
  destruct (orderGroups h settings []) as [sortedGroups ambient].
  simpl in Hg. subst sortedGroups.
  rewrite assignGroups_nil.
  change (determineTeamSizes 0) with [0].
  assert (E1 : Js.round (entryFeePerPlayer settings * inject_Z 0) = 0)
    by (apply round_zero; ring).
  assert (E2 : Js.round (match skinsPoolPerPlayer settings with
                         | Some s => s
                         | None => 0%Q
                         end * inject_Z 0) = 0)
    by (apply round_zero; ring).
  rewrite E1, E2.
  change (sortTeams (map withTeamHandicap (teamsInit [0])))
    with [ {| team_id := 1; players := []; teamHandicap := 0 |} ].
  change (Z.max 0 0) with 0.
  change (len [ {| team_id := 1; players := []; teamHandicap := 0 |} ]) with 1.
  rewrite payoutsFor_empty_pool_one_team.
  reflexivity.
Qed.

(** C6, as stated, fails: the result for an empty roster has one team,
    not zero teams. *)
Lemma empty_roster_has_a_team :
  exists r,
    generateGame sampleHost sampleCourse []
      (sampleSettings 20 None None None) = Ok r
    /\ length (teams r) = 1%nat
    /\ teams r <> [].
Proof.
  eexists. split; [vm_compute; reflexivity|].
  split; [reflexivity | discriminate].
Qed.

(* ================================================================= *)
(** * Arrays: lemmas *)

Section ArrayLemmas.

Context {A B : Type}.

Lemma mapiFrom_length (f : nat -> A -> B) (i : nat) (l : list A) :
  length (mapiFrom f i l) = length l.
Proof.
  revert i. induction l as [|x l IH]; intros i; simpl; [|rewrite IH];
    reflexivity.
Qed.

Lemma mapi_length (f : nat -> A -> B) (l : list A) :
  length (mapi f l) = length l.
Proof. apply mapiFrom_length. Qed.

Lemma mapiFrom_nth_error (f : nat -> A -> B) (i k : nat) (l : list A) :
  nth_error (mapiFrom f i l) k = option_map (f (i + k)%nat) (nth_error l k).
Proof.
  revert i k. induction l as [|x l IH]; intros i k; simpl.
  - destruct k; reflexivity.
  - destruct k as [|k]; simpl.
    + rewrite Nat.add_0_r. reflexivity.
    + rewrite IH. f_equal. f_equal. lia.
Qed.

Lemma mapi_nth_error (f : nat -> A -> B) (k : nat) (l : list A) :
  nth_error (mapi f l) k = option_map (f k) (nth_error l k).
Proof. apply mapiFrom_nth_error. Qed.

Lemma map_mapiFrom {C : Type} (g : B -> C) (f : nat -> A -> B) (i : nat)
    (l : list A) :
  map g (mapiFrom f i l) = mapiFrom (fun k x => g (f k x)) i l.
Proof.
  revert i. induction l as [|x l IH]; intros i; simpl; [|rewrite IH];
    reflexivity.
Qed.

Lemma mapiFrom_ext (f g : nat -> A -> B) (i : nat) (l : list A) :
  (forall k x, f k x = g k x) -> mapiFrom f i l = mapiFrom g i l.
Proof.
  intros E. revert i. induction l as [|x l IH]; intros i; simpl;
    [|rewrite E, IH]; reflexivity.
Qed.

Lemma mapiFrom_const (g : A -> B) (i : nat) (l : list A) :
  mapiFrom (fun _ x => g x) i l = map g l.
Proof.
  revert i. induction l as [|x l IH]; intros i; simpl; [|rewrite IH];
    reflexivity.
Qed.

Lemma mapiFrom_index (f : nat -> B) (i : nat) (l : list A) :
  mapiFrom (fun k _ => f k) i l = map f (seq i (length l)).
Proof.
  revert i. induction l as [|x l IH]; intros i; simpl; [|rewrite IH];
    reflexivity.
Qed.

Lemma updAt_length (k : nat) (f : A -> A) (l : list A) :
  length (updAt k f l) = length l.
Proof.
  revert k. induction l as [|x l IH]; intros [|k]; simpl; auto.
Qed.

Lemma map_updAt (g : A -> B) (f : A -> A) (f' : B -> B) (k : nat)
    (l : list A) :
  (forall x, g (f x) = f' (g x)) ->
  map g (updAt k f l) = updAt k f' (map g l).
Proof.
  intros E. revert k. induction l as [|x l IH]; intros [|k]; simpl;
    rewrite ?E, ?IH; reflexivity.
Qed.

Lemma updAt_id (k : nat) (f : A -> A) (l : list A) :
  (forall x, f x = x) -> updAt k f l = l.
Proof.
  intros E. revert k. induction l as [|x l IH]; intros [|k]; simpl;
    rewrite ?E, ?IH; reflexivity.
Qed.

Lemma updAt_split (k : nat) (f : A -> A) (l : list A) (x : A) :
  nth_error l k = Some x ->
  exists l1 l2, l = l1 ++ x :: l2 /\ updAt k f l = l1 ++ f x :: l2
                /\ length l1 = k.
Proof.
  revert k. induction l as [|y l IH]; intros [|k] H; simpl in H;
    try discriminate.
  - inversion H; subst. exists [], l. auto.
  - destruct (IH k H) as (l1 & l2 & E1 & E2 & E3).
    exists (y :: l1), l2. simpl. rewrite <- E1, E2, E3. auto.
Qed.

End ArrayLemmas.

Lemma sumCH_acc (ms : list PlayerWithCH) (a : Z) :
  fold_left (fun s m => s + courseHandicap m) ms a
  = a + sumZ (map courseHandicap ms).
Proof.
  revert a. induction ms as [|m ms IH]; intros a; simpl.
  - rewrite sumZ_nil. lia.
  - rewrite IH, sumZ_cons. lia.
Qed.

Lemma sumCH_eq (ms : list PlayerWithCH) :
  sumCH ms = sumZ (map courseHandicap ms).
Proof. unfold sumCH. rewrite sumCH_acc. lia. Qed.

(* ================================================================= *)
(** * Group formation: properties *)

Lemma chunkLoop_nth_error {A : Type} (fuel i k : nat) (ms : list A) :
  (length ms <= i + 4 * fuel)%nat ->
  nth_error (chunkLoop fuel i ms) k
  = if (i + 4 * k <? length ms)%nat
    then Some (slice (i + 4 * k) (i + 4 * k + 4) ms)
    else None.
Proof.
  revert i k. induction fuel as [|fuel IH]; intros i k Hf; simpl chunkLoop.
  - assert (E : (i + 4 * k <? length ms)%nat = false)
      by (apply Nat.ltb_ge; lia).
    rewrite E. destruct k; reflexivity.
  - destruct (i <? length ms)%nat eqn:Ei.
    + destruct k as [|k]; simpl nth_error.
      * replace (i + 4 * 0)%nat with i by lia. rewrite Ei. reflexivity.
      * rewrite IH by lia.
        replace (i + 4 + 4 * k)%nat with (i + 4 * S k)%nat by lia.
        reflexivity.
    + apply Nat.ltb_ge in Ei.
      assert (E : (i + 4 * k <? length ms)%nat = false)
        by (apply Nat.ltb_ge; lia).
      rewrite E. destruct k; reflexivity.
Qed.

Lemma chunkLoop_concat {A : Type} (fuel i : nat) (ms : list A) :
  (length ms <= i + 4 * fuel)%nat ->
  concat (chunkLoop fuel i ms) = skipn i ms.
Proof.
  revert i. induction fuel as [|fuel IH]; intros i Hf; simpl chunkLoop.
  - rewrite skipn_all2 by lia. reflexivity.
  - destruct (i <? length ms)%nat eqn:Ei.
    + simpl concat. rewrite IH by lia. unfold slice.
      replace (i + 4 - i)%nat with 4%nat by lia.
      replace (i + 4)%nat with (4 + i)%nat by lia.
      rewrite <- (skipn_skipn 4 i ms). apply firstn_skipn.
    + apply Nat.ltb_ge in Ei. rewrite skipn_all2 by lia. reflexivity.
Qed.

Lemma chunked_nth_error {A : Type} (k : nat) (ms : list A) :
  nth_error (chunked ms) k
  = if (4 * k <? length ms)%nat
    then Some (slice (4 * k) (4 * k + 4) ms)
    else None.
Proof. unfold chunked. rewrite chunkLoop_nth_error by lia. reflexivity. Qed.

Lemma chunked_concat {A : Type} (ms : list A) : concat (chunked ms) = ms.
Proof. unfold chunked. rewrite chunkLoop_concat by lia. reflexivity. Qed.

Lemma chunked_length {A : Type} (ms : list A) :
  length (chunked ms) = ceilDiv4 (length ms).
Proof.
  set (c := length (chunked ms)).
  assert (Hend : nth_error (chunked ms) c = None)
    by (apply nth_error_None; unfold c; lia).
  rewrite chunked_nth_error in Hend.
  destruct (4 * c <? length ms)%nat eqn:E1; [discriminate|].
  apply Nat.ltb_ge in E1.
  assert (Hlast : (c = 0 \/ 4 * (c - 1) < length ms)%nat).
  { destruct c as [|c'] eqn:Ec; [left; reflexivity|right].
    assert (Hin : nth_error (chunked ms) c' <> None)
      by (apply nth_error_Some; fold c; lia).
    rewrite chunked_nth_error in Hin.
    destruct (4 * c' <? length ms)%nat eqn:E2; [|congruence].
    apply Nat.ltb_lt in E2. lia. }
  unfold ceilDiv4.
  apply (Nat.div_unique _ 4 c (length ms + 3 - 4 * c)); lia.
Qed.

Lemma slice_length {A : Type} (i : nat) (ms : list A) :
  (i < length ms)%nat ->
  (1 <= length (slice i (i + 4) ms) <= 4)%nat.
Proof.
  intros Hi. unfold slice. rewrite length_firstn, length_skipn. lia.
Qed.

Lemma groupsPush_ids (k : string) (p : PlayerWithCH) (m : list Group) :
  (In k (map group_id m) ->
   map group_id (groupsPush k p m) = map group_id m)
  /\ (~ In k (map group_id m) ->
      map group_id (groupsPush k p m) = map group_id m ++ [k]).
Proof.
  induction m as [|g m [IH1 IH2]]; simpl.
  - split; [intros []|reflexivity].
  - destruct (String.eqb (group_id g) k) eqn:E.
    + apply String.eqb_eq in E. split; [reflexivity|].
      intros H. exfalso. apply H. left. exact E.
    + apply String.eqb_neq in E. simpl. split.
      * intros [H|H]; [contradiction|]. rewrite IH1 by exact H. reflexivity.
      * intros H. rewrite IH2 by tauto. reflexivity.
Qed.

Lemma groupsPush_members (k : string) (p : PlayerWithCH) (m : list Group)
    (g' : Group) :
  NoDup (map group_id m) ->
  In g' (groupsPush k p m) ->
  (In g' m /\ group_id g' <> k)
  \/ (group_id g' = k
      /\ ((exists g, In g m /\ group_id g = k
                     /\ members g' = members g ++ [p])
          \/ (~ In k (map group_id m) /\ members g' = [p]))).
Proof.
  induction m as [|g m IH]; simpl; intros Hnd Hin.
  - destruct Hin as [<-|[]]. right. simpl. split; [reflexivity|].
    right. split; [tauto|reflexivity].
  - inversion Hnd as [|? ? Hnotin Hnd']; subst.
    destruct (String.eqb (group_id g) k) eqn:E.
    + apply String.eqb_eq in E. destruct Hin as [<-|Hin].
      * right. simpl. split; [exact E|]. left. exists g. auto.
      * left. split; [right; exact Hin|].
        intros Hk. apply Hnotin. rewrite E, <- Hk.
        apply in_map. exact Hin.
    + apply String.eqb_neq in E. destruct Hin as [<-|Hin].
      * left. auto.
      * destruct (IH Hnd' Hin) as [[H1 H2]|[H1 [(g0 & Hg0 & Hk & Hm)|[Hn Hm]]]].
        -- left. auto.
        -- right. split; [exact H1|]. left. exists g0. auto.
        -- right. split; [exact H1|]. right. split; [|exact Hm].
           intros [H|H]; [contradiction|exact (Hn H)].
Qed.

Lemma playersWithKey_app (gid : string) (l1 l2 : list PlayerWithCH) :
  playersWithKey gid (l1 ++ l2)
  = playersWithKey gid l1 ++ playersWithKey gid l2.
Proof. apply filter_app. Qed.

Lemma playersWithKey_none (gid : string) (l : list PlayerWithCH) :
  (forall p, In p l -> groupKey p <> gid) -> playersWithKey gid l = [].
Proof.
  induction l as [|p l IH]; intros H; simpl; [reflexivity|].
  destruct (String.eqb (groupKey p) gid) eqn:E.
  - apply String.eqb_eq in E. exfalso. apply (H p); [left; reflexivity|exact E].
  - apply IH. intros q Hq. apply H. right. exact Hq.
Qed.

Lemma groupsPush_inv (pre : list PlayerWithCH) (m : list Group)
    (p : PlayerWithCH) :
  GroupsOf pre m -> GroupsOf (pre ++ [p]) (groupsPush (groupKey p) p m).
Proof.
  intros (Hnd & Hmem & Hkeys).
  destruct (groupsPush_ids (groupKey p) p m) as [Hids1 Hids2].
  split; [|split].
  - destruct (in_dec string_dec (groupKey p) (map group_id m)) as [Hin|Hout].
    + rewrite Hids1 by exact Hin. exact Hnd.
    + rewrite Hids2 by exact Hout.
      apply NoDup_rev in Hnd. rewrite <- (rev_involutive (_ ++ _)).
      apply NoDup_rev. rewrite rev_app_distr. simpl. constructor.
      * rewrite <- in_rev. exact Hout.
      * exact Hnd.
  - intros g' Hg'. rewrite playersWithKey_app.
    destruct (groupsPush_members _ _ _ _ Hnd Hg')
      as [[Hin Hne]|[Hk [(g0 & Hg0 & Hk0 & Hm)|[Hn Hm]]]].
    + rewrite (Hmem g' Hin). simpl.
      assert (E : String.eqb (groupKey p) (group_id g') = false)
        by (apply String.eqb_neq; congruence).
      rewrite E, app_nil_r. reflexivity.
    + rewrite Hm, (Hmem g0 Hg0), Hk0, Hk. simpl.
      rewrite String.eqb_refl. reflexivity.
    + rewrite Hm, Hk. simpl. rewrite String.eqb_refl.
      rewrite playersWithKey_none; [reflexivity|].
      intros q Hq Hkq. apply Hn. rewrite <- Hkq. apply Hkeys. exact Hq.
  - intros q Hq. apply in_app_or in Hq.
    destruct (in_dec string_dec (groupKey p) (map group_id m)) as [Hin|Hout].
    + rewrite Hids1 by exact Hin.
      destruct Hq as [Hq|[<-|[]]]; [apply Hkeys; exact Hq|exact Hin].
    + rewrite Hids2 by exact Hout. apply in_or_app.
      destruct Hq as [Hq|[<-|[]]]; [left; apply Hkeys; exact Hq|].
      right. left. reflexivity.
Qed.

Lemma groupsMap_inv_from (l pre : list PlayerWithCH) (m : list Group) :
  GroupsOf pre m ->
  GroupsOf (pre ++ l)
           (fold_left (fun m p => groupsPush (groupKey p) p m) l m).
Proof.
  revert pre m. induction l as [|p l IH]; intros pre m H; simpl.
  - rewrite app_nil_r. exact H.
  - replace (pre ++ p :: l) with ((pre ++ [p]) ++ l)
      by (rewrite <- app_assoc; reflexivity).
    apply IH, groupsPush_inv, H.
Qed.

Lemma groupsMap_inv (enriched : list PlayerWithCH) :
  GroupsOf enriched (groupsMap enriched).
Proof.
  apply (groupsMap_inv_from enriched [] []).
  split; [constructor|]. split; intros ? [].
Qed.

Lemma emitGroup_big (g : Group) :
  (4 < length (members g))%nat ->
  emitGroup g = mapi (chunkGroup (group_id g)) (chunked (members g)).
Proof.
  intros H. unfold emitGroup.
  assert (E : (4 <? len (members g)) = true)
    by (apply Z.ltb_lt; unfold len; lia).
  rewrite E. reflexivity.
Qed.

Lemma emitGroup_members (g : Group) :
  concat (map members (emitGroup g)) = members g.
Proof.
  unfold emitGroup. destruct (4 <? len (members g)).
  - unfold mapi. rewrite map_mapiFrom. simpl.
    rewrite mapiFrom_const, map_id. apply chunked_concat.
  - simpl. apply app_nil_r.
Qed.

(** C7.  A map entry [g] with more than four members holds the players
    of its key in roster order, and group formation emits for it
    [ceil(n/4)] groups that all enter the group list: the [k]-th one
    holds the members [4k .. 4k+3] (between one and four of them), has
    the identifier [g.id#(k+1)], its own size, and the average course
    handicap of its members as strength; the chunks concatenate to the
    original members, and five members give sizes 4 and 1. *)
Theorem oversized_group_is_chunked (enriched : list PlayerWithCH) (g : Group)
    (Hg : In g (groupsMap enriched))
    (Hbig : (4 < length (members g))%nat) :
  let ms := members g in
  let cs := emitGroup g in
  ms = playersWithKey (group_id g) enriched
  /\ incl cs (formGroups enriched)
  /\ length cs = ceilDiv4 (length ms)
  /\ concat (map members cs) = ms
  /\ (forall k c, nth_error cs k = Some c ->
        members c = slice (4 * k) (4 * k + 4) ms
        /\ (1 <= length (members c) <= 4)%nat
        /\ size c = len (members c)
        /\ group_id c
           = (group_id g ++ "#" ++ Js.showZ (Z.of_nat k + 1))%string
        /\ (strength c
            == inject_Z (sumZ (map courseHandicap (members c)))
               / inject_Z (len (members c)))%Q)
  /\ (length ms = 5%nat -> map size cs = [4; 1]).
Proof.
  intros ms cs.
  destruct (groupsMap_inv enriched) as (_ & Hmem & _).
  split; [exact (Hmem g Hg)|].
  split.
  { intros c Hc. unfold formGroups. apply in_flat_map. exists g. auto. }
  assert (Ecs : cs = mapi (chunkGroup (group_id g)) (chunked ms))
    by (apply emitGroup_big; exact Hbig).
  split; [rewrite Ecs, mapi_length; apply chunked_length|].
  split; [apply emitGroup_members|].
  split.
  { intros k c Hk. rewrite Ecs, mapi_nth_error, chunked_nth_error in Hk.
    destruct (4 * k <? length ms)%nat eqn:E; [|discriminate].
    apply Nat.ltb_lt in E. simpl in Hk. inversion Hk; subst c. simpl.
    split; [reflexivity|].
    split; [apply slice_length; exact E|].
    split; [reflexivity|].
    split; [reflexivity|].
    rewrite sumCH_eq. reflexivity. }
  intros H5. rewrite Ecs. unfold chunked. rewrite H5.
  destruct ms as [|a [|b [|c [|d [|e [|f ms']]]]]]; try discriminate.
  reflexivity.
Qed.

Lemma oversized_group_is_chunked_witness :
  let enriched := map (computePlayerCH sampleCourse) roster5group in
  let g := {| group_id := "a"; members := enriched;
              size := 0; strength := 0 |} in
  map size (emitGroup g) = [4; 1]
  /\ map group_id (emitGroup g) = ["a#1"%string; "a#2"%string].
Proof.
  intros enriched g. split; [|reflexivity].
  apply (oversized_group_is_chunked enriched g).
  - left. reflexivity.
  - simpl. lia.
  - reflexivity.
Defined.

(* ================================================================= *)
(** * Sorting *)

Section Sorting.

Context {A : Type} (cmp : A -> A -> Z).

Lemma insertBy_perm (x : A) (l : list A) :
  Permutation (insertBy cmp x l) (x :: l).
Proof.
  induction l as [|y l IH]; simpl.
  - apply Permutation_refl.
  - destruct (0 <? cmp x y).
    + rewrite IH. apply perm_swap.
    + apply Permutation_refl.
Qed.

Lemma sortBy_perm (l : list A) : Permutation (sortBy cmp l) l.
Proof.
  induction l as [|x l IH]; simpl.
  - apply Permutation_refl.
  - rewrite insertBy_perm. apply perm_skip, IH.
Qed.

Lemma sortBy_length (l : list A) : length (sortBy cmp l) = length l.
Proof. apply Permutation_length, sortBy_perm. Qed.

Hypothesis cmp_total : forall x y, 0 < cmp x y -> cmp y x <= 0.
Hypothesis cmp_trans :
  forall x y z, cmp x y <= 0 -> cmp y z <= 0 -> cmp x z <= 0.

Lemma insertBy_sorted (x : A) (l : list A) :
  StronglySorted (fun a b => cmp a b <= 0) l ->
  StronglySorted (fun a b => cmp a b <= 0) (insertBy cmp x l).
Proof.
  induction 1 as [|y l Hs IH Hy]; simpl.
  - constructor; constructor.
  - destruct (0 <? cmp x y) eqn:E.
    + apply Z.ltb_lt in E. constructor; [exact IH|].
      apply (Permutation_Forall (Permutation_sym (insertBy_perm x l))).
      constructor; [apply cmp_total; exact E|exact Hy].
    + apply Z.ltb_ge in E. constructor.
      * constructor; assumption.
      * constructor; [exact E|].
        apply (Forall_impl _ (fun z Hz => cmp_trans x y z E Hz) Hy).
Qed.

Lemma sortBy_sorted (l : list A) :
  StronglySorted (fun a b => cmp a b <= 0) (sortBy cmp l).
Proof.
  induction l as [|x l IH]; simpl.
  - constructor.
  - apply insertBy_sorted, IH.
Qed.

End Sorting.

Lemma Forall_mapiFrom {A B : Type} (P : A -> Prop) (Q : B -> Prop)
    (f : nat -> A -> B) (i : nat) (l : list A) :
  (forall k x, P x -> Q (f k x)) -> Forall P l -> Forall Q (mapiFrom f i l).
Proof.
  intros Hf H. revert i. induction H as [|x l Hx _ IH]; intros i; simpl;
    constructor; auto.
Qed.

Lemma StronglySorted_mapiFrom {A B : Type} (R : A -> A -> Prop)
    (R' : B -> B -> Prop) (f : nat -> A -> B) (i : nat) (l : list A) :
  (forall j k a b, R a b -> R' (f j a) (f k b)) ->
  StronglySorted R l -> StronglySorted R' (mapiFrom f i l).
Proof.
  intros Hf H. revert i. induction H as [|x l _ IH Hx]; intros i; simpl.
  - constructor.
  - constructor; [apply IH|].
    apply (Forall_mapiFrom (R x)); [|exact Hx].
    intros k y Hy. apply Hf. exact Hy.
Qed.

Lemma cmpTeams_teamLe (a b : Team) : cmpTeams a b <= 0 <-> teamLe a b.
Proof.
  unfold cmpTeams, teamLe.
  destruct (len (players a) - len (players b) =? 0) eqn:E; simpl.
  - apply Z.eqb_eq in E. lia.
  - apply Z.eqb_neq in E. lia.
Qed.

Lemma cmpTeams_total (a b : Team) : 0 < cmpTeams a b -> cmpTeams b a <= 0.
Proof.
  unfold cmpTeams.
  destruct (len (players a) - len (players b) =? 0) eqn:E1;
  destruct (len (players b) - len (players a) =? 0) eqn:E2; simpl;
  rewrite ?Z.eqb_eq, ?Z.eqb_neq in *; lia.
Qed.

Lemma cmpTeams_trans (a b c : Team) :
  cmpTeams a b <= 0 -> cmpTeams b c <= 0 -> cmpTeams a c <= 0.
Proof. rewrite !cmpTeams_teamLe. unfold teamLe. lia. Qed.

Lemma sortTeams_length (ts : list Team) : length (sortTeams ts) = length ts.
Proof. unfold sortTeams. rewrite mapi_length. apply sortBy_length. Qed.

Lemma sortTeams_sorted (ts : list Team) : StronglySorted teamLe (sortTeams ts).
Proof.
  unfold sortTeams, mapi.
  apply (StronglySorted_mapiFrom (fun a b => cmpTeams a b <= 0)).
  - intros j k a b H. apply cmpTeams_teamLe in H. exact H.
  - apply sortBy_sorted; [apply cmpTeams_total|apply cmpTeams_trans].
Qed.

Lemma sortTeams_ids (ts : list Team) :
  map team_id (sortTeams ts) = oneTo (length (sortTeams ts)).
Proof.
  rewrite sortTeams_length. unfold sortTeams, mapi.
  rewrite map_mapiFrom. simpl.
  rewrite mapiFrom_index, sortBy_length. reflexivity.
Qed.

Lemma sortTeams_players (ts : list Team) :
  Permutation (map players (sortTeams ts)) (map players ts).
Proof.
  unfold sortTeams, mapi. rewrite map_mapiFrom. simpl.
  rewrite mapiFrom_const. apply Permutation_map, sortBy_perm.
Qed.

Lemma sortTeams_In (ts : list Team) (t : Team) :
  In t (sortTeams ts) ->
  exists t', In t' ts /\ players t = players t'
             /\ teamHandicap t = teamHandicap t'.
Proof.
  unfold sortTeams, mapi. intros H.
  apply In_nth_error in H. destruct H as [k Hk].
  rewrite mapiFrom_nth_error in Hk.
  destruct (nth_error (sortBy cmpTeams ts) k) as [t'|] eqn:E;
    [|discriminate].
  simpl in Hk. inversion Hk; subst t. simpl.
  exists t'. split; [|auto].
  apply (Permutation_in _ (sortBy_perm cmpTeams ts)).
  apply nth_error_In with k. exact E.
Qed.

(* ================================================================= *)
(** * The shape of a result *)

Lemma generateGame_Ok (h : Host) (c : Course) (ps : list Player)
    (settings : GameSettings) (r : GameResult) :
  generateGame h c ps settings = Ok r ->
  let enriched := map (computePlayerCH c) ps in
  let teamSizes := determineTeamSizes (len enriched) in
  let ordered := orderGroups h settings (formGroups enriched) in
  exists ts remaining,
    assignGroups h settings (fst ordered) (snd ordered)
      (teamsInit teamSizes, teamSizes) = Ok (ts, remaining)
    /\ teams r = sortTeams (map withTeamHandicap ts)
    /\ totalPlayers r = len enriched
    /\ prizePool r
       = Z.max 0 (Js.round (entryFeePerPlayer settings
                            * inject_Z (len enriched)))
    /\ payouts r = payoutsFor settings (prizePool r) (len (teams r)).
Proof.
  intros H. cbv zeta. unfold generateGame in H.
  destruct (orderGroups h settings (formGroups (map (computePlayerCH c) ps)))
    as [sortedGroups ambient].
  cbn [fst snd].
  destruct (assignGroups h settings sortedGroups ambient _)
    as [[ts remaining]|msg]; [|discriminate].
  inversion H; subst r; clear H.
  cbn [teams totalPlayers prizePool payouts].
  exists ts, remaining. repeat split; reflexivity.
Qed.

(** C8.  In every result the teams are ordered by member count, then by
    team handicap; their identifiers are 1, 2, ..., k in that order; and
    each team handicap is the sum of the course handicaps of the team's
    members. *)
Theorem teams_sorted_and_numbered (h : Host) (c : Course) (ps : list Player)
    (settings : GameSettings) (r : GameResult)
    (H : generateGame h c ps settings = Ok r) :
  StronglySorted teamLe (teams r)
  /\ map team_id (teams r) = oneTo (length (teams r))
  /\ Forall (fun t => teamHandicap t = sumZ (map courseHandicap (players t)))
            (teams r).
Proof.
  destruct (generateGame_Ok _ _ _ _ _ H) as (ts & rem & _ & Ht & _).
  rewrite Ht. split; [apply sortTeams_sorted|].
  split; [apply sortTeams_ids|].
  apply Forall_forall. intros t Hin.
  destruct (sortTeams_In _ _ Hin) as (t' & Hin' & Ep & Eh).
  apply in_map_iff in Hin'. destruct Hin' as (t0 & <- & _).
  rewrite Eh, Ep. simpl. apply sumCH_eq.
Qed.

Lemma teams_sorted_and_numbered_witness :
  exists r,
    generateGame sampleHost sampleCourse roster8
      (sampleSettings 20 None None None) = Ok r
    /\ StronglySorted teamLe (teams r)
    /\ map team_id (teams r) = [1; 2]
    /\ map teamHandicap (teams r) = [32; 36].
Proof.
  destruct (generateGame sampleHost sampleCourse roster8
              (sampleSettings 20 None None None)) as [r|msg] eqn:E;
    [|vm_compute in E; discriminate].
  exists r. split; [reflexivity|].
  destruct (teams_sorted_and_numbered _ _ _ _ r E) as (Hs & _ & _).
  split; [exact Hs|].
  vm_compute in E. inversion E. split; reflexivity.
Defined.

(* ================================================================= *)
(** * Payout allocator: the number of entries *)

Lemma taperLoop_length (count : nat) (i : Z) (n remaining share : Q) :
  length (taperLoop count i n remaining share) = count.
Proof.
  revert i remaining share.
  induction count as [|count IH]; intros i remaining share; simpl;
    [|rewrite IH]; reflexivity.
Qed.

Lemma basePayoutRatios_length (places : Q) (numTeams : Z) :
  length (basePayoutRatios places numTeams)
  = Z.to_nat (Qceiling (qmax 1 (qmin places (inject_Z numTeams)))).
Proof.
  unfold basePayoutRatios.
  generalize (qmax 1 (qmin places (inject_Z numTeams))) as n. intros n.
  repeat match goal with
  | |- context [if Qeq_bool n ?k then _ else _] =>
      let E := fresh "E" in
      destruct (Qeq_bool n k) eqn:E;
        [apply Qeq_bool_iff in E; rewrite E; reflexivity|]
  end.
  rewrite length_map. apply taperLoop_length.
Qed.

Lemma adjustPass_length (step dir : Z) (rounded : list Z) (diff : Z) :
  length (fst (fst (adjustPass step dir rounded diff))) = length rounded.
Proof.
  revert diff. induction rounded as [|r rest IH]; intros diff; simpl.
  - reflexivity.
  - destruct (step <=? diff); [|reflexivity].
    destruct ((0 <? dir) || ((dir <? 0) && (0 <=? r + dir * step))).
    + specialize (IH (diff - step)).
      destruct (adjustPass step dir rest (diff - step)) as [[rest' d'] a'].
      simpl in *. rewrite IH. reflexivity.
    + specialize (IH diff).
      destruct (adjustPass step dir rest diff) as [[rest' d'] a'].
      simpl in *. rewrite IH. reflexivity.
Qed.

Lemma adjustLoop_length (fuel : nat) (step dir : Z) (rounded : list Z)
    (diff : Z) :
  length (fst (adjustLoop fuel step dir rounded diff)) = length rounded.
Proof.
  revert rounded diff. induction fuel as [|fuel IH]; intros rounded diff;
    simpl; [reflexivity|].
  destruct (step <=? diff); [|reflexivity].
  pose proof (adjustPass_length step dir rounded diff) as Hp.
  destruct (adjustPass step dir rounded diff) as [[rounded' diff'] adjusted].
  simpl in Hp. destruct adjusted; [rewrite IH|]; exact Hp.
Qed.

Lemma clampFrom_length (prev : Z) (l : list Z) :
  length (clampFrom prev l) = length l.
Proof.
  revert prev. induction l as [|x l IH]; intros prev; simpl;
    [|rewrite IH]; reflexivity.
Qed.

Lemma enforceNonIncreasing_length (l : list Z) :
  length (enforceNonIncreasing l) = length l.
Proof.
  destruct l as [|x l]; simpl; [|rewrite clampFrom_length]; reflexivity.
Qed.

Lemma tryRound_length (values : list Q) (total step : Z) :
  length (fst (tryRound values total step)) = length values.
Proof.
  unfold tryRound. simpl.
  rewrite enforceNonIncreasing_length, adjustLoop_length, length_map.
  reflexivity.
Qed.

Lemma roundPayouts_length (values : list Q) (total : Z) :
  length (roundPayoutsPrefer10Then5 values total) = length values.
Proof.
  unfold roundPayoutsPrefer10Then5.
  destruct (snd (tryRound values total 10) =? total);
    [apply tryRound_length|].
  destruct (negb (snd (tryRound values total 5) =? total));
    [|apply tryRound_length].
  rewrite enforceNonIncreasing_length, updAt_length. apply tryRound_length.
Qed.

Lemma payoutsFor_length (settings : GameSettings) (pool numTeams : Z) :
  length (payoutsFor settings pool numTeams)
  = Z.to_nat
      (Qceiling
         (qmax 1 (qmin (qmax 1 (requestedPlaces settings))
                       (inject_Z numTeams)))).
Proof.
  unfold payoutsFor.
  rewrite mapi_length, roundPayouts_length, length_map.
  apply basePayoutRatios_length.
Qed.

Lemma payoutsFor_places (settings : GameSettings) (pool numTeams : Z) :
  map place (payoutsFor settings pool numTeams)
  = oneTo (length (payoutsFor settings pool numTeams)).
Proof.
  unfold payoutsFor at 1. unfold mapi at 1.
  rewrite map_mapiFrom. simpl. rewrite mapiFrom_index.
  unfold oneTo, payoutsFor. rewrite mapi_length. reflexivity.
Qed.

(* ================================================================= *)
(** * The number of teams *)

Lemma determineTeamSizes_nonempty (n : Z) :
  (1 <= length (determineTeamSizes n))%nat.
Proof.
  unfold determineTeamSizes.
  destruct (n <=? 4) eqn:E4; [simpl; lia|].
  apply Z.leb_gt in E4.
  assert (Hq : (1 <= Z.to_nat (n / 4))%nat)
    by (assert (1 <= n / 4) by (apply Z.div_le_lower_bound; lia); lia).
  repeat match goal with
  | |- context [if ?b then _ else _] => destruct b
  end;
  unfold fours; rewrite ?length_app, ?repeat_length; simpl; lia.
Qed.

Lemma placeAt_length (idx : nat) (g : Group) (st : Placement) :
  length (fst (placeAt idx g st)) = length (fst st).
Proof. unfold placeAt. simpl. apply updAt_length. Qed.

Lemma assignRandomized_length (h : Host) (groups : list Group)
    (st st' : Placement) (rand : Rand) :
  assignRandomized h groups st rand = Ok st' ->
  length (fst st') = length (fst st).
Proof.
  revert st rand. induction groups as [|g groups IH]; intros st rand; simpl.
  - intros H. inversion H. reflexivity.
  - destruct (pickRandomized h st g rand) as [[idx|] rand'];
      [|discriminate].
    intros H. rewrite (IH _ _ H). apply placeAt_length.
Qed.

Lemma assignBalanced_length (groups : list Group) (st st' : Placement) :
  assignBalanced groups st = Ok st' ->
  length (fst st') = length (fst st).
Proof.
  revert st. induction groups as [|g groups IH]; intros st; simpl.
  - intros H. inversion H. reflexivity.
  - destruct (pickBalanced st g) as [idx|]; [|discriminate].
    intros H. rewrite (IH _ H). apply placeAt_length.
Qed.

Lemma assignGroups_length (h : Host) (settings : GameSettings)
    (groups : list Group) (ambient : Rand) (st st' : Placement) :
  assignGroups h settings groups ambient st = Ok st' ->
  length (fst st') = length (fst st).
Proof.
  unfold assignGroups. destruct (randomize settings).
  - apply assignRandomized_length.
  - apply assignBalanced_length.
Qed.

Lemma teamsInit_length (teamSizes : list Z) :
  length (teamsInit teamSizes) = length teamSizes.
Proof. apply mapi_length. Qed.

Lemma generateGame_team_count (h : Host) (c : Course) (ps : list Player)
    (settings : GameSettings) (r : GameResult) :
  generateGame h c ps settings = Ok r ->
  length (teams r)
  = length (determineTeamSizes (len (map (computePlayerCH c) ps))).
Proof.
  intros H.
  destruct (generateGame_Ok _ _ _ _ _ H) as (ts & rem & Ha & Ht & _).
  apply assignGroups_length in Ha. simpl in Ha.
  rewrite Ht, sortTeams_length, length_map, Ha. apply teamsInit_length.
Qed.

Lemma Qceiling_lower (x : Q) (z : Z) :
  (inject_Z z <= x)%Q -> z <= Qceiling x.
Proof.
  intros H. rewrite Zle_Qle. apply (Qle_trans _ x); [exact H|].
  apply Qle_ceiling.
Qed.

(** Capping a whole number of places is capping in [Z]. *)
Lemma clamp_whole (x : Q) (p numTeams : Z) :
  (x == inject_Z p)%Q -> 1 <= numTeams ->
  (clamp x 1 (inject_Z numTeams)
   == inject_Z (Z.min (Z.max p 1) numTeams))%Q.
Proof.
  intros Hx Hn. unfold clamp.
  assert (Hmax : (qmax 1 x == inject_Z (Z.max p 1))%Q).
  { destruct (qmax_cases 1 x) as [[H ->]|[H ->]].
    - rewrite Hx in H |- *. change 1%Q with (inject_Z 1) in H.
      rewrite <- Zle_Qle in H. replace (Z.max p 1) with p by lia.
      reflexivity.
    - rewrite Hx in H. change 1%Q with (inject_Z 1) in H.
      rewrite <- Zlt_Qlt in H. replace (Z.max p 1) with 1 by lia.
      reflexivity. }
  destruct (qmin_cases (qmax 1 x) (inject_Z numTeams)) as [[H ->]|[H ->]].
  - rewrite Hmax in H |- *. rewrite <- Zle_Qle in H.
    replace (Z.min (Z.max p 1) numTeams) with (Z.max p 1) by lia.
    reflexivity.
  - rewrite Hmax in H. rewrite <- Zlt_Qlt in H.
    replace (Z.min (Z.max p 1) numTeams) with numTeams by lia.
    reflexivity.
Qed.

(** C9, as the code has it.  [paidPlaces] is a number that need not be
    whole.  In every result the number of payouts is
    [ceil(clamp(paidPlaces, 1, numberOfTeams))], with 3 for an unset
    [paidPlaces]; for a whole number of places this is
    [clamp(paidPlaces, 1, numberOfTeams)] itself; and the places are
    1, 2, ..., n. *)
Theorem payouts_count (h : Host) (c : Course) (ps : list Player)
    (settings : GameSettings) (r : GameResult)
    (H : generateGame h c ps settings = Ok r) :
  len (payouts r)
  = Qceiling (clamp (requestedPlaces settings) 1 (inject_Z (len (teams r))))
  /\ (forall p : Z,
        (requestedPlaces settings == inject_Z p)%Q ->
        len (payouts r) = Z.min (Z.max p 1) (len (teams r)))
  /\ map place (payouts r) = oneTo (length (payouts r)).
Proof.
  pose proof (generateGame_team_count _ _ _ _ _ H) as Hn.
  pose proof (determineTeamSizes_nonempty
                (len (map (computePlayerCH c) ps))) as H1.
  assert (HT : 1 <= len (teams r)) by (unfold len; lia).
  destruct (generateGame_Ok _ _ _ _ _ H) as (_ & _ & _ & _ & _ & _ & Hp).
  assert (Hlen : len (payouts r)
                 = Qceiling (clamp (requestedPlaces settings) 1
                               (inject_Z (len (teams r))))).
  { rewrite Hp. unfold len at 1. rewrite payoutsFor_length.
    unfold clamp.
    set (m := qmin (qmax 1 (requestedPlaces settings))
                   (inject_Z (len (teams r)))).
    assert (Hm : (1 <= m)%Q).
    { unfold m.
      assert (Ht : (1 <= inject_Z (len (teams r)))%Q)
        by (change 1%Q with (inject_Z 1); rewrite <- Zle_Qle; exact HT).
      destruct (qmax_cases 1 (requestedPlaces settings))
        as [[Hq ->]|[Hq ->]];
        match goal with
        | |- (1 <= qmin ?a ?b)%Q =>
            destruct (qmin_cases a b) as [[Hc ->]|[Hc ->]]
        end; lra. }
    destruct (qmax_cases 1 m) as [[_ ->]|[Hlt _]]; [|lra].
    assert (1 <= Qceiling m)
      by (apply Qceiling_lower; exact Hm).
    lia. }
  split; [exact Hlen|]. split; [|rewrite Hp; apply payoutsFor_places].
  intros p Hreq. rewrite Hlen.
  rewrite (clamp_whole _ p _ Hreq HT). apply Qceiling_Z.
Qed.

Lemma payouts_count_witness :
  exists r,
    generateGame sampleHost sampleCourse roster8
      (sampleSettings 20 None None None) = Ok r
    /\ len (payouts r) = 2
    /\ map place (payouts r) = [1; 2].
Proof.
  destruct (generateGame sampleHost sampleCourse roster8
              (sampleSettings 20 None None None)) as [r|msg] eqn:E;
    [|vm_compute in E; discriminate].
  exists r. split; [reflexivity|].
  destruct (payouts_count _ _ _ _ r E) as (Hlen & _ & Hpl).
  rewrite Hpl, Hlen.
  vm_compute in E. inversion E. split; reflexivity.
Defined.

(** C9, as stated, fails: with two and a half paid places and seven
    teams the effective number of places is 2.5; the [switch] goes to the
    [default] case, whose loop runs for [i = 0, 1, 2], and three places
    are paid. *)
Lemma two_and_a_half_places_pay_three :
  exists r,
    generateGame sampleHost sampleCourse (rosterOf 25)
      (withPaidPlaces (sampleSettings 1 None None None) 2.5) = Ok r
    /\ len (teams r) = 7
    /\ (clamp 2.5 1 (inject_Z (len (teams r))) == 2.5)%Q
    /\ len (payouts r) = 3
    /\ ~ (inject_Z (len (payouts r))
          == clamp 2.5 1 (inject_Z (len (teams r))))%Q.
Proof.
  eexists. split; [vm_compute; reflexivity|].
  split; [reflexivity|]. split; [reflexivity|]. split; [reflexivity|].
  vm_compute. discriminate.
Qed.

(* ================================================================= *)
(** * Shuffling and ordering keep the groups *)

Lemma updAt_swap_perm {A : Type} (j : nat) (x b : A) (xs : list A) :
  nth_error xs j = Some b ->
  Permutation (b :: updAt j (fun _ => x) xs) (x :: xs).
Proof.
  intros H.
  destruct (updAt_split j (fun _ => x) xs b H) as (l1 & l2 & E1 & E2 & _).
  rewrite E2, E1.
  rewrite <- !Permutation_middle. apply perm_swap.
Qed.

Lemma swap_cons {A : Type} (x : A) (xs : list A) (i j : nat) :
  swap (x :: xs) (S i) (S j) = x :: swap xs i j.
Proof.
  unfold swap. simpl.
  destruct (nth_error xs i), (nth_error xs j); reflexivity.
Qed.

Lemma swap_perm {A : Type} (arr : list A) (i j : nat) :
  Permutation (swap arr i j) arr.
Proof.
  revert i j. induction arr as [|x xs IH]; intros i j.
  - unfold swap. destruct i, j; apply Permutation_refl.
  - destruct i as [|i], j as [|j].
    + apply Permutation_refl.
    + unfold swap. simpl.
      destruct (nth_error xs j) as [b|] eqn:E; [|apply Permutation_refl].
      apply updAt_swap_perm. exact E.
    + unfold swap. simpl.
      destruct (nth_error xs i) as [a|] eqn:E; [|apply Permutation_refl].
      apply updAt_swap_perm. exact E.
    + rewrite swap_cons. apply perm_skip, IH.
Qed.

Lemma shuffleFrom_perm {A : Type} (h : Host) (i : nat) (arr : list A)
    (rand : Rand) :
  Permutation (fst (shuffleFrom h i arr rand)) arr.
Proof.
  revert arr rand. induction i as [|i IH]; intros arr rand; simpl.
  - apply Permutation_refl.
  - destruct (draw h rand) as [u rand']. rewrite IH. apply swap_perm.
Qed.

Lemma shuffleInPlace_perm {A : Type} (h : Host) (arr : list A) (rand : Rand) :
  Permutation (fst (shuffleInPlace h arr rand)) arr.
Proof. apply shuffleFrom_perm. Qed.

Lemma orderGroups_perm (h : Host) (settings : GameSettings)
    (groups : list Group) :
  Permutation (fst (orderGroups h settings groups)) groups.
Proof.
  unfold orderGroups. destruct (randomize settings).
  - pose proof (shuffleInPlace_perm h groups (randOf settings (Ambient 0)))
      as Hp.
    destruct (shuffleInPlace h groups (randOf settings (Ambient 0)))
      as [shuffled rand'].
    simpl in *. rewrite sortBy_perm. exact Hp.
  - simpl. apply sortBy_perm.
Qed.

(** A draw lies in [0, 1), so the index [floor(u * (i + 1))] that the
    shuffle swaps with is at most [i]. *)
Lemma draw_range (h : Host) (rand : Rand) :
  (0 <= fst (draw h rand) /\ fst (draw h rand) < 1)%Q.
Proof.
  destruct rand as [t|k]; simpl.
  - unfold rng_output, Js.ushr, Js.toUint32. rewrite Z.shiftr_0_r.
    set (x := Js.xor _ _).
    pose proof (Z.mod_pos_bound x 4294967296 ltac:(lia)) as [Hlo Hhi].
    split.
    + apply Qle_shift_div_l; [reflexivity|].
      rewrite Qmult_0_l. change 0%Q with (inject_Z 0).
      rewrite <- Zle_Qle. exact Hlo.
    + apply Qlt_shift_div_r; [reflexivity|].
      rewrite Qmult_1_l. change 4294967296%Q with (inject_Z 4294967296).
      rewrite <- Zlt_Qlt. exact Hhi.
  - pose proof (uq_range (mathRandom h k)) as H.
    apply andb_prop in H. destruct H as [H1 H2].
    apply Qle_bool_iff in H1. apply negb_true_iff in H2.
    split; [exact H1|].
    apply Qnot_le_lt. intros Hle. apply Qle_bool_iff in Hle. congruence.
Qed.

Lemma shuffle_index_range (u : Q) (i : nat) :
  (0 <= u /\ u < 1)%Q ->
  (Z.to_nat (Js.floor (u * inject_Z (Z.of_nat i + 1))) <= i)%nat.
Proof.
  intros [Hlo Hhi]. unfold Js.floor.
  assert (Hlt : (u * inject_Z (Z.of_nat i + 1) < inject_Z (Z.of_nat i + 1))%Q).
  { rewrite <- (Qmult_1_l (inject_Z (Z.of_nat i + 1))) at 2.
    apply Qmult_lt_compat_r; [|exact Hhi].
    change 0%Q with (inject_Z 0). rewrite <- Zlt_Qlt. lia. }
  pose proof (Qfloor_le (u * inject_Z (Z.of_nat i + 1))) as Hf.
  assert (Hz : (inject_Z (Qfloor (u * inject_Z (Z.of_nat i + 1)))
                < inject_Z (Z.of_nat i + 1))%Q)
    by (eapply Qle_lt_trans; eassumption).
  rewrite <- Zlt_Qlt in Hz. lia.
Qed.

(* ================================================================= *)
(** * Group formation keeps the players *)

Lemma groupsPush_perm (k : string) (p : PlayerWithCH) (m : list Group) :
  Permutation (flat_map members (groupsPush k p m))
              (p :: flat_map members m).
Proof.
  induction m as [|g m IH]; simpl.
  - apply Permutation_refl.
  - destruct (String.eqb (group_id g) k); simpl.
    + rewrite <- app_assoc. simpl.
      symmetry. apply Permutation_middle.
    + rewrite IH. symmetry. apply Permutation_middle.
Qed.

Lemma groupsMap_perm_from (l : list PlayerWithCH) (m : list Group) :
  Permutation
    (flat_map members
       (fold_left (fun m p => groupsPush (groupKey p) p m) l m))
    (flat_map members m ++ l).
Proof.
  revert m. induction l as [|p l IH]; intros m; simpl.
  - rewrite app_nil_r. apply Permutation_refl.
  - rewrite IH, groupsPush_perm. apply Permutation_middle.
Qed.

Lemma formGroups_players (enriched : list PlayerWithCH) :
  Permutation (flat_map members (formGroups enriched)) enriched.
Proof.
  unfold formGroups.
  assert (E : forall m, flat_map members (flat_map emitGroup m)
                        = flat_map members m).
  { induction m as [|g m IH]; simpl; [reflexivity|].
    rewrite flat_map_app, IH. f_equal.
    rewrite flat_map_concat_map. apply emitGroup_members. }
  rewrite E. apply (groupsMap_perm_from enriched []).
Qed.

Lemma formGroups_size (enriched : list PlayerWithCH) (g : Group) :
  In g (formGroups enriched) -> size g = len (members g).
Proof.
  unfold formGroups. intros H. apply in_flat_map in H.
  destruct H as (g0 & _ & H). unfold emitGroup in H.
  destruct (4 <? len (members g0)).
  - apply In_nth_error in H. destruct H as [k Hk].
    rewrite mapi_nth_error in Hk.
    destruct (nth_error (chunked (members g0)) k); [|discriminate].
    simpl in Hk. inversion Hk. reflexivity.
  - destruct H as [<-|[]]. reflexivity.
Qed.

Lemma load_nil : load [] = 0.
Proof. reflexivity. Qed.

Lemma load_cons (g : Group) (gs : list Group) :
  load (g :: gs) = size g + load gs.
Proof. unfold load. simpl. apply sumZ_cons. Qed.

Lemma load_app (gs1 gs2 : list Group) : load (gs1 ++ gs2) = load gs1 + load gs2.
Proof. unfold load. rewrite map_app. apply sumZ_app. Qed.

Lemma load_members (gs : list Group) :
  (forall g, In g gs -> size g = len (members g)) ->
  load gs = len (flat_map members gs).
Proof.
  induction gs as [|g gs IH]; intros H; [reflexivity|].
  rewrite load_cons. simpl. unfold len in *.
  rewrite length_app, Nat2Z.inj_add, <- IH, (H g).
  - reflexivity.
  - left. reflexivity.
  - intros g' Hg'. apply H. right. exact Hg'.
Qed.

Lemma sumZ_perm (l1 l2 : list Z) : Permutation l1 l2 -> sumZ l1 = sumZ l2.
Proof.
  induction 1 as [|x l1 l2 _ IH|x y l|l1 l2 l3 _ IH1 _ IH2];
    rewrite ?sumZ_cons; try lia; congruence.
Qed.

Lemma load_perm (gs1 gs2 : list Group) :
  Permutation gs1 gs2 -> load gs1 = load gs2.
Proof. intros H. apply sumZ_perm, Permutation_map, H. Qed.

Lemma formGroups_load (enriched : list PlayerWithCH) :
  load (formGroups enriched) = len enriched.
Proof.
  rewrite load_members by apply formGroups_size.
  unfold len. f_equal. apply Permutation_length, formGroups_players.
Qed.

(* ================================================================= *)
(** * Group-to-team assignment: the choice of a team *)

Lemma firstFit_sound (order : list nat) (remaining : list Z) (sz : Z)
    (k : nat) :
  firstFit order remaining sz = Some k ->
  exists r, nth_error remaining k = Some r /\ sz <= r.
Proof.
  induction order as [|idx order IH]; simpl; [discriminate|].
  destruct (nth_error remaining idx) as [r|] eqn:E; [|exact IH].
  destruct (sz <=? r) eqn:El; [|exact IH].
  intros H. inversion H; subst. exists r. apply Z.leb_le in El. auto.
Qed.

Lemma firstFit_complete (order : list nat) (remaining : list Z) (sz : Z)
    (k : nat) (r : Z) :
  In k order -> nth_error remaining k = Some r -> sz <= r ->
  firstFit order remaining sz <> None.
Proof.
  intros Hin Hk Hr. induction order as [|idx order IH]; simpl; [destruct Hin|].
  destruct (nth_error remaining idx) as [r'|] eqn:E.
  - destruct (sz <=? r') eqn:El; [discriminate|].
    destruct Hin as [->|Hin]; [|apply IH; exact Hin].
    rewrite Hk in E. inversion E; subst. apply Z.leb_gt in El. lia.
  - destruct Hin as [->|Hin]; [congruence|apply IH; exact Hin].
Qed.

Lemma bestScan_sound (ks : list nat) (remaining : list Z) (sz : Z)
    (bestIdx : option nat) (bestRemain : Z) (k : nat) :
  bestScan ks remaining sz bestIdx bestRemain = Some k ->
  bestIdx = Some k \/ exists r, nth_error remaining k = Some r /\ sz <= r.
Proof.
  revert bestIdx bestRemain.
  induction ks as [|k0 ks IH]; intros bestIdx bestRemain; simpl.
  - auto.
  - destruct (nth_error remaining k0) as [r|] eqn:E; [|apply IH].
    destruct ((sz <=? r) && (bestRemain <? r)) eqn:Eb; [|apply IH].
    intros H. destruct (IH _ _ H) as [H1|H1]; [|auto].
    inversion H1; subst. right. exists r.
    apply andb_prop in Eb. destruct Eb as [Eb _]. apply Z.leb_le in Eb. auto.
Qed.

Lemma pickBalanced_sound (st : Placement) (g : Group) (k : nat) :
  pickBalanced st g = Some k ->
  exists r, nth_error (snd st) k = Some r /\ size g <= r.
Proof.
  unfold pickBalanced.
  destruct (bestScan (teamIndices st) (snd st) (size g) None (-1))
    as [best|] eqn:E.
  - intros H. inversion H; subst.
    destruct (bestScan_sound _ _ _ _ _ _ E) as [H1|H1];
      [discriminate|exact H1].
  - apply firstFit_sound.
Qed.

Lemma pickRandomized_sound (h : Host) (st : Placement) (g : Group)
    (rand : Rand) (k : nat) :
  fst (pickRandomized h st g rand) = Some k ->
  exists r, nth_error (snd st) k = Some r /\ size g <= r.
Proof.
  unfold pickRandomized.
  destruct (shuffleInPlace h (teamIndices st) rand) as [order rand'].
  destruct (firstFit order (snd st) (size g)) as [idx|] eqn:E; simpl.
  - intros H. inversion H; subst. apply (firstFit_sound _ _ _ _ E).
  - apply firstFit_sound.
Qed.

Lemma teamIndices_In (st : Placement) (k : nat) (r : Z) :
  length (fst st) = length (snd st) ->
  nth_error (snd st) k = Some r -> In k (teamIndices st).
Proof.
  intros Hl Hk. unfold teamIndices. apply in_seq.
  assert (nth_error (snd st) k <> None) by congruence.
  apply nth_error_Some in H. lia.
Qed.

Lemma pickBalanced_complete (st : Placement) (g : Group) (k : nat) (r : Z) :
  length (fst st) = length (snd st) ->
  nth_error (snd st) k = Some r -> size g <= r ->
  pickBalanced st g <> None.
Proof.
  intros Hl Hk Hr. unfold pickBalanced.
  destruct (bestScan (teamIndices st) (snd st) (size g) None (-1));
    [discriminate|].
  apply (firstFit_complete _ _ _ k r); auto.
  apply (teamIndices_In st k r); assumption.
Qed.

Lemma pickRandomized_complete (h : Host) (st : Placement) (g : Group)
    (rand : Rand) (k : nat) (r : Z) :
  length (fst st) = length (snd st) ->
  nth_error (snd st) k = Some r -> size g <= r ->
  fst (pickRandomized h st g rand) <> None.
Proof.
  intros Hl Hk Hr. unfold pickRandomized.
  destruct (shuffleInPlace h (teamIndices st) rand) as [order rand'].
  destruct (firstFit order (snd st) (size g)); simpl; [discriminate|].
  apply (firstFit_complete _ _ _ k r); auto.
  apply (teamIndices_In st k r); assumption.
Qed.

Lemma assignBalanced_Assigns (gs : list Group) (st st' : Placement) :
  assignBalanced gs st = Ok st' -> Assigns gs st st'.
Proof.
  revert st. induction gs as [|g gs IH]; intros st; simpl.
  - intros H. inversion H. constructor.
  - destruct (pickBalanced st g) as [idx|] eqn:E; [|discriminate].
    intros H. destruct (pickBalanced_sound _ _ _ E) as (r & Hr & Hle).
    apply (Assigns_cons g gs st st' idx r); auto.
Qed.

Lemma assignRandomized_Assigns (h : Host) (gs : list Group)
    (st st' : Placement) (rand : Rand) :
  assignRandomized h gs st rand = Ok st' -> Assigns gs st st'.
Proof.
  revert st rand. induction gs as [|g gs IH]; intros st rand; simpl.
  - intros H. inversion H. constructor.
  - pose proof (pickRandomized_sound h st g rand) as Hs.
    destruct (pickRandomized h st g rand) as [[idx|] rand'];
      [|discriminate].
    intros H. destruct (Hs idx eq_refl) as (r & Hr & Hle).
    apply (Assigns_cons g gs st st' idx r); eauto.
Qed.

Lemma assignGroups_Assigns (h : Host) (settings : GameSettings)
    (gs : list Group) (ambient : Rand) (st st' : Placement) :
  assignGroups h settings gs ambient st = Ok st' -> Assigns gs st st'.
Proof.
  unfold assignGroups. destruct (randomize settings).
  - apply assignRandomized_Assigns.
  - apply assignBalanced_Assigns.
Qed.

(* ================================================================= *)
(** * Group-to-team assignment: capacities *)

Lemma Forall_updAt {A : Type} (P : A -> Prop) (k : nat) (f : A -> A)
    (l : list A) :
  Forall P l -> (forall x, nth_error l k = Some x -> P (f x)) ->
  Forall P (updAt k f l).
Proof.
  intros H. revert k. induction H as [|y l Hy Hl IH]; intros [|k] Hf; simpl.
  - constructor.
  - constructor.
  - constructor; [apply Hf; reflexivity|exact Hl].
  - constructor; [exact Hy|]. apply IH. intros x Hx. apply Hf. exact Hx.
Qed.

Lemma sumZ_updAt (k : nat) (d r : Z) (l : list Z) :
  nth_error l k = Some r ->
  sumZ (updAt k (fun x => x - d) l) = sumZ l - d.
Proof.
  intros H.
  destruct (updAt_split k (fun x => x - d) l r H) as (l1 & l2 & E1 & E2 & _).
  rewrite E2, E1, !sumZ_app, !sumZ_cons. lia.
Qed.

Lemma placeAt_Capacity (idx : nat) (g : Group) (st : Placement) (r : Z) :
  Capacity st -> nth_error (snd st) idx = Some r -> size g <= r ->
  Capacity (placeAt idx g st)
  /\ sumZ (snd (placeAt idx g st)) = sumZ (snd st) - size g.
Proof.
  intros [Hl Hp] Hr Hle. unfold Capacity, placeAt. simpl.
  rewrite !updAt_length. split; [split; [exact Hl|]|].
  - apply Forall_updAt; [exact Hp|].
    intros x Hx. rewrite Hr in Hx. inversion Hx; subst. lia.
  - apply (sumZ_updAt idx (size g) r). exact Hr.
Qed.

Lemma Assigns_Capacity (gs : list Group) (st st' : Placement) :
  Assigns gs st st' -> Capacity st ->
  Capacity st' /\ sumZ (snd st') = sumZ (snd st) - load gs.
Proof.
  induction 1 as [st|g gs st st' idx r Hr Hle _ IH]; intros Hc.
  - split; [exact Hc|]. rewrite load_nil. lia.
  - destruct (placeAt_Capacity idx g st r Hc Hr Hle) as [Hc' Hs].
    destruct (IH Hc') as [Hc'' Hs']. split; [exact Hc''|].
    rewrite Hs', Hs, load_cons. lia.
Qed.

Lemma positive_entry (l : list Z) :
  Forall (fun r => 0 <= r) l -> 0 < sumZ l ->
  exists k r, nth_error l k = Some r /\ 1 <= r.
Proof.
  induction 1 as [|x l Hx _ IH]; intros Hs.
  - rewrite sumZ_nil in Hs. lia.
  - rewrite sumZ_cons in Hs. destruct (Z_le_gt_dec 1 x) as [H1|H1].
    + exists 0%nat, x. auto.
    + destruct IH as (k & r & Hk & Hr); [lia|].
      exists (S k), r. auto.
Qed.

Lemma sumZ_nonneg (l : list Z) : Forall (fun r => 0 <= r) l -> 0 <= sumZ l.
Proof.
  induction 1 as [|x l Hx _ IH]; [rewrite sumZ_nil|rewrite sumZ_cons]; lia.
Qed.

Lemma zero_entries (l : list Z) :
  Forall (fun r => 0 <= r) l -> sumZ l = 0 -> Forall (fun r => r = 0) l.
Proof.
  induction 1 as [|x l Hx Hl IH]; intros Hs; [constructor|].
  rewrite sumZ_cons in Hs. pose proof (sumZ_nonneg l Hl) as H0.
  constructor; [lia|apply IH; lia].
Qed.

Lemma assignBalanced_singletons (gs : list Group) (st : Placement) :
  Capacity st -> Forall (fun g => size g = 1) gs ->
  load gs <= sumZ (snd st) ->
  exists st', assignBalanced gs st = Ok st'.
Proof.
  revert st. induction gs as [|g gs IH]; intros st Hc Hg Hs; simpl.
  - eauto.
  - inversion Hg as [|? ? Hg1 Hgs]; subst. rewrite load_cons in Hs.
    assert (H0 : 0 <= load gs).
    { clear -Hgs. induction Hgs as [|g' gs' Hg' _ IH];
        [rewrite load_nil; lia|rewrite load_cons; lia]. }
    destruct (positive_entry (snd st) (proj2 Hc) ltac:(lia))
      as (k & r & Hk & Hr).
    destruct (pickBalanced st g) as [idx|] eqn:E.
    + destruct (pickBalanced_sound _ _ _ E) as (r' & Hr' & Hle).
      destruct (placeAt_Capacity idx g st r' Hc Hr' Hle) as [Hc' Hs'].
      apply IH; [exact Hc'|exact Hgs|lia].
    + exfalso. apply (pickBalanced_complete st g k r (proj1 Hc) Hk);
        [lia|exact E].
Qed.

Lemma assignRandomized_singletons (h : Host) (gs : list Group)
    (st : Placement) (rand : Rand) :
  Capacity st -> Forall (fun g => size g = 1) gs ->
  load gs <= sumZ (snd st) ->
  exists st', assignRandomized h gs st rand = Ok st'.
Proof.
  revert st rand. induction gs as [|g gs IH]; intros st rand Hc Hg Hs; simpl.
  - eauto.
  - inversion Hg as [|? ? Hg1 Hgs]; subst. rewrite load_cons in Hs.
    assert (H0 : 0 <= load gs).
    { clear -Hgs. induction Hgs as [|g' gs' Hg' _ IH];
        [rewrite load_nil; lia|rewrite load_cons; lia]. }
    destruct (positive_entry (snd st) (proj2 Hc) ltac:(lia))
      as (k & r & Hk & Hr).
    pose proof (pickRandomized_sound h st g rand) as Hsound.
    pose proof (pickRandomized_complete h st g rand k r (proj1 Hc) Hk
                  ltac:(lia)) as Hcomp.
    destruct (pickRandomized h st g rand) as [[idx|] rand']; simpl in *.
    + destruct (Hsound idx eq_refl) as (r' & Hr' & Hle).
      destruct (placeAt_Capacity idx g st r' Hc Hr' Hle) as [Hc' Hs'].
      apply IH; [exact Hc'|exact Hgs|lia].
    + congruence.
Qed.

(* ================================================================= *)
(** * Group-to-team assignment: what the teams hold *)

Lemma placeAt_Booked (book : list (Z * list Group)) (st : Placement)
    (idx : nat) (g : Group) :
  Booked book st ->
  Booked (updAt idx (fun e => (fst e, snd e ++ [g])) book) (placeAt idx g st).
Proof.
  intros [Hp Hr]. unfold Booked, placeAt. simpl. split.
  - rewrite (map_updAt players _ (fun ps => ps ++ members g))
      by reflexivity.
    rewrite Hp. symmetry. apply map_updAt.
    intros e. simpl. rewrite flat_map_app. simpl.
    rewrite app_nil_r. reflexivity.
  - rewrite Hr. symmetry. apply map_updAt.
    intros e. cbn [fst snd]. rewrite load_app, load_cons, load_nil. lia.
Qed.

Lemma book_updAt (book : list (Z * list Group)) (idx : nat) (g : Group) :
  (idx < length book)%nat ->
  let book' := updAt idx (fun e => (fst e, snd e ++ [g])) book in
  map fst book' = map fst book
  /\ Permutation (flat_map snd book') (g :: flat_map snd book).
Proof.
  intros Hlt book'. split.
  - unfold book'. rewrite (map_updAt fst _ (fun s => s)) by reflexivity.
    apply updAt_id. reflexivity.
  - destruct (nth_error book idx) as [e|] eqn:E;
      [|apply nth_error_None in E; lia].
    destruct (updAt_split idx (fun e => (fst e, snd e ++ [g])) book e E)
      as (l1 & l2 & E1 & E2 & _).
    unfold book'. rewrite E2, E1, !flat_map_app. simpl.
    rewrite <- !app_assoc. simpl.
    rewrite Permutation_middle.
    apply Permutation_app_head.
    rewrite <- Permutation_middle. apply Permutation_refl.
Qed.

Lemma Assigns_Booked (gs : list Group) (st st' : Placement)
    (book : list (Z * list Group)) :
  Assigns gs st st' -> Booked book st ->
  exists book',
    Booked book' st'
    /\ map fst book' = map fst book
    /\ Permutation (flat_map snd book') (gs ++ flat_map snd book).
Proof.
  intros H. revert book.
  induction H as [st|g gs st st' idx r Hr Hle _ IH]; intros book Hb.
  - exists book. split; [exact Hb|]. split; [reflexivity|].
    apply Permutation_refl.
  - assert (Hlt : (idx < length book)%nat).
    { destruct Hb as [_ Hrem].
      assert (Hn : nth_error (snd st) idx <> None) by congruence.
      apply nth_error_Some in Hn. rewrite Hrem, length_map in Hn. exact Hn. }
    destruct (book_updAt book idx g Hlt) as [Hf Hperm].
    destruct (IH _ (placeAt_Booked book st idx g Hb))
      as (book' & Hb' & Hf' & Hperm').
    exists book'. split; [exact Hb'|]. split; [congruence|].
    rewrite Hperm', Hperm. simpl. symmetry. apply Permutation_middle.
Qed.

Lemma teamsInit_Booked (teamSizes : list Z) :
  Booked (map (fun s => (s, [])) teamSizes) (teamsInit teamSizes, teamSizes).
Proof.
  unfold Booked, teamsInit, mapi. simpl. split.
  - rewrite map_mapiFrom. simpl. rewrite mapiFrom_const, map_map. reflexivity.
  - rewrite map_map. simpl. rewrite <- (map_id teamSizes) at 1.
    apply map_ext. intros s. cbn [fst snd]. rewrite load_nil. lia.
Qed.

Lemma determineTeamSizes_nonneg (n : Z) :
  0 <= n -> Forall (fun r => 0 <= r) (determineTeamSizes n).
Proof.
  intros Hn. apply Forall_forall. intros x Hx.
  destruct (Z_le_gt_dec n 4) as [H4|H4].
  - unfold determineTeamSizes in Hx.
    assert (E : (n <=? 4) = true) by (apply Z.leb_le; exact H4).
    rewrite E in Hx. destruct Hx as [<-|[]]. exact Hn.
  - destruct (determineTeamSizes_members n x ltac:(lia) Hx) as [[?|?]|[? _]];
      lia.
Qed.

Lemma teamsInit_Capacity (n : Z) :
  0 <= n ->
  Capacity (teamsInit (determineTeamSizes n), determineTeamSizes n).
Proof.
  intros Hn. split; simpl.
  - apply teamsInit_length.
  - apply determineTeamSizes_nonneg, Hn.
Qed.

Lemma emptyBook_groups (teamSizes : list Z) :
  flat_map (@snd Z (list Group)) (map (fun s => (s, [])) teamSizes) = [].
Proof. induction teamSizes as [|s l IH]; simpl; auto. Qed.

(** What every completed assignment satisfies. *)
Lemma assignment_exact (h : Host) (settings : GameSettings)
    (enriched : list PlayerWithCH) (ts : list Team) (remaining : list Z) :
  let teamSizes := determineTeamSizes (len enriched) in
  let ordered := orderGroups h settings (formGroups enriched) in
  assignGroups h settings (fst ordered) (snd ordered)
    (teamsInit teamSizes, teamSizes) = Ok (ts, remaining) ->
  exists book : list (Z * list Group),
    map players ts = map (fun e => flat_map members (snd e)) book
    /\ Permutation (flat_map snd book) (formGroups enriched)
    /\ map (fun t => len (players t)) ts = teamSizes.
Proof.
  intros teamSizes ordered Ha. subst ordered.
  apply assignGroups_Assigns in Ha.
  assert (Hn : 0 <= len enriched) by (unfold len; lia).
  destruct (Assigns_Capacity _ _ _ Ha (teamsInit_Capacity _ Hn))
    as [[_ Hpos] Hsum].
  destruct (Assigns_Booked _ _ _ _ Ha (teamsInit_Booked teamSizes))
    as (book & [Hp Hr] & Hf & Hperm).
  simpl in Hpos, Hsum, Hp, Hr.
  assert (Hgs : Permutation (flat_map snd book) (formGroups enriched)).
  { rewrite Hperm, emptyBook_groups, app_nil_r. apply orderGroups_perm. }
  exists book. split; [exact Hp|]. split; [exact Hgs|].
  assert (Hzero : Forall (fun r => r = 0) remaining).
  { apply zero_entries; [exact Hpos|]. rewrite Hsum.
    unfold teamSizes. rewrite determineTeamSizes_sum.
    rewrite (load_perm _ _ (orderGroups_perm h settings (formGroups enriched))).
    rewrite formGroups_load. lia. }
  rewrite <- (map_map players (fun ps => len ps)), Hp, map_map.
  rewrite map_map in Hf. simpl in Hf. rewrite map_id in Hf. rewrite <- Hf.
  apply map_ext_in. intros e He.
  rewrite <- load_members.
  - rewrite Hr in Hzero. rewrite Forall_forall in Hzero.
    specialize (Hzero (fst e - load (snd e))
                  (in_map (fun e => fst e - load (snd e)) book e He)).
    lia.
  - intros g Hg. apply (formGroups_size enriched).
    apply (Permutation_in _ Hgs). apply in_flat_map. exists e. auto.
Qed.

Lemma flat_map_concat {A B : Type} (f : A -> list B) (ls : list (list A)) :
  flat_map f (concat ls) = concat (map (flat_map f) ls).
Proof.
  induction ls as [|l ls IH]; simpl; [reflexivity|].
  rewrite flat_map_app, IH. reflexivity.
Qed.

Lemma generateGame_assigned (h : Host) (c : Course) (ps : list Player)
    (settings : GameSettings) (st : Placement) :
  let enriched := map (computePlayerCH c) ps in
  let teamSizes := determineTeamSizes (len enriched) in
  let ordered := orderGroups h settings (formGroups enriched) in
  assignGroups h settings (fst ordered) (snd ordered)
    (teamsInit teamSizes, teamSizes) = Ok st ->
  exists r, generateGame h c ps settings = Ok r.
Proof.
  cbv zeta. intros Ha. unfold generateGame.
  destruct (orderGroups h settings (formGroups (map (computePlayerCH c) ps)))
    as [sortedGroups ambient].
  cbn [fst snd] in Ha. rewrite Ha. destruct st as [ts remaining].
  eexists. reflexivity.
Qed.

(** What holds of C2.  A result, whenever there is one, holds
    every enriched player in exactly one team, its team sizes are the
    planned sizes, and its teams are made of whole groups: the groups
    split into one part per team and the players of a team are the
    members of the groups of its part.  When every group is a single
    player, the placement never fails, under either policy. *)
Theorem assignment_complete (h : Host) (c : Course) (ps : list Player)
    (settings : GameSettings) :
  let enriched := map (computePlayerCH c) ps in
  (forall r, generateGame h c ps settings = Ok r ->
     Permutation (concat (map players (teams r))) enriched
     /\ Permutation (map (fun t => len (players t)) (teams r))
                    (determineTeamSizes (len enriched))
     /\ (exists parts : list (list Group),
           Permutation (concat parts) (formGroups enriched)
           /\ map players (teams r) = map (flat_map members) parts)
     /\ (forall g, In g (formGroups enriched) ->
           exists t, In t (teams r) /\ incl (members g) (players t)))
  /\ (Forall (fun g => size g = 1) (formGroups enriched) ->
      exists r, generateGame h c ps settings = Ok r).
Proof.
  intros enriched. split.
  - intros r H.
    destruct (generateGame_Ok _ _ _ _ _ H) as (ts & rem & Ha & Ht & _).
    destruct (assignment_exact _ _ _ _ _ Ha) as (book & Hp & Hgs & Hsz).
    fold enriched in Hgs, Hsz.
    assert (HT : Permutation (map players (teams r)) (map players ts)).
    { rewrite Ht, sortTeams_players, map_map. simpl.
      apply Permutation_refl. }
    assert (Hparts : exists parts : list (list Group),
               Permutation (concat parts) (formGroups enriched)
               /\ map players (teams r) = map (flat_map members) parts).
    { rewrite Hp in HT. apply Permutation_map_inv in HT.
      destruct HT as (book3 & E3 & P3).
      exists (map snd book3). split.
      - rewrite <- flat_map_concat_map, <- Hgs.
        apply Permutation_flat_map, Permutation_sym, P3.
      - rewrite E3, map_map. reflexivity. }
    destruct Hparts as (parts & Hperm & Hmap).
    split; [|split; [|split]].
    + rewrite Hmap, <- flat_map_concat.
      rewrite (Permutation_flat_map members Hperm).
      apply formGroups_players.
    + rewrite <- Hsz. rewrite <- !(map_map players (fun ps => len ps)).
      apply Permutation_map, HT.
    + exists parts. auto.
    + intros g Hg.
      apply (Permutation_in _ (Permutation_sym Hperm)) in Hg.
      apply in_concat in Hg. destruct Hg as (part & Hpart & Hg).
      assert (Hin : In (flat_map members part) (map players (teams r)))
        by (rewrite Hmap; apply in_map; exact Hpart).
      apply in_map_iff in Hin. destruct Hin as (t & Et & Hin).
      exists t. split; [exact Hin|].
      intros x Hx. rewrite Et. apply in_flat_map. exists g. auto.
  - intros Hone.
    pose proof (orderGroups_perm h settings (formGroups enriched)) as Hperm.
    assert (Hn : 0 <= len enriched) by (unfold len; lia).
    assert (Hone' : Forall (fun g => size g = 1)
                      (fst (orderGroups h settings (formGroups enriched))))
      by (apply (Permutation_Forall (Permutation_sym Hperm)); exact Hone).
    assert (Hload : load (fst (orderGroups h settings (formGroups enriched)))
                    <= sumZ (determineTeamSizes (len enriched)))
      by (rewrite (load_perm _ _ Hperm), formGroups_load,
            determineTeamSizes_sum; lia).
    assert (Hst : exists st,
               assignGroups h settings
                 (fst (orderGroups h settings (formGroups enriched)))
                 (snd (orderGroups h settings (formGroups enriched)))
                 (teamsInit (determineTeamSizes (len enriched)),
                  determineTeamSizes (len enriched)) = Ok st).
    { unfold assignGroups. destruct (randomize settings).
      - apply assignRandomized_singletons;
          [apply teamsInit_Capacity, Hn|exact Hone'|exact Hload].
      - apply assignBalanced_singletons;
          [apply teamsInit_Capacity, Hn|exact Hone'|exact Hload]. }
    destruct Hst as (st & Hst).
    apply (generateGame_assigned h c ps settings st). exact Hst.
Qed.

Lemma assignment_complete_witness :
  exists r,
    generateGame sampleHost sampleCourse roster8
      (sampleSettings 20 (Some true) (Some 42) None) = Ok r
    /\ Permutation (concat (map players (teams r)))
                   (map (computePlayerCH sampleCourse) roster8)
    /\ Permutation (map (fun t => len (players t)) (teams r)) [4; 4].
Proof.
  destruct (assignment_complete sampleHost sampleCourse roster8
              (sampleSettings 20 (Some true) (Some 42) None)) as [Hok Hex].
  destruct Hex as (r & Hr).
  - apply Forall_forall. intros g Hg.
    assert (Hb : forallb (fun g => size g =? 1)
                   (formGroups (map (computePlayerCH sampleCourse) roster8))
                 = true) by (vm_compute; reflexivity).
    rewrite forallb_forall in Hb. apply Z.eqb_eq, Hb, Hg.
  - exists r. split; [exact Hr|].
    destruct (Hok r Hr) as (Hp & Hs & _). split; [exact Hp|exact Hs].
Defined.

(** C2 on five players, four of them linked.  Every group has at most
    four members, the plan is [[3; 2]], and the group of four fits no
    team: both policies throw, in the state that the source expects not
    to happen. *)
Lemma group_of_four_among_five_is_not_placed :
  map size (formGroups (map (computePlayerCH sampleCourse) roster5linked))
  = [4; 1]
  /\ determineTeamSizes 5 = [3; 2]
  /\ generateGame sampleHost sampleCourse roster5linked
       (sampleSettings 20 None None None)
     = Err "Unable to place group of size 4 within team capacities"
  /\ generateGame sampleHost sampleCourse roster5linked
       (sampleSettings 20 (Some true) (Some 42) None)
     = Err "Unable to place group of size 4 within team capacities".
Proof. repeat split; vm_compute; reflexivity. Qed.

(* ================================================================= *)
(** * Determinism *)

Section Determinism.

Variable collate : string -> string -> Z.
Variables random1 random2 : nat -> unitQ.

Lemma draw_seeded (h : Host) (t : Z) :
  draw h (Seeded t) = (fst (rng_next t), Seeded (snd (rng_next t))).
Proof. unfold draw. destruct (rng_next t). reflexivity. Qed.

Lemma shuffleFrom_S {A : Type} (h : Host) (i : nat) (arr : list A)
    (rand : Rand) :
  shuffleFrom h (S i) arr rand
  = shuffleFrom h i
      (swap arr (S i)
         (Z.to_nat (Js.floor (fst (draw h rand)
                              * inject_Z (Z.of_nat (S i) + 1)))))
      (snd (draw h rand)).
Proof.
  change (shuffleFrom h (S i) arr rand)
    with (let (u, rand') := draw h rand in
          shuffleFrom h i
            (swap arr (S i)
               (Z.to_nat (Js.floor (u * inject_Z (Z.of_nat (S i) + 1)))))
            rand').
  destruct (draw h rand). reflexivity.
Qed.

Lemma shuffleFrom_seeded {A : Type} (i : nat) (arr : list A) (t : Z) :
  shuffleFrom (hostWith collate random1) i arr (Seeded t)
  = shuffleFrom (hostWith collate random2) i arr (Seeded t)
  /\ exists t',
       snd (shuffleFrom (hostWith collate random1) i arr (Seeded t))
       = Seeded t'.
Proof.
  revert arr t. induction i as [|i IH]; intros arr t.
  - split; [reflexivity|]. exists t. reflexivity.
  - rewrite !shuffleFrom_S, !draw_seeded. cbn [fst snd]. apply IH.
Qed.

Lemma pickRandomized_seeded (st : Placement) (g : Group) (t : Z) :
  pickRandomized (hostWith collate random1) st g (Seeded t)
  = pickRandomized (hostWith collate random2) st g (Seeded t)
  /\ exists t',
       snd (pickRandomized (hostWith collate random1) st g (Seeded t))
       = Seeded t'.
Proof.
  unfold pickRandomized, shuffleInPlace.
  destruct (shuffleFrom_seeded (length (teamIndices st) - 1)
              (teamIndices st) t) as [E (t' & Et)].
  rewrite <- E.
  destruct (shuffleFrom (hostWith collate random1)
              (length (teamIndices st) - 1) (teamIndices st) (Seeded t))
    as [order rand'].
  simpl in Et. subst rand'. split.
  - reflexivity.
  - exists t'. destruct (firstFit order (snd st) (size g)); reflexivity.
Qed.

Lemma assignRandomized_seeded (gs : list Group) (st : Placement) (t : Z) :
  assignRandomized (hostWith collate random1) gs st (Seeded t)
  = assignRandomized (hostWith collate random2) gs st (Seeded t).
Proof.
  revert st t. induction gs as [|g gs IH]; intros st t; simpl.
  - reflexivity.
  - destruct (pickRandomized_seeded st g t) as [E (t' & Et)].
    rewrite <- E.
    destruct (pickRandomized (hostWith collate random1) st g (Seeded t))
      as [[idx|] rand'].
    + simpl in Et. subst rand'. apply IH.
    + reflexivity.
Qed.

Lemma orderGroups_seeded (settings : GameSettings) (seed : Z)
    (groups : list Group) :
  randomSeed settings = Some seed ->
  fst (orderGroups (hostWith collate random1) settings groups)
  = fst (orderGroups (hostWith collate random2) settings groups).
Proof.
  intros Hs. unfold orderGroups, randOf. rewrite Hs.
  destruct (randomize settings); [|reflexivity].
  unfold shuffleInPlace.
  destruct (shuffleFrom_seeded (length groups - 1) groups (rng seed))
    as [E _].
  rewrite <- E.
  destruct (shuffleFrom (hostWith collate random1) (length groups - 1)
              groups (Seeded (rng seed))).
  reflexivity.
Qed.

Lemma assignGroups_seeded (settings : GameSettings) (seed : Z)
    (gs : list Group) (ambient1 ambient2 : Rand) (st : Placement) :
  randomSeed settings = Some seed ->
  assignGroups (hostWith collate random1) settings gs ambient1 st
  = assignGroups (hostWith collate random2) settings gs ambient2 st.
Proof.
  intros Hs. unfold assignGroups, randOf. rewrite Hs.
  destruct (randomize settings); [|reflexivity].
  apply assignRandomized_seeded.
Qed.

Lemma generateGame_unfold (h : Host) (c : Course) (ps : list Player)
    (settings : GameSettings) :
  generateGame h c ps settings
  = let enriched := map (computePlayerCH c) ps in
    let teamSizes := determineTeamSizes (len enriched) in
    let ordered := orderGroups h settings (formGroups enriched) in
    match assignGroups h settings (fst ordered) (snd ordered)
            (teamsInit teamSizes, teamSizes) with
    | Err msg => Err msg
    | Ok (ts, _) =>
        let sortedTeams := sortTeams (map withTeamHandicap ts) in
        let pool :=
          Z.max 0 (Js.round (entryFeePerPlayer settings
                             * inject_Z (len enriched))) in
        Ok {| course := c;
              teams := sortedTeams;
              totalPlayers := len enriched;
              prizePool := pool;
              skinsPool :=
                Z.max 0 (Js.round (match skinsPoolPerPlayer settings with
                                   | Some s => s
                                   | None => 0%Q
                                   end * inject_Z (len enriched)));
              payouts := payoutsFor settings pool (len sortedTeams) |}
    end.
Proof.
  unfold generateGame.
  destruct (orderGroups h settings (formGroups (map (computePlayerCH c) ps))).
  reflexivity.
Qed.

(** C4.  Two hosts that differ only in what [Math.random] returns give
    the same result when teams are randomized with a seed; and when
    teams are not randomized they give the same result whatever the
    seed, set or unset. *)
Theorem generateGame_deterministic (c : Course) (ps : list Player)
    (settings : GameSettings) :
  (randomizeTeams settings = Some true ->
   (exists seed, randomSeed settings = Some seed) ->
   generateGame (hostWith collate random1) c ps settings
   = generateGame (hostWith collate random2) c ps settings)
  /\ (randomizeTeams settings <> Some true ->
      forall seed1 seed2,
        generateGame (hostWith collate random1) c ps
          (withSeed settings seed1)
        = generateGame (hostWith collate random2) c ps
            (withSeed settings seed2)).
Proof.
  split.
  - intros _ (seed & Hs). rewrite !generateGame_unfold. cbv zeta.
    rewrite (orderGroups_seeded settings seed _ Hs).
    rewrite (assignGroups_seeded settings seed _ _
               (snd (orderGroups (hostWith collate random2) settings
                       (formGroups (map (computePlayerCH c) ps)))) _ Hs).
    reflexivity.
  - intros Hr seed1 seed2.
    assert (E : forall seed, randomize (withSeed settings seed) = false).
    { intros seed. unfold randomize, withSeed. simpl.
      destruct (randomizeTeams settings) as [[|]|]; congruence. }
    rewrite !generateGame_unfold. cbv zeta.
    unfold orderGroups, assignGroups. rewrite !E. reflexivity.
Qed.

End Determinism.

Lemma generateGame_deterministic_witness :
  generateGame sampleHost sampleCourse roster8
    (sampleSettings 20 (Some true) (Some 42) None)
  = generateGame alternatingHost sampleCourse roster8
      (sampleSettings 20 (Some true) (Some 42) None)
  /\ generateGame sampleHost sampleCourse roster8
       (sampleSettings 20 None (Some 1) None)
     = generateGame alternatingHost sampleCourse roster8
         (sampleSettings 20 None None None).
Proof.
  destruct (generateGame_deterministic codeUnitCompare
              (fun _ => zeroDraw)
              (fun k => if Nat.even k then zeroDraw else halfDraw)
              sampleCourse roster8
              (sampleSettings 20 (Some true) (Some 42) None)) as [H1 _].
  destruct (generateGame_deterministic codeUnitCompare
              (fun _ => zeroDraw)
              (fun k => if Nat.even k then zeroDraw else halfDraw)
              sampleCourse roster8
              (sampleSettings 20 None None None)) as [_ H2].
  split.
  - apply H1; [reflexivity|exists 42; reflexivity].
  - apply (H2 ltac:(discriminate) (Some 1) None).
Defined.

(** Without a seed the randomized policy follows [Math.random]: the two
    sample hosts give different teams. *)
Remark unseeded_randomized_follows_Math_random :
  generateGame sampleHost sampleCourse roster8
    (sampleSettings 20 (Some true) None None)
  <> generateGame alternatingHost sampleCourse roster8
       (sampleSettings 20 (Some true) None None).
Proof. vm_compute. discriminate. Qed.

(* ================================================================= *)
(** * Payout allocator: order and total *)

Lemma clampFrom_nonIncreasing (prev : Z) (l : list Z) :
  nonIncreasing (prev :: clampFrom prev l).
Proof.
  revert prev. induction l as [|x l IH]; intros prev i a b Ha Hb.
  - destruct i; simpl in Hb; [discriminate|destruct i; discriminate].
  - destruct i as [|i].
    + simpl in Ha, Hb. inversion Ha; inversion Hb; subst.
      destruct (a <? x) eqn:E; [lia|apply Z.ltb_ge in E; lia].
    + apply (IH (if prev <? x then prev else x) i a b); assumption.
Qed.

Lemma enforceNonIncreasing_nonIncreasing (l : list Z) :
  nonIncreasing (enforceNonIncreasing l).
Proof.
  destruct l as [|x l]; simpl.
  - intros [|i] a b Ha; discriminate.
  - apply clampFrom_nonIncreasing.
Qed.

(** Whatever path [roundPayoutsPrefer10Then5] takes, its result is
    non-increasing by place. *)
Lemma roundPayouts_nonIncreasing (values : list Q) (total : Z) :
  nonIncreasing (roundPayoutsPrefer10Then5 values total).
Proof.
  unfold roundPayoutsPrefer10Then5, tryRound. cbn [fst snd].
  repeat match goal with
  | |- context [if ?b then _ else _] => destruct b
  end; apply enforceNonIncreasing_nonIncreasing.
Qed.

(** C1 on eight unlinked players with an entry fee of 1.  The pool is 8
    and two places are paid; rounding to 10 gives [[0; 0]], rounding to
    5 gives [[5; 5]], the fallback lowers first place by 2 and the clamp
    then lowers second place as well: the payouts are [[3; 3]] and sum
    to 6. *)
Theorem payouts_of_pool_8_sum_to_6 :
  exists r,
    generateGame sampleHost sampleCourse roster8
      (sampleSettings 1 None None None) = Ok r
    /\ prizePool r = 8
    /\ basePayoutRatios 3 2 = [0.6; 0.4]%Q
    /\ fst (tryRound [0.6 * 8; 0.4 * 8]%Q 8 10) = [0; 0]
    /\ fst (tryRound [0.6 * 8; 0.4 * 8]%Q 8 5) = [5; 5]
    /\ map amount (payouts r) = [3; 3]
    /\ sumZ (map amount (payouts r)) <> prizePool r.
Proof.
  eexists. split; [vm_compute; reflexivity|].
  repeat split; try reflexivity. vm_compute. discriminate.
Qed.

(** C10 with seven paid places.  The first six shares of the taper are
    0.35, 0.245, 0.1715, 0.12005, 0.084035 and 0.0588245; they sum to
    more than 1, so the share left for the seventh place is negative.
    Twenty-five players make seven teams, and with [paidPlaces = 7]
    [generateGame] uses this schedule. *)
Theorem taper_of_7_places_ends_negative :
  (exists last,
     nth_error (basePayoutRatios 7 7) 6 = Some last
     /\ (last == - (58819 # 2000000))%Q
     /\ (last < 0)%Q)
  /\ exists r,
       generateGame sampleHost sampleCourse (rosterOf 25)
         (sampleSettings 1 None None (Some 7)) = Ok r
       /\ len (teams r) = 7
       /\ len (payouts r) = 7.
Proof.
  split.
  - eexists. split; [vm_compute; reflexivity|].
    split; reflexivity.
  - eexists. split; [vm_compute; reflexivity|].
    split; reflexivity.
Qed.

(* ================================================================= *)
(** * The loops run to their end *)

Lemma adjustPass_diff (step dir : Z) (rounded : list Z) (diff : Z) :
  0 < step ->
  snd (fst (adjustPass step dir rounded diff)) <= diff
  /\ (snd (adjustPass step dir rounded diff) = true ->
      snd (fst (adjustPass step dir rounded diff)) <= diff - step).
Proof.
  intros Hstep. revert diff.
  induction rounded as [|r rest IH]; intros diff; simpl.
  - split; [lia|discriminate].
  - destruct (step <=? diff) eqn:E; [|simpl; split; [lia|discriminate]].
    destruct ((0 <? dir) || ((dir <? 0) && (0 <=? r + dir * step))).
    + destruct (IH (diff - step)) as [H1 _].
      destruct (adjustPass step dir rest (diff - step)) as [[rest' d'] a'].
      simpl in *. split; lia.
    + destruct (IH diff) as [H1 H2].
      destruct (adjustPass step dir rest diff) as [[rest' d'] a'].
      simpl in *. split; [lia|exact H2].
Qed.

(** Once [diff < (fuel + 1) * step], more fuel does not change what
    [adjustLoop] returns: the [while] loop has ended by itself. *)
Lemma adjustLoop_fuel (step dir : Z) (fuel fuel' : nat) (rounded : list Z)
    (diff : Z) :
  0 < step -> diff < (Z.of_nat fuel + 1) * step -> (fuel <= fuel')%nat ->
  adjustLoop fuel' step dir rounded diff
  = adjustLoop fuel step dir rounded diff.
Proof.
  intros Hstep. revert fuel' rounded diff.
  induction fuel as [|fuel IH]; intros fuel' rounded diff Hd Hf.
  - assert (E : (step <=? diff) = false) by (apply Z.leb_gt; lia).
    destruct fuel'; simpl; [reflexivity|]. rewrite E. reflexivity.
  - destruct fuel' as [|fuel']; [lia|]. simpl.
    destruct (step <=? diff); [|reflexivity].
    destruct (adjustPass_diff step dir rounded diff Hstep) as [_ H2].
    destruct (adjustPass step dir rounded diff) as [[rounded' diff'] adjusted].
    simpl in H2. destruct adjusted; [|reflexivity].
    apply IH; [|lia]. specialize (H2 eq_refl). lia.
Qed.

Lemma tryRound_fuel (step dir : Z) (extra : nat) (rounded : list Z)
    (diff : Z) :
  0 < step -> 0 <= diff ->
  adjustLoop (Z.to_nat (diff / step) + extra) step dir rounded diff
  = adjustLoop (Z.to_nat (diff / step)) step dir rounded diff.
Proof.
  intros Hstep Hd. apply adjustLoop_fuel; [exact Hstep| |lia].
  rewrite Z2Nat.id by (apply Z.div_pos; lia).
  pose proof (Z.mul_succ_div_gt diff step Hstep). lia.
Qed.

Lemma nth_error_ext_eq {A : Type} (l1 l2 : list A) :
  (forall k, nth_error l1 k = nth_error l2 k) -> l1 = l2.
Proof.
  revert l2. induction l1 as [|x l1 IH]; intros [|y l2] H.
  - reflexivity.
  - specialize (H 0%nat). discriminate.
  - specialize (H 0%nat). discriminate.
  - pose proof (H 0%nat) as H0. simpl in H0. inversion H0; subst.
    f_equal. apply IH. intros k. apply (H (S k)).
Qed.

(** The chunk loop has ended after [members.length] turns. *)
Lemma chunkLoop_fuel {A : Type} (extra : nat) (ms : list A) :
  chunkLoop (length ms + extra) 0 ms = chunked ms.
Proof.
  apply nth_error_ext_eq. intros k.
  rewrite chunked_nth_error, chunkLoop_nth_error by lia. reflexivity.
Qed.

(* ================================================================= *)
(** * Payout allocator: no amount is negative *)

Lemma round_payable (step : Z) (v : Q) :
  Payable step (Z.max 0 (Js.round (v / inject_Z step) * step)).
Proof.
  unfold Payable.
  destruct (Z.max_spec 0 (Js.round (v / inject_Z step) * step))
    as [[H E]|[H E]]; rewrite E.
  - split; [lia|apply Z.divide_factor_r].
  - split; [lia|apply Z.divide_0_r].
Qed.

Lemma payable_small (step x : Z) :
  0 < step -> Payable step x -> x < step -> x = 0.
Proof.
  intros Hs [H0 Hd] Hlt. destruct (Z.eq_dec x 0) as [E|E]; [exact E|].
  apply Z.divide_pos_le in Hd; lia.
Qed.

Lemma adjustPass_payable (step dir : Z) (rounded : list Z) (diff : Z) :
  0 < step -> -1 <= dir <= 1 ->
  Forall (Payable step) rounded ->
  Forall (Payable step) (fst (fst (adjustPass step dir rounded diff))).
Proof.
  intros Hs Hdir H. revert diff.
  induction H as [|r rest Hr Hrest IH]; intros diff; simpl.
  - constructor.
  - destruct (step <=? diff); [|constructor; assumption].
    destruct ((0 <? dir) || ((dir <? 0) && (0 <=? r + dir * step))) eqn:E.
    + specialize (IH (diff - step)).
      destruct (adjustPass step dir rest (diff - step)) as [[rest' d'] a'].
      simpl in *. constructor; [|exact IH].
      destruct Hr as [Hr0 Hrd]. apply orb_prop in E. destruct E as [E|E].
      * apply Z.ltb_lt in E. replace dir with 1 by lia. split; [lia|].
        apply Z.divide_add_r; [exact Hrd|]. rewrite Z.mul_1_l.
        apply Z.divide_refl.
      * apply andb_prop in E. destruct E as [E1 E2].
        apply Z.ltb_lt in E1. apply Z.leb_le in E2. split; [exact E2|].
        apply Z.divide_add_r; [exact Hrd|]. apply Z.divide_factor_r.
    + specialize (IH diff).
      destruct (adjustPass step dir rest diff) as [[rest' d'] a'].
      simpl in *. constructor; assumption.
Qed.

Lemma adjustPass_sum (step dir : Z) (rounded : list Z) (diff : Z) :
  sumZ (fst (fst (adjustPass step dir rounded diff)))
  = sumZ rounded + dir * (diff - snd (fst (adjustPass step dir rounded diff)))
  /\ (0 <= diff -> 0 <= snd (fst (adjustPass step dir rounded diff))).
Proof.
  revert diff. induction rounded as [|r rest IH]; intros diff; simpl.
  - split; [rewrite sumZ_nil; lia|auto].
  - destruct (step <=? diff) eqn:E; [|simpl; split; [lia|auto]].
    apply Z.leb_le in E.
    destruct ((0 <? dir) || ((dir <? 0) && (0 <=? r + dir * step))).
    + destruct (IH (diff - step)) as [H1 H2].
      destruct (adjustPass step dir rest (diff - step)) as [[rest' d'] a'].
      simpl in *. rewrite !sumZ_cons, H1. split; [lia|].
      intros Hd. apply H2.
      destruct (Z_le_gt_dec 0 (diff - step)) as [H|H]; [exact H|].
      destruct (Z_le_gt_dec step 0); lia.
    + destruct (IH diff) as [H1 H2].
      destruct (adjustPass step dir rest diff) as [[rest' d'] a'].
      simpl in *. rewrite !sumZ_cons, H1. split; [lia|exact H2].
Qed.

Lemma adjustPass_stuck (step dir : Z) (rounded : list Z) (diff : Z) :
  0 < step -> dir = -1 -> step <= diff ->
  Forall (Payable step) rounded ->
  snd (adjustPass step dir rounded diff) = false ->
  Forall (fun x => x = 0) (fst (fst (adjustPass step dir rounded diff))).
Proof.
  intros Hs Hdir Hd H. induction H as [|r rest Hr Hrest IH]; simpl.
  - constructor.
  - assert (E : (step <=? diff) = true) by (apply Z.leb_le; exact Hd).
    rewrite E.
    destruct ((0 <? dir) || ((dir <? 0) && (0 <=? r + dir * step))) eqn:En.
    + destruct (adjustPass step dir rest (diff - step)) as [[rest' d'] a'].
      simpl. discriminate.
    + destruct (adjustPass step dir rest diff) as [[rest' d'] a'].
      simpl in *. intros Ha. constructor; [|apply IH; exact Ha].
      apply orb_false_elim in En. destruct En as [_ En].
      apply andb_false_elim in En. destruct En as [En|En].
      * apply Z.ltb_ge in En. lia.
      * apply Z.leb_gt in En. apply (payable_small step r Hs Hr). lia.
Qed.

Lemma adjustLoop_spec (step dir : Z) (fuel : nat) (rounded : list Z)
    (diff : Z) :
  0 < step -> -1 <= dir <= 1 ->
  Forall (Payable step) rounded ->
  0 <= diff -> diff < (Z.of_nat fuel + 1) * step ->
  let out := adjustLoop fuel step dir rounded diff in
  Forall (Payable step) (fst out)
  /\ sumZ (fst out) = sumZ rounded + dir * (diff - snd out)
  /\ 0 <= snd out
  /\ (dir = -1 -> snd out < step \/ Forall (fun x => x = 0) (fst out)).
Proof.
  intros Hs Hdir. revert rounded diff.
  induction fuel as [|fuel IH]; intros rounded diff Hp H0 Hf; simpl.
  - split; [exact Hp|]. split; [lia|]. split; [lia|]. intros _. left. lia.
  - destruct (step <=? diff) eqn:E;
      [|apply Z.leb_gt in E; simpl;
        split; [exact Hp|split; [lia|split; [lia|intros _; left; lia]]]].
    apply Z.leb_le in E.
    pose proof (adjustPass_payable step dir rounded diff Hs Hdir Hp) as Pp.
    destruct (adjustPass_sum step dir rounded diff) as [Ps Pn].
    destruct (adjustPass_diff step dir rounded diff Hs) as [_ Pd].
    pose proof (fun Hm => adjustPass_stuck step dir rounded diff Hs Hm E Hp)
      as Pk.
    destruct (adjustPass step dir rounded diff) as [[rounded' diff'] adjusted]
      eqn:Epass.
    simpl in Pp, Ps, Pn, Pd. destruct adjusted.
    + specialize (Pd eq_refl).
      destruct (IH rounded' diff' Pp (Pn H0) ltac:(lia))
        as (Q1 & Q2 & Q3 & Q4).
      split; [exact Q1|]. split; [rewrite Q2, Ps; lia|].
      split; [exact Q3|exact Q4].
    + simpl. split; [exact Pp|]. split; [exact Ps|].
      split; [apply Pn, H0|].
      intros Hm. right. apply (Pk Hm). reflexivity.
Qed.

Lemma clampFrom_spec (prev : Z) (l : list Z) :
  0 <= prev -> Forall (fun x => 0 <= x) l ->
  Forall (fun x => 0 <= x <= prev) (clampFrom prev l)
  /\ sumZ (clampFrom prev l) <= sumZ l.
Proof.
  intros Hp H. revert prev Hp.
  induction H as [|x l Hx Hl IH]; intros prev Hp; simpl.
  - split; [constructor|lia].
  - assert (Hc : 0 <= (if prev <? x then prev else x) <= prev
                 /\ (if prev <? x then prev else x) <= x).
    { destruct (prev <? x) eqn:E;
        [apply Z.ltb_lt in E|apply Z.ltb_ge in E]; lia. }
    destruct (IH _ (proj1 (proj1 Hc))) as [H1 H2].
    split.
    + constructor; [tauto|].
      apply (Forall_impl _ (fun y Hy => conj (proj1 Hy)
               (Z.le_trans _ _ _ (proj2 Hy) (proj2 (proj1 Hc)))) H1).
    + rewrite !sumZ_cons. lia.
Qed.

Lemma enforceNonIncreasing_spec (x : Z) (l : list Z) :
  0 <= x -> Forall (fun y => 0 <= y) l ->
  exists rest,
    enforceNonIncreasing (x :: l) = x :: rest
    /\ Forall (fun y => 0 <= y <= x) rest
    /\ sumZ rest <= sumZ l.
Proof.
  intros Hx Hl. exists (clampFrom x l). split; [reflexivity|].
  apply clampFrom_spec; assumption.
Qed.

Lemma payable_nonneg (step : Z) (l : list Z) :
  Forall (Payable step) l -> Forall (fun x => 0 <= x) l.
Proof. apply Forall_impl. intros x [H _]. exact H. Qed.

Lemma sumZ_zero (l : list Z) : Forall (fun x => x = 0) l -> sumZ l = 0.
Proof.
  induction 1 as [|x l Hx _ IH]; [apply sumZ_nil|].
  rewrite sumZ_cons. lia.
Qed.

Lemma sumZ_bounded (top : Z) (l : list Z) :
  Forall (fun y => 0 <= y <= top) l -> top = 0 -> sumZ l = 0.
Proof.
  intros H E. apply sumZ_zero.
  eapply Forall_impl; [|exact H]. intros y Hy. simpl in Hy. lia.
Qed.

(** What [tryRound] returns: amounts that are not negative, their sum,
    and a first place that stays at 0 or above when the rest of the
    pool is added to it. *)
Lemma tryRound_spec (values : list Q) (total step : Z) :
  0 < step -> 0 <= total ->
  snd (tryRound values total step) = sumZ (fst (tryRound values total step))
  /\ Forall (fun x => 0 <= x) (fst (tryRound values total step))
  /\ forall top rest,
       fst (tryRound values total step) = top :: rest ->
       0 <= top + (total - sumZ (top :: rest)).
Proof.
  intros Hs Ht. unfold tryRound. cbn [fst snd].
  set (rounded0 := map _ values).
  set (diff0 := total - sumZ rounded0).
  assert (P0 : Forall (Payable step) rounded0).
  { unfold rounded0. apply Forall_forall. intros x Hx.
    apply in_map_iff in Hx. destruct Hx as (v & <- & _).
    apply round_payable. }
  assert (Hfuel : Z.abs diff0
                  < (Z.of_nat (Z.to_nat (Z.abs diff0 / step)) + 1) * step).
  { rewrite Z2Nat.id by (apply Z.div_pos; lia).
    pose proof (Z.mul_succ_div_gt (Z.abs diff0) step Hs). lia. }
  destruct (adjustLoop_spec step (Z.sgn diff0)
              (Z.to_nat (Z.abs diff0 / step)) rounded0 (Z.abs diff0)
              Hs ltac:(lia) P0 ltac:(lia) Hfuel) as (Q1 & Q2 & Q3 & Q4).
  set (out := adjustLoop _ step (Z.sgn diff0) rounded0 (Z.abs diff0)) in *.
  pose proof (payable_nonneg _ _ Q1) as Qn.
  split; [reflexivity|]. split.
  - destruct (fst out) as [|x l]; [constructor|].
    inversion Qn as [|? ? Hx Hl]; subst.
    destruct (enforceNonIncreasing_spec x l Hx Hl) as (rest & E & Hr & _).
    rewrite E. constructor; [exact Hx|].
    apply (Forall_impl _ (fun y Hy => proj1 Hy) Hr).
  - intros top rest E.
    destruct (fst out) as [|x l] eqn:Eout; [discriminate|].
    inversion Qn as [|? ? Hx Hl]; subst.
    destruct (enforceNonIncreasing_spec x l Hx Hl) as (rest' & E' & Hr & Hsum).
    rewrite E' in E. inversion E; subst top rest'. clear E.
    rewrite sumZ_cons in *.
    destruct (Z_lt_ge_dec diff0 0) as [Hneg|Hpos].
    + assert (Hsg : Z.sgn diff0 = -1) by (apply Z.sgn_neg; exact Hneg).
      rewrite Hsg in Q2. destruct (Q4 Hsg) as [Hlt|Hz].
      * destruct (Z.eq_dec x 0) as [Ex|Ex].
        -- rewrite (sumZ_bounded x rest Hr Ex). lia.
        -- inversion Q1 as [|? ? Px _]; subst.
           assert (step <= x).
           { destruct (Z_le_gt_dec step x) as [H|H]; [exact H|].
             exfalso. apply Ex. apply (payable_small step x Hs Px). lia. }
           unfold diff0 in *. lia.
      * inversion Hz as [|? ? Ex _]; subst.
        rewrite (sumZ_bounded 0 rest Hr eq_refl). lia.
    + destruct (Z.eq_dec diff0 0) as [E0|E0].
      * rewrite E0 in Q2. simpl in Q2. unfold diff0 in *. lia.
      * assert (Hsg : Z.sgn diff0 = 1) by (apply Z.sgn_pos; lia).
        rewrite Hsg in Q2. unfold diff0 in *. lia.
Qed.

(** For a pool that is not negative, no amount of the final list is
    negative, whichever path produced it. *)
Lemma roundPayouts_nonneg (values : list Q) (total : Z) :
  0 <= total ->
  Forall (fun x => 0 <= x) (roundPayoutsPrefer10Then5 values total).
Proof.
  intros Ht. unfold roundPayoutsPrefer10Then5.
  destruct (tryRound_spec values total 10 ltac:(lia) Ht) as (_ & N10 & _).
  destruct (tryRound_spec values total 5 ltac:(lia) Ht) as (S5 & N5 & T5).
  destruct (snd (tryRound values total 10) =? total); [exact N10|].
  destruct (negb (snd (tryRound values total 5) =? total)); [|exact N5].
  rewrite S5.
  destruct (fst (tryRound values total 5)) as [|top rest]; [constructor|].
  specialize (T5 top rest eq_refl). simpl updAt.
  inversion N5 as [|? ? _ Hrest]; subst.
  destruct (enforceNonIncreasing_spec
              (top + (total - sumZ (top :: rest))) rest T5 Hrest)
    as (rest' & E & Hr & _).
  rewrite E. constructor; [exact T5|].
  apply (Forall_impl _ (fun y Hy => proj1 Hy) Hr).
Qed.

(** X1.  In every result the payouts are non-increasing by place and none of
    them is negative. *)
Lemma payouts_ordered_and_nonneg (h : Host) (c : Course) (ps : list Player)
    (settings : GameSettings) (r : GameResult) :
  generateGame h c ps settings = Ok r ->
  nonIncreasing (map amount (payouts r))
  /\ Forall (fun x => 0 <= x) (map amount (payouts r)).
Proof.
  intros H.
  destruct (generateGame_Ok _ _ _ _ _ H) as (_ & _ & _ & _ & _ & Hpool & Hp).
  rewrite Hp. unfold payoutsFor, mapi. rewrite map_mapiFrom. simpl.
  rewrite mapiFrom_const, map_id. split.
  - apply roundPayouts_nonIncreasing.
  - apply roundPayouts_nonneg. rewrite Hpool. lia.
Qed.

(* ================================================================= *)
(** * Payout allocator: when the total is kept *)

Lemma clampFrom_again (p p' : Z) (l : list Z) :
  p <= p' -> clampFrom p' (clampFrom p l) = clampFrom p l.
Proof.
  revert p p'. induction l as [|x l IH]; intros p p' Hp; simpl.
  - reflexivity.
  - set (x' := if p <? x then p else x).
    assert (Hx : x' <= p).
    { unfold x'. destruct (p <? x) eqn:E;
        [apply Z.ltb_lt in E|apply Z.ltb_ge in E]; lia. }
    assert (E : (p' <? x') = false) by (apply Z.ltb_ge; lia).
    rewrite E. f_equal. apply IH. lia.
Qed.

(** X2.  The total is kept on every path but one: the fallback when the
    amounts rounded to 5 exceed the pool. *)
Lemma roundPayouts_sum_exact (values : list Q) (total : Z) :
  values <> [] ->
  snd (tryRound values total 10) = total
  \/ snd (tryRound values total 5) <= total ->
  sumZ (roundPayoutsPrefer10Then5 values total) = total.
Proof.
  intros Hne H. unfold roundPayoutsPrefer10Then5.
  destruct (snd (tryRound values total 10) =? total) eqn:E10.
  - apply Z.eqb_eq in E10. exact E10.
  - apply Z.eqb_neq in E10. destruct H as [H|H]; [contradiction|].
    destruct (snd (tryRound values total 5) =? total) eqn:E5; simpl.
    + apply Z.eqb_eq in E5. exact E5.
    + pose proof (tryRound_length values total 5) as Hlen.
      unfold tryRound in *. cbn [fst snd] in *.
      set (adjusted := fst (adjustLoop _ 5 _ _ _)) in *.
      destruct adjusted as [|x l].
      * simpl in Hlen. destruct values; [congruence|discriminate].
      * simpl enforceNonIncreasing in *. simpl updAt.
        simpl enforceNonIncreasing.
        rewrite clampFrom_again by lia.
        rewrite !sumZ_cons in *. lia.
Qed.

(* ================================================================= *)
(** * Payout ratios: the sign of the shares *)

Lemma qmax_floor (share : Q) : (0.05 <= qmax 0.05 share)%Q.
Proof.
  unfold qmax. destruct (Qle_bool 0.05 share) eqn:E.
  - apply Qle_bool_iff. exact E.
  - apply Qle_refl.
Qed.

(** For a whole number of places [k] the test [i === n - 1] is the
    test [i = k - 1]. *)
Lemma taper_test (i k : Z) (n : Q) :
  (n == inject_Z k)%Q ->
  Qeq_bool (inject_Z i) (n - 1) = (i =? k - 1).
Proof.
  intros Hn.
  assert (E : (inject_Z i == n - 1)%Q <-> i = k - 1).
  { rewrite Hn. unfold Qeq, Qminus, Qplus, Qopp, inject_Z.
    cbn -[Z.mul Z.add Z.opp Z.sub]. lia. }
  destruct (i =? k - 1) eqn:Ei.
  - apply Qeq_bool_iff, E, Z.eqb_eq, Ei.
  - apply Qeq_bool_false. intros H. apply E in H.
    apply Z.eqb_neq in Ei. contradiction.
Qed.

(** The loop depends on its bound through the test only. *)
Lemma taperLoop_agree (count : nat) (i : Z) (n n' remaining share : Q) :
  (forall j, Qeq_bool (inject_Z j) (n - 1)
             = Qeq_bool (inject_Z j) (n' - 1)) ->
  taperLoop count i n remaining share = taperLoop count i n' remaining share.
Proof.
  intros H. revert i remaining share.
  induction count as [|count IH]; intros i remaining share;
    cbn [taperLoop]; [reflexivity|].
  rewrite (H i). cbv zeta. f_equal. apply IH.
Qed.

(** With a number of places that is not whole no turn is the last one:
    the loop is the one of any other such number. *)
Lemma taperLoop_fractional (count : nat) (i : Z) (n remaining share : Q) :
  (forall k : Z, ~ (n == inject_Z k)%Q) ->
  taperLoop count i n remaining share
  = taperLoop count i (1 # 2) remaining share.
Proof.
  intros Hn. apply taperLoop_agree. intros j.
  rewrite !Qeq_bool_false; [reflexivity| |].
  - unfold Qeq, Qminus, Qplus, Qopp, inject_Z.
    cbn -[Z.mul Z.add Z.opp Z.sub]. lia.
  - intros H. apply (Hn (j + 1)). rewrite inject_Z_plus.
    rewrite H. change (inject_Z 1) with 1%Q. ring.
Qed.

Lemma taperLoop_step (count : nat) (i k : Z) (n remaining share : Q) :
  (n == inject_Z k)%Q -> i <> k - 1 ->
  taperLoop (S count) i n remaining share
  = qmax 0.05 share
    :: taperLoop count (i + 1) n (remaining - qmax 0.05 share)%Q
         (share * 0.7)%Q.
Proof.
  intros Hn Hi. cbn [taperLoop]. rewrite (taper_test i k n Hn).
  assert (E : (i =? k - 1) = false) by (apply Z.eqb_neq; exact Hi).
  rewrite E. reflexivity.
Qed.

(** From a remainder below zero on, the share left for the last place
    is below zero. *)
Lemma taperLoop_last (count : nat) (i k : Z) (n remaining share : Q) :
  (n == inject_Z k)%Q ->
  i + Z.of_nat count = k - 1 ->
  exists last,
    nth_error (taperLoop (S count) i n remaining share) count = Some last
    /\ (last <= remaining)%Q.
Proof.
  intros Hn. revert i remaining share.
  induction count as [|count IH]; intros i remaining share Hi.
  - cbn [taperLoop]. rewrite (taper_test i k n Hn).
    assert (E : (i =? k - 1) = true) by (apply Z.eqb_eq; lia).
    rewrite E. exists remaining. split; [reflexivity|apply Qle_refl].
  - rewrite (taperLoop_step _ i k) by (exact Hn || lia).
    destruct (IH (i + 1) (remaining - qmax 0.05 share)%Q (share * 0.7)%Q)
      as (last & Hl & Hle); [lia|].
    exists last. split; [exact Hl|].
    pose proof (qmax_floor share). lra.
Qed.

Lemma sumQ_acc (l : list Q) (a : Q) :
  (fold_left Qplus l a == a + sumQ l)%Q.
Proof.
  unfold sumQ. revert a. induction l as [|x l IH]; intros a; simpl.
  - ring.
  - rewrite IH, (IH (0 + x)%Q). ring.
Qed.

Lemma sumQ_cons (x : Q) (l : list Q) : (sumQ (x :: l) == x + sumQ l)%Q.
Proof. unfold sumQ at 1. simpl. rewrite sumQ_acc. ring. Qed.

(** For a whole number of places the shares of the taper sum, before
    the normalisation, to what was left to share: to 1 for the whole
    schedule. *)
Lemma taperLoop_sum (count : nat) (i k : Z) (n remaining share : Q) :
  (n == inject_Z k)%Q ->
  i + Z.of_nat count = k - 1 ->
  (sumQ (taperLoop (S count) i n remaining share) == remaining)%Q.
Proof.
  intros Hn. revert i remaining share.
  induction count as [|count IH]; intros i remaining share Hi.
  - cbn [taperLoop]. rewrite (taper_test i k n Hn).
    assert (E : (i =? k - 1) = true) by (apply Z.eqb_eq; lia).
    rewrite E, sumQ_cons. unfold sumQ. simpl. ring.
  - rewrite (taperLoop_step _ i k) by (exact Hn || lia).
    rewrite sumQ_cons, IH by lia. ring.
Qed.

(** The effective number of places when the smaller of [places] and
    [numTeams] is at most 6. *)
Lemma effective_places_up_to_six (places : Q) (numTeams : Z) :
  (qmin places (inject_Z numTeams) <= 6)%Q ->
  (1 <= qmax 1 (qmin places (inject_Z numTeams)) <= 6)%Q.
Proof.
  intros H.
  destruct (qmax_cases 1 (qmin places (inject_Z numTeams)))
    as [[H1 ->]|[H1 ->]]; split; lra.
Qed.

(** Up to six paid places, whole or not, every share is positive and
    each place gets less than the place before it. *)
Lemma basePayoutRatios_up_to_six (places : Q) (numTeams : Z) :
  (qmin places (inject_Z numTeams) <= 6)%Q ->
  Forall (fun r => (0 < r)%Q) (basePayoutRatios places numTeams)
  /\ StronglySorted (fun a b => (b < a)%Q) (basePayoutRatios places numTeams).
Proof.
  intros H. apply effective_places_up_to_six in H.
  unfold basePayoutRatios.
  generalize dependent (qmax 1 (qmin places (inject_Z numTeams))).
  intros n Hn.
  destruct (Qeq_bool n 1) eqn:E1; [split; repeat constructor|].
  destruct (Qeq_bool n 2) eqn:E2; [split; repeat constructor|].
  destruct (Qeq_bool n 3) eqn:E3; [split; repeat constructor|].
  destruct (Qeq_bool n 4) eqn:E4; [split; repeat constructor|].
  destruct (Qeq_bool n 5) eqn:E5; [split; repeat constructor|].
  cbv zeta. destruct (Qeq_bool n 6) eqn:E6.
  - apply Qeq_bool_iff in E6.
    rewrite (taperLoop_agree _ 0 n 6)
      by (intros j; rewrite E6; reflexivity).
    assert (Ec : Qceiling n = 6) by (rewrite E6; reflexivity).
    rewrite Ec. split; repeat constructor.
  - assert (Hfrac : forall k : Z, ~ (n == inject_Z k)%Q).
    { intros k Hk. destruct Hn as [Hlo Hhi]. rewrite Hk in Hlo, Hhi.
      change 1%Q with (inject_Z 1) in Hlo.
      change 6%Q with (inject_Z 6) in Hhi.
      rewrite <- Zle_Qle in Hlo, Hhi.
      assert (Ek : k = 1 \/ k = 2 \/ k = 3 \/ k = 4 \/ k = 5 \/ k = 6)
        by lia.
      destruct Ek as [->|[->|[->|[->|[->| ->]]]]];
        apply Qeq_bool_iff in Hk; unfold inject_Z in Hk; congruence. }
    assert (Hc : 2 <= Qceiling n <= 6).
    { destruct Hn as [Hlo Hhi]. split.
      - assert (Hlt : (1 < n)%Q).
        { apply Qnot_le_lt. intros Hle. apply (Hfrac 1).
          apply Qle_antisym; [exact Hle|exact Hlo]. }
        assert (Hq : (inject_Z 1 < inject_Z (Qceiling n))%Q)
          by (apply (Qlt_le_trans _ n); [exact Hlt|apply Qle_ceiling]).
        rewrite <- Zlt_Qlt in Hq. lia.
      - apply (Qceiling_resp_le n 6) in Hhi. exact Hhi. }
    rewrite (taperLoop_fractional _ 0 n) by exact Hfrac.
    assert (Ec : Qceiling n = 2 \/ Qceiling n = 3 \/ Qceiling n = 4
                 \/ Qceiling n = 5 \/ Qceiling n = 6) by lia.
    destruct Ec as [->|[->|[->|[->| ->]]]];
      split; repeat constructor.
Qed.

(** Up to six paid places every share is positive. *)
Lemma basePayoutRatios_positive (places : Q) (numTeams : Z) :
  (qmin places (inject_Z numTeams) <= 6)%Q ->
  Forall (fun r => (0 < r)%Q) (basePayoutRatios places numTeams).
Proof. intros H. apply (basePayoutRatios_up_to_six places numTeams H). Qed.

(** From seven paid places on, when their number is whole, the share of
    the last place is negative: the first six shares alone sum to
    1.0294095. *)
Lemma basePayoutRatios_last_negative (places : Q) (numTeams k : Z) :
  (qmin places (inject_Z numTeams) == inject_Z k)%Q ->
  7 <= k ->
  exists last,
    nth_error (basePayoutRatios places numTeams) (Z.to_nat (k - 1))
    = Some last
    /\ (last < 0)%Q.
Proof.
  intros Hk H7. unfold basePayoutRatios.
  assert (Hn : (qmax 1 (qmin places (inject_Z numTeams)) == inject_Z k)%Q).
  { destruct (qmax_cases 1 (qmin places (inject_Z numTeams)))
      as [[_ ->]|[Hlt _]]; [exact Hk|].
    rewrite Hk in Hlt. change 1%Q with (inject_Z 1) in Hlt.
    rewrite <- Zlt_Qlt in Hlt. lia. }
  generalize dependent (qmax 1 (qmin places (inject_Z numTeams))).
  intros n Hn.
  repeat match goal with
  | |- context [if Qeq_bool n ?c then _ else _] =>
      let E := fresh "E" in
      destruct (Qeq_bool n c) eqn:E;
        [exfalso; apply Qeq_bool_iff in E; rewrite Hn in E;
         unfold Qeq, inject_Z in E; cbn -[Z.mul] in E; lia|]
  end.
  cbv zeta.
  assert (Ec : Qceiling n = k) by (rewrite Hn; apply Qceiling_Z).
  rewrite Ec.
  destruct (Z.to_nat k) as [|count] eqn:En; [lia|].
  assert (Hc : 0 + Z.of_nat count = k - 1) by lia.
  pose proof (taperLoop_sum count 0 k n 1 0.35 Hn Hc) as Hsum.
  assert (Hlast : exists last,
             nth_error (taperLoop (S count) 0 n 1 0.35%Q) count = Some last
             /\ (last < 0)%Q).
  { destruct count as [|[|[|[|[|[|m]]]]]]; try lia.
    rewrite !(taperLoop_step _ _ k) by (exact Hn || lia).
    cbn [nth_error].
    match goal with
    | |- context [taperLoop (S m) ?i n ?rem ?share] =>
        destruct (taperLoop_last m i k n rem share Hn ltac:(lia))
          as (last & Hl & Hle);
        assert (Hneg : (rem < 0)%Q) by reflexivity
    end.
    exists last. split; [exact Hl|].
    eapply Qle_lt_trans; [exact Hle|exact Hneg]. }
  destruct Hlast as (last & Hl & Hneg).
  replace (Z.to_nat (k - 1)) with count by lia.
  rewrite nth_error_map, Hl. simpl.
  eexists. split; [reflexivity|].
  apply Qlt_shift_div_r.
  - rewrite Hsum. reflexivity.
  - rewrite Qmult_0_l. exact Hneg.
Qed.

(* ================================================================= *)
(** * Payout ratios: the schedule as a whole *)

(** X4.  Up to six paid places every share is positive and each place gets
    less than the place before it. *)
Theorem payout_schedule_up_to_six (places : Q) (numTeams : Z) :
  (qmin places (inject_Z numTeams) <= 6)%Q ->
  Forall (fun r => (0 < r)%Q) (basePayoutRatios places numTeams)
  /\ StronglySorted (fun a b => (b < a)%Q) (basePayoutRatios places numTeams).
Proof. intros H. apply (basePayoutRatios_up_to_six places numTeams H). Qed.

Lemma payout_schedule_up_to_six_witness :
  Forall (fun r => (0 < r)%Q) (basePayoutRatios 3 8)
  /\ StronglySorted (fun a b => (b < a)%Q) (basePayoutRatios 3 8).
Proof. apply (payout_schedule_up_to_six 3 8). vm_compute. discriminate. Defined.

(** X5.  From seven paid places on, when their number is whole, the last
    place's share is below zero. *)
Theorem payout_schedule_from_seven (places : Q) (numTeams k : Z) :
  (qmin places (inject_Z numTeams) == inject_Z k)%Q ->
  7 <= k ->
  exists last,
    nth_error (basePayoutRatios places numTeams) (Z.to_nat (k - 1))
    = Some last
    /\ (last < 0)%Q.
Proof.
  intros Hk H7. apply (basePayoutRatios_last_negative places numTeams k Hk H7).
Qed.

Lemma payout_schedule_from_seven_witness :
  exists last,
    nth_error (basePayoutRatios 9 8) 7 = Some last /\ (last < 0)%Q.
Proof.
  apply (payout_schedule_from_seven 9 8 8); [reflexivity|lia].
Defined.

(* ================================================================= *)
(** * Team-size planner: the number of teams *)

Lemma fours_sorted (k : Z) (l : list Z) :
  StronglySorted (fun a b => b <= a) l -> Forall (fun x => x <= 4) l ->
  StronglySorted (fun a b => b <= a) (fours k ++ l).
Proof.
  intros Hs Hl. unfold fours.
  induction (Z.to_nat k) as [|m IH]; simpl; [exact Hs|].
  constructor; [exact IH|].
  apply Forall_app. split; [|exact Hl].
  apply Forall_forall. intros x Hx. apply repeat_spec in Hx. lia.
Qed.

(** X6.  For every total [n >= 1] the plan has [ceil(n / 4)] teams, the
    fewest that keep every team at four players or fewer, and lists the
    larger teams first. *)
Theorem determineTeamSizes_count_and_order (n : Z) :
  1 <= n ->
  len (determineTeamSizes n) = (n + 3) / 4
  /\ StronglySorted (fun a b => b <= a) (determineTeamSizes n).
Proof.
  intros Hn. unfold determineTeamSizes.
  destruct (n <=? 4) eqn:E4.
  - apply Z.leb_le in E4. split; [|repeat constructor].
    unfold len. simpl.
    apply (Z.div_unique _ 4 1 (n - 1)); lia.
  - apply Z.leb_gt in E4.
    assert (Hq : 1 <= n / 4) by (apply Z.div_le_lower_bound; lia).
    pose proof (Z.div_mod n 4 ltac:(lia)) as Hd.
    pose proof (Z.mod_pos_bound n 4 ltac:(lia)) as Hm.
    assert (Hl : forall k l, 0 <= k ->
                   len (fours k ++ l) = k + len l).
    { intros k l Hk. unfold len, fours.
      rewrite length_app, repeat_length. lia. }
    set (q := n / 4) in *. clearbody q.
    destruct (n - q * 4 =? 0) eqn:E0.
    { apply Z.eqb_eq in E0. split.
      - rewrite <- (app_nil_r (fours q)), Hl by lia. unfold len. simpl.
        apply (Z.div_unique _ 4 _ 3); lia.
      - rewrite <- (app_nil_r (fours q)). apply fours_sorted; constructor. }
    destruct (n - q * 4 =? 1) eqn:E1.
    { apply Z.eqb_eq in E1. destruct (2 <=? q) eqn:E2.
      - apply Z.leb_le in E2. split.
        + rewrite Hl by lia. unfold len. simpl.
          apply (Z.div_unique _ 4 _ 0); lia.
        + apply fours_sorted; repeat constructor; lia.
      - apply Z.leb_gt in E2. split.
        + unfold len. simpl. apply (Z.div_unique _ 4 _ 0); lia.
        + repeat constructor; lia. }
    destruct (n - q * 4 =? 2) eqn:E2.
    { apply Z.eqb_eq in E2. destruct (1 <=? q) eqn:E3.
      - apply Z.leb_le in E3. split.
        + rewrite Hl by lia. unfold len. simpl.
          apply (Z.div_unique _ 4 _ 1); lia.
        + apply fours_sorted; repeat constructor; lia.
      - apply Z.leb_gt in E3. lia. }
    apply Z.eqb_neq in E0, E1, E2. split.
    + rewrite Hl by lia. unfold len. simpl.
      apply (Z.div_unique _ 4 _ 2); lia.
    + apply fours_sorted; repeat constructor; lia.
Qed.

Lemma determineTeamSizes_count_and_order_witness :
  len (determineTeamSizes 25) = 7
  /\ StronglySorted (fun a b => b <= a) (determineTeamSizes 25).
Proof. apply (determineTeamSizes_count_and_order 25). lia. Defined.

(* ================================================================= *)
(** * Group formation: every group *)

Lemma groupsPush_nonempty (k : string) (p : PlayerWithCH) (m : list Group) :
  Forall (fun g => members g <> []) m ->
  Forall (fun g => members g <> []) (groupsPush k p m).
Proof.
  induction 1 as [|g m Hg Hm IH]; simpl.
  - constructor; [discriminate|constructor].
  - destruct (String.eqb (group_id g) k).
    + constructor; [|exact Hm]. simpl. intros E.
      apply app_eq_nil in E. destruct E as [_ E]. discriminate.
    + constructor; assumption.
Qed.

Lemma groupsMap_nonempty (enriched : list PlayerWithCH) :
  Forall (fun g => members g <> []) (groupsMap enriched).
Proof.
  unfold groupsMap.
  assert (H : forall l m, Forall (fun g => members g <> []) m ->
                Forall (fun g => members g <> [])
                  (fold_left (fun m p => groupsPush (groupKey p) p m) l m)).
  { induction l as [|p l IH]; intros m Hm; simpl; [exact Hm|].
    apply IH, groupsPush_nonempty, Hm. }
  apply H. constructor.
Qed.

(** X7.  The map of groups has one entry per group key; an entry holds the
    players of its key, in roster order, and is never empty; and every
    player is a member of the entry of their key. *)
Theorem groupsMap_entries (enriched : list PlayerWithCH) :
  NoDup (map group_id (groupsMap enriched))
  /\ (forall g, In g (groupsMap enriched) ->
        members g = playersWithKey (group_id g) enriched
        /\ members g <> [])
  /\ (forall p, In p enriched ->
        exists g, In g (groupsMap enriched)
                  /\ group_id g = groupKey p /\ In p (members g)).
Proof.
  destruct (groupsMap_inv enriched) as (Hnd & Hmem & Hkeys).
  pose proof (groupsMap_nonempty enriched) as Hne.
  rewrite Forall_forall in Hne.
  split; [exact Hnd|]. split.
  - intros g Hg. split; [apply Hmem, Hg|apply Hne, Hg].
  - intros p Hp. specialize (Hkeys p Hp).
    apply in_map_iff in Hkeys. destruct Hkeys as (g & Eg & Hg).
    exists g. split; [exact Hg|]. split; [exact Eg|].
    rewrite (Hmem g Hg). unfold playersWithKey. apply filter_In.
    split; [exact Hp|]. rewrite Eg. apply String.eqb_refl.
Qed.

Lemma formGroups_sizes (enriched : list PlayerWithCH) :
  Forall (fun g => 1 <= size g <= 4 /\ size g = len (members g))
         (formGroups enriched).
Proof.
  apply Forall_forall. intros g Hg.
  split; [|apply (formGroups_size enriched g Hg)].
  unfold formGroups in Hg. apply in_flat_map in Hg.
  destruct Hg as (g0 & Hg0 & Hg).
  pose proof (groupsMap_nonempty enriched) as Hne.
  rewrite Forall_forall in Hne. specialize (Hne g0 Hg0).
  unfold emitGroup in Hg.
  destruct (4 <? len (members g0)) eqn:E.
  - apply In_nth_error in Hg. destruct Hg as [k Hk].
    rewrite mapi_nth_error, chunked_nth_error in Hk.
    destruct (4 * k <? length (members g0))%nat eqn:Ek; [|discriminate].
    apply Nat.ltb_lt in Ek. cbn [option_map] in Hk.
    injection Hk as Hk. subst g.
    unfold chunkGroup. cbn [size].
    pose proof (slice_length (4 * k) (members g0) Ek) as Hsl.
    change (k + (k + (k + (k + 0))))%nat with (4 * k)%nat.
    unfold len. lia.
  - apply Z.ltb_ge in E. destruct Hg as [<-|[]]. simpl.
    destruct (members g0); [congruence|]. unfold len in *. simpl in *. lia.
Qed.

(** X8.  Group formation splits the roster into groups of one to four
    players: every player is in exactly one group, and the size a group
    records is the number of its members. *)
Theorem formGroups_partition (enriched : list PlayerWithCH) :
  Permutation (flat_map members (formGroups enriched)) enriched
  /\ Forall (fun g => 1 <= size g <= 4 /\ size g = len (members g))
            (formGroups enriched).
Proof.
  split; [apply formGroups_players|apply formGroups_sizes].
Qed.

(* ================================================================= *)
(** * Shuffling *)

(** X9.  Whatever the source of randomness, [shuffleInPlace] only reorders
    the array. *)
Theorem shuffleInPlace_permutes {A : Type} (h : Host) (arr : list A)
    (rand : Rand) :
  Permutation (fst (shuffleInPlace h arr rand)) arr
  /\ length (fst (shuffleInPlace h arr rand)) = length arr.
Proof.
  assert (H : Permutation (fst (shuffleInPlace h arr rand)) arr)
    by apply shuffleFrom_perm.
  split; [exact H|apply Permutation_length, H].
Qed.

(** X10.  Every draw, seeded or not, lies in [0, 1), and the index that the
    shuffle derives from it for position [i] lies between 0 and [i]. *)
Theorem draws_stay_in_range (h : Host) (rand : Rand) (i : nat) :
  let u := fst (draw h rand) in
  (0 <= u /\ u < 1)%Q
  /\ (Z.to_nat (Js.floor (u * inject_Z (Z.of_nat i + 1))) <= i)%nat.
Proof.
  intros u. pose proof (draw_range h rand) as Hr.
  split; [exact Hr|apply shuffle_index_range, Hr].
Qed.

(* ================================================================= *)
(** * Handicap enrichment: order *)

Lemma round_monotone (x y : Q) : (x <= y)%Q -> Js.round x <= Js.round y.
Proof.
  intros H. unfold Js.round. apply Qfloor_resp_le. lra.
Qed.

(** X11.  With a slope that is not negative, a higher handicap index never
    gives a lower course handicap; and both entry points of the module
    enrich a player alike. *)
Theorem courseHandicap_monotone (c : Course) (p q : Player) :
  (0 <= slopeOrZero c (tee p))%Q ->
  tee p = tee q ->
  (handicapIndex p <= handicapIndex q)%Q ->
  courseHandicap (playerWithCourseHandicap c p)
  <= courseHandicap (playerWithCourseHandicap c q)
  /\ playerWithCourseHandicap c p = computePlayerCH c p.
Proof.
  intros Hs Ht Hh. split; [|reflexivity].
  unfold playerWithCourseHandicap. cbn [courseHandicap].
  unfold courseHandicapFor. rewrite <- Ht.
  apply round_monotone.
  apply Qmult_le_compat_r; [|discriminate].
  apply Qmult_le_compat_r; assumption.
Qed.

Lemma courseHandicap_monotone_witness :
  courseHandicap
    (playerWithCourseHandicap sampleCourse (samplePlayer "1" (-2.5) None))
  <= courseHandicap
       (playerWithCourseHandicap sampleCourse (samplePlayer "2" 7.4 None)).
Proof.
  apply (courseHandicap_monotone sampleCourse
           (samplePlayer "1" (-2.5) None) (samplePlayer "2" 7.4 None)).
  - vm_compute. discriminate.
  - reflexivity.
  - vm_compute. discriminate.
Defined.

(* ================================================================= *)
(** * The balanced policy: which team is picked *)

Lemma bestScan_spec (sz : Z) (remaining : list Z) (m i : nat)
    (bestIdx : option nat) (bestRemain : Z) :
  0 <= sz ->
  (bestIdx = None /\ bestRemain = -1
   /\ forall j r, (j < i)%nat -> nth_error remaining j = Some r -> r < sz)
  \/ (exists k, bestIdx = Some k /\ (k < i)%nat
                /\ nth_error remaining k = Some bestRemain
                /\ sz <= bestRemain
                /\ forall j r, (j < i)%nat ->
                     nth_error remaining j = Some r -> sz <= r ->
                     r <= bestRemain /\ ((j < k)%nat -> r < bestRemain)) ->
  match bestScan (seq i m) remaining sz bestIdx bestRemain with
  | None =>
      forall j r, (j < i + m)%nat -> nth_error remaining j = Some r -> r < sz
  | Some k =>
      exists best,
        (k < i + m)%nat
        /\ nth_error remaining k = Some best
        /\ sz <= best
        /\ forall j r, (j < i + m)%nat ->
             nth_error remaining j = Some r -> sz <= r ->
             r <= best /\ ((j < k)%nat -> r < best)
  end.
Proof.
  intros Hsz. revert i bestIdx bestRemain.
  induction m as [|m IH]; intros i bestIdx bestRemain Inv; simpl.
  - rewrite Nat.add_0_r.
    destruct Inv as [(-> & _ & H)|(k & -> & Hk & Hr & Hle & H)].
    + exact H.
    + exists bestRemain. auto.
  - replace (i + S m)%nat with (S i + m)%nat by lia.
    destruct (nth_error remaining i) as [rem|] eqn:Ei.
    + destruct ((sz <=? rem) && (bestRemain <? rem)) eqn:Eb.
      * apply andb_prop in Eb. destruct Eb as [E1 E2].
        apply Z.leb_le in E1. apply Z.ltb_lt in E2.
        apply IH. right. exists i.
        split; [reflexivity|]. split; [lia|]. split; [exact Ei|].
        split; [exact E1|].
        intros j r Hj Hr Hfit.
        destruct (Nat.eq_dec j i) as [->|Hne].
        -- rewrite Ei in Hr. inversion Hr; subst. split; lia.
        -- destruct Inv as [(_ & _ & H)|(k & _ & Hk & Hrk & Hle & H)].
           ++ specialize (H j r ltac:(lia) Hr). lia.
           ++ destruct (H j r ltac:(lia) Hr Hfit) as [H1 _].
              split; [lia|]. intros _. lia.
      * apply IH.
        destruct Inv as [(-> & -> & H)|(k & -> & Hk & Hrk & Hle & H)].
        -- left. split; [reflexivity|]. split; [reflexivity|].
           intros j r Hj Hr.
           destruct (Nat.eq_dec j i) as [->|Hne];
             [|apply (H j r); [lia|exact Hr]].
           rewrite Ei in Hr. inversion Hr; subst.
           apply andb_false_iff in Eb. destruct Eb as [Eb|Eb].
           ++ apply Z.leb_gt in Eb. exact Eb.
           ++ apply Z.ltb_ge in Eb. lia.
        -- right. exists k.
           split; [reflexivity|]. split; [lia|]. split; [exact Hrk|].
           split; [exact Hle|].
           intros j r Hj Hr Hfit.
           destruct (Nat.eq_dec j i) as [->|Hne];
             [|apply (H j r); [lia|exact Hr|exact Hfit]].
           rewrite Ei in Hr. inversion Hr; subst.
           apply andb_false_iff in Eb. destruct Eb as [Eb|Eb].
           ++ apply Z.leb_gt in Eb. lia.
           ++ apply Z.ltb_ge in Eb. split; [exact Eb|]. intros Hlt. lia.
    + apply IH.
      destruct Inv as [(-> & -> & H)|(k & -> & Hk & Hrk & Hle & H)].
      * left. split; [reflexivity|]. split; [reflexivity|].
        intros j r Hj Hr.
        destruct (Nat.eq_dec j i) as [->|Hne]; [congruence|].
        apply (H j r); [lia|exact Hr].
      * right. exists k.
        split; [reflexivity|]. split; [lia|]. split; [exact Hrk|].
        split; [exact Hle|].
        intros j r Hj Hr Hfit.
        destruct (Nat.eq_dec j i) as [->|Hne]; [congruence|].
        apply (H j r); [lia|exact Hr|exact Hfit].
Qed.

(** X12.  The balanced policy puts a group into the team with the largest
    remaining capacity among the teams that can hold it, the leftmost
    such team on a tie; it finds no team only when the group fits none.
    The second scan of the source, from the left, never decides. *)
Theorem pickBalanced_largest_remaining (st : Placement) (g : Group) :
  0 <= size g ->
  length (fst st) = length (snd st) ->
  match pickBalanced st g with
  | Some k =>
      exists best,
        nth_error (snd st) k = Some best
        /\ size g <= best
        /\ forall j r, nth_error (snd st) j = Some r -> size g <= r ->
             r <= best /\ ((j < k)%nat -> r < best)
  | None => forall j r, nth_error (snd st) j = Some r -> r < size g
  end.
Proof.
  intros Hsz Hlen. unfold pickBalanced, teamIndices.
  pose proof (bestScan_spec (size g) (snd st) (length (fst st)) 0 None (-1)
                Hsz) as H.
  assert (Hin : forall j r, nth_error (snd st) j = Some r ->
                  (j < 0 + length (fst st))%nat).
  { intros j r Hr. assert (Hn : nth_error (snd st) j <> None) by congruence.
    apply nth_error_Some in Hn. lia. }
  destruct (bestScan (seq 0 (length (fst st))) (snd st) (size g) None (-1))
    as [k|].
  - destruct H as (best & Hk & Hr & Hle & H).
    { left. split; [reflexivity|]. split; [reflexivity|].
      intros j r Hj. lia. }
    exists best. split; [exact Hr|]. split; [exact Hle|].
    intros j r Hjr Hfit. apply (H j r); [apply (Hin j r Hjr)|exact Hjr|exact Hfit].
  - assert (Hnone : forall j r, nth_error (snd st) j = Some r -> r < size g).
    { intros j r Hr. apply (H ltac:(left; split; [reflexivity|];
                                     split; [reflexivity|]; intros; lia) j r);
        [apply (Hin j r Hr)|exact Hr]. }
    destruct (firstFit (seq 0 (length (fst st))) (snd st) (size g))
      as [k|] eqn:Ef; [|exact Hnone].
    destruct (firstFit_sound _ _ _ _ Ef) as (r & Hr & Hle).
    specialize (Hnone k r Hr). lia.
Qed.

Lemma pickBalanced_largest_remaining_witness :
  let st := (teamsInit [2; 4; 3; 4], [2; 4; 3; 4]) in
  let g := {| group_id := "g"; members := []; size := 3; strength := 0 |} in
  pickBalanced st g = Some 1%nat
  /\ match pickBalanced st g with
     | Some k =>
         exists best,
           nth_error (snd st) k = Some best
           /\ size g <= best
           /\ forall j r, nth_error (snd st) j = Some r -> size g <= r ->
                r <= best /\ ((j < k)%nat -> r < best)
     | None => forall j r, nth_error (snd st) j = Some r -> r < size g
     end.
Proof.
  intros st g. split; [reflexivity|].
  apply (pickBalanced_largest_remaining st g); [simpl; lia|reflexivity].
Defined.

(* ================================================================= *)
(** * Results: team sizes, linked players, errors *)

Lemma generateGame_teams (h : Host) (c : Course) (ps : list Player)
    (settings : GameSettings) (r : GameResult) :
  generateGame h c ps settings = Ok r ->
  let enriched := map (computePlayerCH c) ps in
  exists (ts : list Team) (book : list (Z * list Group)),
    Permutation (map players (teams r)) (map players ts)
    /\ map players ts = map (fun e => flat_map members (snd e)) book
    /\ Permutation (flat_map snd book) (formGroups enriched)
    /\ map (fun t => len (players t)) ts
       = determineTeamSizes (len enriched).
Proof.
  intros H enriched.
  destruct (generateGame_Ok _ _ _ _ _ H) as (ts & rem & Ha & Ht & _).
  destruct (assignment_exact _ _ _ _ _ Ha) as (book & Hp & Hgs & Hsz).
  exists ts, book. split; [|auto].
  rewrite Ht, sortTeams_players, map_map. apply Permutation_refl.
Qed.

(** X13.  In every result no team has more than four players, and as soon as
    the roster has two players no team has fewer than two. *)
Theorem team_sizes_in_results (h : Host) (c : Course) (ps : list Player)
    (settings : GameSettings) (r : GameResult) :
  generateGame h c ps settings = Ok r ->
  Forall (fun t => len (players t) <= 4) (teams r)
  /\ ((2 <= length ps)%nat ->
      Forall (fun t => 2 <= len (players t)) (teams r)).
Proof.
  intros H.
  destruct (generateGame_teams _ _ _ _ _ H) as (ts & book & HT & _ & _ & Hsz).
  assert (Hlen : Permutation (map (fun t => len (players t)) (teams r))
                             (determineTeamSizes (len (map (computePlayerCH c) ps)))).
  { rewrite <- Hsz. rewrite <- !(map_map players (fun l => len l)).
    apply Permutation_map, HT. }
  set (n := len (map (computePlayerCH c) ps)) in *.
  assert (En : n = Z.of_nat (length ps))
    by (unfold n, len; rewrite length_map; reflexivity).
  assert (Hall : forall P : Z -> Prop,
            Forall P (determineTeamSizes n) ->
            Forall (fun t => P (len (players t))) (teams r)).
  { intros P HP.
    apply (Permutation_Forall (Permutation_sym Hlen)) in HP.
    rewrite Forall_map in HP. exact HP. }
  split.
  - apply (Hall (fun x => x <= 4)). apply Forall_forall. intros x Hx.
    destruct (Z_le_gt_dec n 4) as [H4|H4].
    + unfold determineTeamSizes in Hx.
      assert (E : (n <=? 4) = true) by (apply Z.leb_le; exact H4).
      rewrite E in Hx. destruct Hx as [<-|[]]. exact H4.
    + destruct (determineTeamSizes_members n x ltac:(lia) Hx)
        as [[?|?]|[? _]]; lia.
  - intros H2. apply (Hall (fun x => 2 <= x)). apply Forall_forall.
    intros x Hx. destruct (Z_le_gt_dec n 4) as [H4|H4].
    + unfold determineTeamSizes in Hx.
      assert (E : (n <=? 4) = true) by (apply Z.leb_le; exact H4).
      rewrite E in Hx. destruct Hx as [<-|[]]. lia.
    + destruct (determineTeamSizes_members n x ltac:(lia) Hx)
        as [[?|?]|[? _]]; lia.
Qed.

Lemma team_sizes_in_results_witness :
  exists r,
    generateGame sampleHost sampleCourse (rosterOf 25)
      (sampleSettings 1 None None (Some 7)) = Ok r
    /\ Forall (fun t => len (players t) <= 4) (teams r).
Proof.
  destruct (generateGame sampleHost sampleCourse (rosterOf 25)
              (sampleSettings 1 None None (Some 7))) as [r|msg] eqn:E;
    [|vm_compute in E; discriminate].
  exists r. split; [reflexivity|].
  apply (team_sizes_in_results _ _ _ _ r E).
Defined.

Lemma groups_stay_whole (h : Host) (c : Course) (ps : list Player)
    (settings : GameSettings) (r : GameResult) (g : Group) :
  generateGame h c ps settings = Ok r ->
  In g (formGroups (map (computePlayerCH c) ps)) ->
  exists t, In t (teams r) /\ incl (members g) (players t).
Proof.
  intros H Hg.
  destruct (generateGame_teams _ _ _ _ _ H) as (ts & book & HT & Hp & Hgs & _).
  apply (Permutation_in _ (Permutation_sym Hgs)) in Hg.
  apply in_flat_map in Hg. destruct Hg as (e & He & Hg).
  assert (Hin : In (flat_map members (snd e)) (map players (teams r))).
  { apply (Permutation_in _ (Permutation_sym HT)). rewrite Hp.
    apply (in_map (fun e => flat_map members (snd e))). exact He. }
  apply in_map_iff in Hin. destruct Hin as (t & Et & Hin).
  exists t. split; [exact Hin|].
  intros x Hx. rewrite Et. apply in_flat_map. exists g. auto.
Qed.

(** X14.  Linked players stay together: when the players that share a group
    key are at most four, every result has all of them in one team. *)
Theorem linked_players_share_a_team (h : Host) (c : Course)
    (ps : list Player) (settings : GameSettings) (r : GameResult)
    (gid : string) :
  generateGame h c ps settings = Ok r ->
  (length (playersWithKey gid (map (computePlayerCH c) ps)) <= 4)%nat ->
  exists t,
    In t (teams r)
    /\ forall p, In p ps -> linkGroupId p = Some gid ->
         In (computePlayerCH c p) (players t).
Proof.
  intros H Hsize. set (enriched := map (computePlayerCH c) ps) in *.
  destruct (groupsMap_inv enriched) as (_ & Hmem & Hkeys).
  destruct (in_dec string_dec gid (map group_id (groupsMap enriched)))
    as [Hin|Hout].
  - apply in_map_iff in Hin. destruct Hin as (g0 & Eg & Hg0).
    pose proof (Hmem g0 Hg0) as Em. rewrite Eg in Em.
    assert (Hemit : exists g, In g (formGroups enriched)
                              /\ members g = members g0).
    { unfold formGroups. unfold emitGroup.
      assert (E : (4 <? len (members g0)) = false)
        by (apply Z.ltb_ge; unfold len; rewrite Em; lia).
      eexists. split.
      - apply in_flat_map. exists g0. split; [exact Hg0|].
        unfold emitGroup. rewrite E. left. reflexivity.
      - reflexivity. }
    destruct Hemit as (g & Hg & Eg').
    destruct (groups_stay_whole h c ps settings r g H Hg) as (t & Ht & Hincl).
    exists t. split; [exact Ht|].
    intros p Hp Hl. apply Hincl. rewrite Eg', Em.
    unfold playersWithKey. apply filter_In. split.
    + apply in_map. exact Hp.
    + unfold groupKey. simpl. rewrite Hl. apply String.eqb_refl.
  - (* nobody has this key *)
    destruct (generateGame_Ok _ _ _ _ _ H) as (ts & rem & Ha & Ht & _).
    pose proof (generateGame_team_count _ _ _ _ _ H) as Hn.
    pose proof (determineTeamSizes_nonempty (len enriched)) as H1.
    destruct (teams r) as [|t rest] eqn:Et; [simpl in Hn; fold enriched in Hn; lia|].
    exists t. split; [left; reflexivity|].
    intros p Hp Hl. exfalso. apply Hout.
    replace gid with (groupKey (computePlayerCH c p))
      by (unfold groupKey; simpl; rewrite Hl; reflexivity).
    apply Hkeys. apply in_map. exact Hp.
Qed.

Lemma linked_players_share_a_team_witness :
  exists r t,
    generateGame sampleHost sampleCourse
      (roster5linked ++ roster8) (sampleSettings 20 None None None) = Ok r
    /\ In t (teams r)
    /\ forall p, In p (roster5linked ++ roster8) ->
         linkGroupId p = Some "a"%string ->
         In (computePlayerCH sampleCourse p) (players t).
Proof.
  destruct (generateGame sampleHost sampleCourse (roster5linked ++ roster8)
              (sampleSettings 20 None None None)) as [r|msg] eqn:E;
    [|vm_compute in E; discriminate].
  destruct (linked_players_share_a_team _ _ _ _ r "a"%string E) as (t & Ht & Hall).
  - vm_compute. lia.
  - exists r, t. split; [reflexivity|]. split; assumption.
Defined.

(* ================================================================= *)
(** * The only failure *)

Lemma load_nonneg (gs : list Group) :
  Forall (fun g => 1 <= size g) gs -> 0 <= load gs.
Proof.
  induction 1 as [|g gs Hg _ IH]; [rewrite load_nil|rewrite load_cons]; lia.
Qed.

Lemma assignBalanced_error (gs : list Group) (st : Placement) (msg : string) :
  Capacity st -> Forall (fun g => 1 <= size g) gs ->
  load gs <= sumZ (snd st) ->
  assignBalanced gs st = Err msg ->
  exists g, In g gs /\ msg = unableToPlace g /\ 2 <= size g.
Proof.
  revert st. induction gs as [|g gs IH]; intros st Hc Hg Hs; simpl.
  - discriminate.
  - inversion Hg as [|? ? Hg1 Hgs]; subst. rewrite load_cons in Hs.
    pose proof (load_nonneg gs Hgs) as H0.
    destruct (pickBalanced st g) as [idx|] eqn:E.
    + destruct (pickBalanced_sound _ _ _ E) as (r' & Hr' & Hle).
      destruct (placeAt_Capacity idx g st r' Hc Hr' Hle) as [Hc' Hs'].
      intros Herr.
      destruct (IH _ Hc' Hgs ltac:(lia) Herr) as (g' & Hin & Em & H2).
      exists g'. split; [right; exact Hin|auto].
    + intros Herr. inversion Herr; subst. exists g.
      split; [left; reflexivity|]. split; [reflexivity|].
      destruct (Z_le_gt_dec 2 (size g)) as [H2|H2]; [exact H2|].
      exfalso.
      destruct (positive_entry (snd st) (proj2 Hc) ltac:(lia))
        as (k & r & Hk & Hr).
      apply (pickBalanced_complete st g k r (proj1 Hc) Hk); [lia|exact E].
Qed.

Lemma assignRandomized_error (h : Host) (gs : list Group) (st : Placement)
    (rand : Rand) (msg : string) :
  Capacity st -> Forall (fun g => 1 <= size g) gs ->
  load gs <= sumZ (snd st) ->
  assignRandomized h gs st rand = Err msg ->
  exists g, In g gs /\ msg = unableToPlace g /\ 2 <= size g.
Proof.
  revert st rand. induction gs as [|g gs IH]; intros st rand Hc Hg Hs; simpl.
  - discriminate.
  - inversion Hg as [|? ? Hg1 Hgs]; subst. rewrite load_cons in Hs.
    pose proof (load_nonneg gs Hgs) as H0.
    pose proof (pickRandomized_sound h st g rand) as Hsound.
    pose proof (fun k r Hk Hr =>
                  pickRandomized_complete h st g rand k r (proj1 Hc) Hk Hr)
      as Hcomp.
    destruct (pickRandomized h st g rand) as [[idx|] rand']; simpl in *.
    + destruct (Hsound idx eq_refl) as (r' & Hr' & Hle).
      destruct (placeAt_Capacity idx g st r' Hc Hr' Hle) as [Hc' Hs'].
      intros Herr.
      destruct (IH _ _ Hc' Hgs ltac:(lia) Herr) as (g' & Hin & Em & H2).
      exists g'. split; [right; exact Hin|auto].
    + intros Herr. inversion Herr; subst. exists g.
      split; [left; reflexivity|]. split; [reflexivity|].
      destruct (Z_le_gt_dec 2 (size g)) as [H2|H2]; [exact H2|].
      exfalso.
      destruct (positive_entry (snd st) (proj2 Hc) ltac:(lia))
        as (k & r & Hk & Hr).
      apply (Hcomp k r Hk); [lia|reflexivity].
Qed.

(** X15.  [generateGame] fails in one way only: a group of two to four players
    fits no team when its turn comes, and the message names the size of
    that group.  A single player is always placed. *)
Theorem generateGame_only_failure (h : Host) (c : Course) (ps : list Player)
    (settings : GameSettings) (msg : string) :
  generateGame h c ps settings = Err msg ->
  exists g,
    In g (formGroups (map (computePlayerCH c) ps))
    /\ 2 <= size g <= 4
    /\ msg = ("Unable to place group of size " ++ Js.showZ (size g)
              ++ " within team capacities")%string.
Proof.
  intros H. rewrite generateGame_unfold in H. cbv zeta in H.
  set (enriched := map (computePlayerCH c) ps) in *.
  pose proof (formGroups_sizes enriched) as Hsizes.
  pose proof (orderGroups_perm h settings (formGroups enriched)) as Hperm.
  set (ordered := orderGroups h settings (formGroups enriched)) in *.
  assert (Hn : 0 <= len enriched) by (unfold len; lia).
  assert (Hone : Forall (fun g => 1 <= size g) (fst ordered)).
  { apply (Permutation_Forall (Permutation_sym Hperm)).
    apply (Forall_impl _ (fun g Hg => proj1 (proj1 Hg)) Hsizes). }
  assert (Hload : load (fst ordered)
                  <= sumZ (determineTeamSizes (len enriched)))
    by (rewrite (load_perm _ _ Hperm), formGroups_load,
          determineTeamSizes_sum; lia).
  assert (Herr : assignGroups h settings (fst ordered) (snd ordered)
                   (teamsInit (determineTeamSizes (len enriched)),
                    determineTeamSizes (len enriched)) = Err msg).
  { destruct (assignGroups h settings (fst ordered) (snd ordered) _)
      as [[ts rem]|m]; [discriminate|congruence]. }
  assert (Hg : exists g, In g (fst ordered) /\ msg = unableToPlace g
                         /\ 2 <= size g).
  { unfold assignGroups in Herr. destruct (randomize settings).
    - apply (assignRandomized_error h _ _ _ msg
               (teamsInit_Capacity _ Hn) Hone Hload Herr).
    - apply (assignBalanced_error _ _ msg
               (teamsInit_Capacity _ Hn) Hone Hload Herr). }
  destruct Hg as (g & Hin & Em & H2).
  apply (Permutation_in _ Hperm) in Hin.
  exists g. split; [exact Hin|].
  rewrite Forall_forall in Hsizes. destruct (Hsizes g Hin) as [[_ H4] _].
  split; [lia|exact Em].
Qed.

Lemma generateGame_only_failure_witness :
  exists g,
    In g (formGroups (map (computePlayerCH sampleCourse) roster5linked))
    /\ 2 <= size g <= 4
    /\ "Unable to place group of size 4 within team capacities"%string
       = ("Unable to place group of size " ++ Js.showZ (size g)
          ++ " within team capacities")%string.
Proof.
  apply (generateGame_only_failure sampleHost sampleCourse roster5linked
           (sampleSettings 20 None None None)).
  vm_compute. reflexivity.
Defined.

(* ================================================================= *)
(** * Scorecards: strokes on a hole *)

Lemma strokesLoop_spec (fuel : nat) (ch si s : Z) :
  1 <= si -> 0 <= s ->
  let target := if si <=? ch then (ch - si) / 18 + 1 else 0 in
  s <= target -> (Z.to_nat (target - s) <= fuel)%nat ->
  strokesLoop fuel ch si s = target.
Proof.
  intros Hsi. revert s. induction fuel as [|fuel IH]; intros s Hs target Hle Hf.
  - simpl. lia.
  - simpl. destruct (si <=? ch - s * 18) eqn:E.
    + apply Z.leb_le in E.
      assert (Hlt : s < target).
      { unfold target. destruct (si <=? ch) eqn:E'.
        - assert (s <= (ch - si) / 18)
            by (apply Z.div_le_lower_bound; lia). lia.
        - apply Z.leb_gt in E'. lia. }
      apply IH; fold target; lia.
    + apply Z.leb_gt in E.
      assert (Hge : target <= s).
      { unfold target. destruct (si <=? ch) eqn:E'; [|lia].
        assert ((ch - si) / 18 < s)
          by (apply Z.div_lt_upper_bound; lia). lia. }
      lia.
Qed.

Lemma strokesLoop_value (ch si : Z) (fuel : nat) :
  1 <= si -> (Z.to_nat ch <= fuel)%nat ->
  strokesLoop fuel ch si 0
  = if si <=? ch then (ch - si) / 18 + 1 else 0.
Proof.
  intros Hsi Hf. apply strokesLoop_spec; try lia.
  - destruct (si <=? ch) eqn:E; [|lia].
    apply Z.leb_le in E.
    assert (0 <= (ch - si) / 18) by (apply Z.div_pos; lia). lia.
  - destruct (si <=? ch) eqn:E; [|lia].
    apply Z.leb_le in E.
    assert ((ch - si) / 18 < ch)
      by (apply Z.div_lt_upper_bound; lia). lia.
Qed.

Lemma strokesOnHole_value (ch si : Z) :
  1 <= si ->
  strokesOnHole ch (Some si)
  = if si <=? ch then (ch - si) / 18 + 1 else 0.
Proof.
  intros Hsi. unfold strokesOnHole.
  replace ((si =? 0) || (si <=? 0)) with false
    by (symmetry; apply orb_false_iff; split;
        [apply Z.eqb_neq|apply Z.leb_gt]; lia).
  destruct (ch <=? 0) eqn:E0.
  - apply Z.leb_le in E0.
    replace (si <=? ch) with false by (symmetry; apply Z.leb_gt; lia).
    reflexivity.
  - apply strokesLoop_value; lia.
Qed.

(** X16.  On a hole with stroke index [si >= 1] a player with course handicap
    [ch] receives [floor((ch - si) / 18) + 1] strokes when [si <= ch] and
    none otherwise; the loop has left by then, so that more turns change
    nothing. *)
Theorem strokesOnHole_closed_form (ch si : Z) (fuel : nat) :
  1 <= si -> (Z.to_nat ch <= fuel)%nat ->
  strokesOnHole ch (Some si)
  = (if si <=? ch then (ch - si) / 18 + 1 else 0)
  /\ strokesLoop fuel ch si 0 = strokesOnHole ch (Some si).
Proof.
  intros Hsi Hf. split; [apply strokesOnHole_value, Hsi|].
  rewrite strokesOnHole_value by exact Hsi.
  apply strokesLoop_value; assumption.
Qed.

Lemma strokesOnHole_closed_form_witness :
  strokesOnHole 40 (Some 3) = 3 /\ strokesLoop 100 40 3 0 = strokesOnHole 40 (Some 3).
Proof.
  apply (strokesOnHole_closed_form 40 3 100); [lia|vm_compute; lia].
Defined.

(** No strokes are given on a hole without a stroke index, or with one
    that is zero or negative, nor to a player whose course handicap is
    zero or negative. *)
Lemma strokesOnHole_none (ch : Z) (si : option Z) :
  match si with Some i => i <= 0 | None => True end \/ ch <= 0 ->
  strokesOnHole ch si = 0.
Proof.
  intros H. unfold strokesOnHole. destruct si as [i|]; [|reflexivity].
  destruct ((i =? 0) || (i <=? 0)) eqn:E; [reflexivity|].
  apply orb_false_iff in E. destruct E as [_ E]. apply Z.leb_gt in E.
  destruct H as [H|H]; [lia|].
  replace (ch <=? 0) with true by (symmetry; apply Z.leb_le; lia).
  reflexivity.
Qed.

Lemma strokes_hermite (ch : Z) :
  0 <= ch ->
  sumZ (map (fun si => (ch + 18 - si) / 18) (oneTo 18)) = ch.
Proof.
  intros H.
  pose proof (Z.div_mod ch 18 ltac:(lia)) as Hd.
  pose proof (Z.mod_pos_bound ch 18 ltac:(lia)) as Hm.
  set (q := ch / 18) in *. set (r := ch mod 18) in *. clearbody q r.
  subst ch.
  assert (E18 : oneTo 18
                = [1; 2; 3; 4; 5; 6; 7; 8; 9; 10; 11; 12; 13; 14; 15; 16;
                   17; 18]) by reflexivity.
  rewrite E18. cbn [map]. rewrite !sumZ_cons. change (sumZ []) with 0.
  assert (Hk : forall c d, 0 <= c -> d = c / 18 ->
            (18 * q + c) / 18 = q + d).
  { intros c d Hc ->. replace (18 * q + c) with (q * 18 + c) by lia.
    rewrite Z.div_add_l by lia. reflexivity. }
  assert (E : r = 0 \/ r = 1 \/ r = 2 \/ r = 3 \/ r = 4 \/ r = 5 \/ r = 6
              \/ r = 7 \/ r = 8 \/ r = 9 \/ r = 10 \/ r = 11 \/ r = 12
              \/ r = 13 \/ r = 14 \/ r = 15 \/ r = 16 \/ r = 17) by lia.
  repeat (destruct E as [E|E]);
    subst r;
    repeat match goal with
           | |- context [(18 * q + ?a + 18 - ?b) / 18] =>
               let d := eval vm_compute in ((a + 18 - b) / 18) in
               replace ((18 * q + a + 18 - b) / 18) with (q + d)
                 by (symmetry;
                     replace (18 * q + a + 18 - b)
                       with (18 * q + (a + 18 - b)) by lia;
                     apply Hk; [lia|reflexivity])
           end;
    lia.
Qed.

(** X17.  On a card whose holes carry the stroke indices 1 to 18, once each,
    the strokes on a player's row add up to the player's course handicap,
    and to nothing for a course handicap below zero. *)
Theorem strokesRow_total (c : Course) (card : list CardHole)
    (p : PlayerWithCH) :
  Permutation (map card_strokeIndex card) (map Some (oneTo 18)) ->
  sumZ (strokesRow c card p)
  = Z.max 0 (courseHandicapFor c (handicapIndex (player p)) (tee (player p))).
Proof.
  intros Hp. unfold strokesRow.
  set (ch := courseHandicapFor _ _ _). clearbody ch.
  rewrite <- (map_map card_strokeIndex (strokesOnHole ch)).
  rewrite (sumZ_perm _ _ (Permutation_map (strokesOnHole ch) Hp)).
  rewrite map_map.
  destruct (Z_le_gt_dec ch 0) as [H0|H0].
  - replace (Z.max 0 ch) with 0 by lia.
    rewrite (map_ext _ (fun _ => 0))
      by (intros si; apply strokesOnHole_none; right; exact H0).
    reflexivity.
  - replace (Z.max 0 ch) with ch by lia.
    transitivity (sumZ (map (fun si => (ch + 18 - si) / 18) (oneTo 18)));
      [|apply strokes_hermite; lia].
    f_equal. apply map_ext_in. intros si Hsi.
    assert (Hr : 1 <= si <= 18).
    { unfold oneTo in Hsi. apply in_map_iff in Hsi.
      destruct Hsi as (k & <- & Hk). apply in_seq in Hk. lia. }
    pose proof (strokesOnHole_value ch si ltac:(lia)) as E.
    rewrite E. destruct (si <=? ch) eqn:E'.
    + apply Z.leb_le in E'.
      replace (ch + 18 - si) with (1 * 18 + (ch - si)) by lia.
      rewrite Z.div_add_l by lia. lia.
    + apply Z.leb_gt in E'. symmetry. apply Z.div_small. lia.
Qed.

Lemma strokesRow_total_witness :
  sumZ (strokesRow sampleCourse
          (holes18 [{| hole_number := 1; hole_par := 5;
                       hole_strokeIndex := Some 1; hole_yardage := None |}])
          (computePlayerCH sampleCourse (samplePlayer "1" 21.3 None)))
  = Z.max 0 (courseHandicapFor sampleCourse 21.3 white).
Proof.
  apply (strokesRow_total sampleCourse
           (holes18 [{| hole_number := 1; hole_par := 5;
                        hole_strokeIndex := Some 1; hole_yardage := None |}])
           (computePlayerCH sampleCourse (samplePlayer "1" 21.3 None))).
  vm_compute. apply Permutation_refl.
Defined.

(** X18.  The card prints at most three dots: the dots on a hole are the
    strokes received exactly when the course handicap is less than 54
    above the stroke index. *)
Theorem dots_show_strokes (ch si : Z) :
  1 <= si ->
  dots (strokesOnHole ch (Some si)) = strokesOnHole ch (Some si)
  <-> ch < si + 54.
Proof.
  intros Hsi.
  pose proof (strokesOnHole_value ch si Hsi) as E.
  rewrite E. unfold dots. destruct (si <=? ch) eqn:E'.
  - apply Z.leb_le in E'.
    assert (H0 : 0 <= (ch - si) / 18) by (apply Z.div_pos; lia).
    replace (0 <? (ch - si) / 18 + 1) with true
      by (symmetry; apply Z.ltb_lt; lia).
    split; intros H.
    + pose proof (Z.div_mod (ch - si) 18 ltac:(lia)) as Hd.
      pose proof (Z.mod_pos_bound (ch - si) 18 ltac:(lia)) as Hm. lia.
    + assert ((ch - si) / 18 < 3)
        by (apply Z.div_lt_upper_bound; lia). lia.
  - apply Z.leb_gt in E'. simpl. split; intros; [lia|reflexivity].
Qed.

Lemma dots_show_strokes_witness :
  dots (strokesOnHole 55 (Some 1)) = strokesOnHole 55 (Some 1) <-> 55 < 1 + 54.
Proof. apply (dots_show_strokes 55 1). lia. Defined.

(* ================================================================= *)
(** * JavaScript maps *)

Lemma find_app {A : Type} (p : A -> bool) (l1 l2 : list A) :
  find p (l1 ++ l2)
  = match find p l1 with Some x => Some x | None => find p l2 end.
Proof.
  induction l1 as [|x l1 IH]; simpl; [reflexivity|].
  destruct (p x); [reflexivity|exact IH].
Qed.

Section Maps.

Context {K V : Type}.
Variable eqb : K -> K -> bool.
Hypothesis eqb_spec : forall a b, eqb a b = true <-> a = b.

Lemma eqb_same (a : K) : eqb a a = true.
Proof. apply eqb_spec. reflexivity. Qed.

Lemma eqb_diff (a b : K) : a <> b -> eqb a b = false.
Proof.
  intros H. destruct (eqb a b) eqn:E; [|reflexivity].
  apply eqb_spec in E. contradiction.
Qed.

Lemma mapGet_mapSet_same (k : K) (v : V) (m : list (K * V)) :
  mapGet eqb k (mapSet eqb k v m) = Some v.
Proof.
  induction m as [|[k' v'] m IH]; simpl.
  - rewrite eqb_same. reflexivity.
  - destruct (eqb k' k) eqn:E; simpl; rewrite E; [reflexivity|exact IH].
Qed.

Lemma mapGet_mapSet_other (k k' : K) (v : V) (m : list (K * V)) :
  k <> k' -> mapGet eqb k' (mapSet eqb k v m) = mapGet eqb k' m.
Proof.
  intros Hk. induction m as [|[k0 v0] m IH]; simpl.
  - rewrite eqb_diff by exact Hk. reflexivity.
  - destruct (eqb k0 k) eqn:E; simpl.
    + apply eqb_spec in E. subst k0. rewrite eqb_diff by exact Hk.
      reflexivity.
    + destruct (eqb k0 k'); [reflexivity|exact IH].
Qed.

Lemma mapSet_keys (k : K) (v : V) (m : list (K * V)) (k' : K) :
  In k' (map fst (mapSet eqb k v m)) <-> k' = k \/ In k' (map fst m).
Proof.
  induction m as [|[k0 v0] m IH]; simpl.
  - intuition.
  - destruct (eqb k0 k) eqn:E; simpl.
    + apply eqb_spec in E. subst k0. intuition.
    + rewrite IH. intuition.
Qed.

Lemma mapSet_NoDup (k : K) (v : V) (m : list (K * V)) :
  NoDup (map fst m) -> NoDup (map fst (mapSet eqb k v m)).
Proof.
  induction m as [|[k0 v0] m IH]; simpl; intros H.
  - constructor; [intros []|constructor].
  - inversion H as [|? ? Hn Hm]; subst.
    destruct (eqb k0 k) eqn:E; simpl.
    + constructor; assumption.
    + constructor; [|apply IH, Hm].
      rewrite mapSet_keys. intros [->|Hin]; [|contradiction].
      rewrite eqb_same in E. discriminate.
Qed.

Lemma mapSet_mapSet (k : K) (v1 v2 : V) (m : list (K * V)) :
  mapSet eqb k v2 (mapSet eqb k v1 m) = mapSet eqb k v2 m.
Proof.
  induction m as [|[k0 v0] m IH]; simpl.
  - rewrite eqb_same. reflexivity.
  - destruct (eqb k0 k) eqn:E; simpl; rewrite E; [reflexivity|].
    f_equal. exact IH.
Qed.

Lemma mapGet_In (k : K) (v : V) (m : list (K * V)) :
  mapGet eqb k m = Some v -> In (k, v) m.
Proof.
  induction m as [|[k0 v0] m IH]; simpl; [discriminate|].
  destruct (eqb k0 k) eqn:E.
  - apply eqb_spec in E. subst k0. intros H. injection H as ->.
    left. reflexivity.
  - intros H. right. apply IH, H.
Qed.

Lemma In_mapGet (k : K) (v : V) (m : list (K * V)) :
  NoDup (map fst m) -> In (k, v) m -> mapGet eqb k m = Some v.
Proof.
  induction m as [|[k0 v0] m IH]; simpl; intros Hn Hin; [contradiction|].
  inversion Hn as [|? ? Hk Hm]; subst.
  destruct Hin as [E|Hin].
  - injection E as -> ->. rewrite eqb_same. reflexivity.
  - destruct (eqb k0 k) eqn:E.
    + apply eqb_spec in E. subst k0. exfalso. apply Hk.
      apply in_map_iff. exists (k, v). split; [reflexivity|exact Hin].
    + apply IH; assumption.
Qed.

Lemma mapGet_None (k : K) (m : list (K * V)) :
  mapGet eqb k m = None <-> ~ In k (map fst m).
Proof.
  induction m as [|[k0 v0] m IH]; simpl.
  - intuition.
  - destruct (eqb k0 k) eqn:E.
    + apply eqb_spec in E. subst k0. split; [discriminate|].
      intros H. exfalso. apply H. left. reflexivity.
    + rewrite IH. split.
      * intros H [E'|Hin]; [|contradiction].
        subst k0. rewrite eqb_same in E. discriminate.
      * intros H Hin. apply H. right. exact Hin.
Qed.

(** A run of [set] calls, one per element of [xs]: a key is then mapped
    to the value of the last element with that key, and otherwise to what
    it was mapped to before. *)
Lemma mapGet_fold {X : Type} (key : X -> K) (val : X -> V) (xs : list X)
    (m : list (K * V)) (k : K) :
  mapGet eqb k
    (fold_left (fun m x => mapSet eqb (key x) (val x) m) xs m)
  = match find (fun x => eqb (key x) k) (rev xs) with
    | Some x => Some (val x)
    | None => mapGet eqb k m
    end.
Proof.
  revert m. induction xs as [|x xs IH]; intros m; simpl.
  - reflexivity.
  - rewrite IH. rewrite find_app.
    destruct (find (fun x0 => eqb (key x0) k) (rev xs)); [reflexivity|].
    simpl. destruct (eqb (key x) k) eqn:E.
    + apply eqb_spec in E. subst k. apply mapGet_mapSet_same.
    + apply mapGet_mapSet_other. intros E'. subst k.
      rewrite eqb_same in E. discriminate.
Qed.

Lemma fold_NoDup {X : Type} (key : X -> K) (val : X -> V) (xs : list X)
    (m : list (K * V)) :
  NoDup (map fst m) ->
  NoDup (map fst (fold_left (fun m x => mapSet eqb (key x) (val x) m) xs m)).
Proof.
  revert m. induction xs as [|x xs IH]; intros m H; simpl; [exact H|].
  apply IH, mapSet_NoDup, H.
Qed.

Lemma mapSet_entries (k : K) (v : V) (m : list (K * V)) (P : K -> V -> Prop) :
  P k v -> Forall (fun e => P (fst e) (snd e)) m ->
  Forall (fun e => P (fst e) (snd e)) (mapSet eqb k v m).
Proof.
  intros Hkv. induction 1 as [|[k0 v0] m H0 Hm IH]; simpl.
  - constructor; [exact Hkv|constructor].
  - destruct (eqb k0 k) eqn:E.
    + apply eqb_spec in E. subst k0. constructor; [exact Hkv|exact Hm].
    + constructor; [exact H0|exact IH].
Qed.

Lemma fold_entries {X : Type} (key : X -> K) (val : X -> V) (xs : list X)
    (m : list (K * V)) (P : K -> V -> Prop) :
  (forall x, In x xs -> P (key x) (val x)) ->
  Forall (fun e => P (fst e) (snd e)) m ->
  Forall (fun e => P (fst e) (snd e))
    (fold_left (fun m x => mapSet eqb (key x) (val x) m) xs m).
Proof.
  revert m. induction xs as [|x xs IH]; intros m Hx Hm; simpl; [exact Hm|].
  apply IH.
  - intros y Hy. apply Hx. right. exact Hy.
  - apply mapSet_entries; [apply Hx; left; reflexivity|exact Hm].
Qed.

End Maps.

Lemma Zeqb_spec (a b : Z) : (a =? b) = true <-> a = b.
Proof. apply Z.eqb_eq. Qed.

Lemma Seqb_spec (a b : string) : String.eqb a b = true <-> a = b.
Proof. apply String.eqb_eq. Qed.

(* ================================================================= *)
(** * Scorecards: the eighteen holes *)

(** X19.  With holes saved, the card has the holes 1 to 18 in order; a hole
    shows the par and stroke index of the last saved hole with its
    number, and par 4 with its own number as stroke index when no hole
    with that number is saved. *)
Theorem holes18_card (holes : list SavedHole) (i : Z) :
  holes <> [] -> 1 <= i <= 18 ->
  length (holes18 holes) = 18%nat
  /\ nth_error (holes18 holes) (Z.to_nat (i - 1))
     = Some match find (fun h => hole_number h =? i) (rev holes) with
            | Some h => {| card_number := i; card_par := hole_par h;
                           card_strokeIndex := hole_strokeIndex h |}
            | None => {| card_number := i; card_par := 4;
                         card_strokeIndex := Some i |}
            end.
Proof.
  intros Hne Hi. unfold holes18.
  destruct holes as [|h0 hs]; [congruence|].
  set (holes := h0 :: hs) in *. clearbody holes. clear h0 hs Hne.
  split; [rewrite !length_map, length_seq; reflexivity|].
  rewrite nth_error_map.
  assert (E : nth_error (map Z.of_nat (seq 1 18)) (Z.to_nat (i - 1))
              = Some i).
  { rewrite nth_error_map.
    rewrite (nth_error_nth' _ 0%nat) by (rewrite length_seq; lia).
    rewrite seq_nth by lia. simpl. f_equal. lia. }
  rewrite E. cbn [option_map]. f_equal.
  rewrite (mapGet_fold Z.eqb Zeqb_spec hole_number
             (fun h => {| card_number := hole_number h;
                          card_par := hole_par h;
                          card_strokeIndex := hole_strokeIndex h |})).
  destruct (find (fun h => hole_number h =? i) (rev holes)) as [h|] eqn:F.
  - apply find_some in F. destruct F as [_ F]. apply Z.eqb_eq in F.
    rewrite F. reflexivity.
  - reflexivity.
Qed.

Lemma holes18_card_witness :
  length (holes18 [{| hole_number := 7; hole_par := 3;
                      hole_strokeIndex := Some 17; hole_yardage := None |};
                   {| hole_number := 7; hole_par := 5;
                      hole_strokeIndex := None; hole_yardage := None |}])
  = 18%nat
  /\ nth_error
       (holes18 [{| hole_number := 7; hole_par := 3;
                    hole_strokeIndex := Some 17; hole_yardage := None |};
                 {| hole_number := 7; hole_par := 5;
                    hole_strokeIndex := None; hole_yardage := None |}]) 6
     = Some {| card_number := 7; card_par := 5; card_strokeIndex := None |}.
Proof.
  apply (holes18_card
           [{| hole_number := 7; hole_par := 3;
               hole_strokeIndex := Some 17; hole_yardage := None |};
            {| hole_number := 7; hole_par := 5;
               hole_strokeIndex := None; hole_yardage := None |}] 7);
    [discriminate|lia].
Defined.

(* ================================================================= *)
(** * Saved courses: lists with one element per key *)

Section Keyed.

Context {A K : Type}.
Variable eqb : K -> K -> bool.
Hypothesis eqb_spec : forall a b, eqb a b = true <-> a = b.
Variable key : A -> K.

Lemma find_key_In (l : list A) (x : A) :
  NoDup (map key l) -> In x l ->
  find (fun y => eqb (key y) (key x)) l = Some x.
Proof.
  induction l as [|y l IH]; simpl; intros Hn Hin; [contradiction|].
  inversion Hn as [|? ? Hy Hl]; subst.
  destruct Hin as [->|Hin].
  - rewrite (eqb_same eqb eqb_spec). reflexivity.
  - destruct (eqb (key y) (key x)) eqn:E.
    + apply eqb_spec in E. exfalso. apply Hy. rewrite E.
      apply in_map, Hin.
    + apply IH; assumption.
Qed.

Lemma find_key_None (l : list A) (k : K) :
  find (fun y => eqb (key y) k) l = None <-> ~ In k (map key l).
Proof.
  induction l as [|y l IH]; simpl.
  - intuition.
  - destruct (eqb (key y) k) eqn:E.
    + apply eqb_spec in E. split; [discriminate|].
      intros H. exfalso. apply H. left. exact E.
    + rewrite IH. split.
      * intros H [E'|Hin]; [|contradiction].
        rewrite E', (eqb_same eqb eqb_spec) in E. discriminate.
      * intros H Hin. apply H. right. exact Hin.
Qed.

Lemma find_key_perm (l l' : list A) (k : K) :
  Permutation l l' -> NoDup (map key l) ->
  find (fun y => eqb (key y) k) l = find (fun y => eqb (key y) k) l'.
Proof.
  intros Hp Hn.
  assert (Hn' : NoDup (map key l'))
    by (apply (Permutation_NoDup (Permutation_map key Hp)), Hn).
  destruct (find (fun y => eqb (key y) k) l) as [x|] eqn:F.
  - apply find_some in F. destruct F as [Hin E].
    apply eqb_spec in E. subst k. symmetry.
    apply find_key_In; [exact Hn'|].
    apply (Permutation_in _ Hp), Hin.
  - symmetry. apply find_key_None. apply find_key_None in F.
    intros Hin. apply F.
    apply (Permutation_in _ (Permutation_sym (Permutation_map key Hp))), Hin.
Qed.

(** The values of a map whose entries are filed under their own key. *)
Lemma mapGet_values (m : list (K * A)) (k : K) :
  Forall (fun e => fst e = key (snd e)) m ->
  mapGet eqb k m = find (fun y => eqb (key y) k) (mapValues m).
Proof.
  induction 1 as [|[k0 v0] m H0 Hm IH]; simpl; [reflexivity|].
  simpl in H0. subst k0. destruct (eqb (key v0) k); [reflexivity|exact IH].
Qed.

Lemma mapValues_keys (m : list (K * A)) :
  Forall (fun e => fst e = key (snd e)) m ->
  map key (mapValues m) = map fst m.
Proof.
  induction 1 as [|[k0 v0] m H0 Hm IH]; simpl; [reflexivity|].
  simpl in H0. subst k0. f_equal. exact IH.
Qed.

Lemma mapSetAll_keyed (xs : list A) :
  Forall (fun e => fst e = key (snd e)) (mapSetAll eqb key xs []).
Proof.
  unfold mapSetAll.
  apply (fold_entries eqb eqb_spec key (fun x => x) xs []
           (fun k v => k = key v)).
  - intros x _. reflexivity.
  - constructor.
Qed.

Lemma mapSetAll_NoDup (xs : list A) :
  NoDup (map key (mapValues (mapSetAll eqb key xs []))).
Proof.
  rewrite mapValues_keys by apply mapSetAll_keyed.
  unfold mapSetAll.
  apply (fold_NoDup eqb eqb_spec key (fun x => x)). constructor.
Qed.

Lemma mapSetAll_find (xs : list A) (k : K) :
  find (fun y => eqb (key y) k) (mapValues (mapSetAll eqb key xs []))
  = find (fun y => eqb (key y) k) (rev xs).
Proof.
  rewrite <- mapGet_values by apply mapSetAll_keyed.
  unfold mapSetAll.
  rewrite (mapGet_fold eqb eqb_spec key (fun x => x)). simpl.
  destruct (find _ (rev xs)); reflexivity.
Qed.

Lemma mapSetAll_app (xs ys : list A) :
  mapSetAll eqb key ys (mapSetAll eqb key xs []) = mapSetAll eqb key (xs ++ ys) [].
Proof. unfold mapSetAll. rewrite fold_left_app. reflexivity. Qed.

Lemma find_key_rev (l : list A) (k : K) :
  NoDup (map key l) ->
  find (fun y => eqb (key y) k) (rev l) = find (fun y => eqb (key y) k) l.
Proof.
  intros Hn. symmetry. apply find_key_perm; [apply Permutation_rev|exact Hn].
Qed.

End Keyed.

(* ================================================================= *)
(** * Saved courses: the holes *)

Lemma StronglySorted_strict {A : Type} (R : A -> A -> Prop) (f : A -> Z)
    (l : list A) :
  (forall a b, R a b -> f a <= f b) ->
  StronglySorted R l -> NoDup (map f l) ->
  StronglySorted (fun a b => f a < f b) l.
Proof.
  intros HR. induction 1 as [|x l Hl IH Hx]; intros Hn; constructor.
  - apply IH. inversion Hn; assumption.
  - inversion Hn as [|? ? Hnx Hnl]; subst.
    rewrite Forall_forall in *. intros y Hy.
    specialize (HR _ _ (Hx y Hy)).
    assert (f x <> f y)
      by (intros E; apply Hnx; rewrite E; apply in_map, Hy).
    lia.
Qed.

Lemma StronglySorted_NoDup {A : Type} (f : A -> Z) (l : list A) :
  StronglySorted (fun a b => f a < f b) l -> NoDup (map f l).
Proof.
  induction 1 as [|x l Hl IH Hx]; simpl; constructor; [|exact IH].
  intros Hin. apply in_map_iff in Hin. destruct Hin as (y & E & Hy).
  rewrite Forall_forall in Hx. specialize (Hx y Hy). lia.
Qed.

(** Two lists in strictly increasing order of their keys that answer
    every lookup alike are the same list. *)
Lemma sorted_lookup_ext {A : Type} (f : A -> Z) (l1 l2 : list A) :
  StronglySorted (fun a b => f a < f b) l1 ->
  StronglySorted (fun a b => f a < f b) l2 ->
  (forall n, find (fun y => f y =? n) l1 = find (fun y => f y =? n) l2) ->
  l1 = l2.
Proof.
  intros H1. revert l2.
  induction H1 as [|x1 t1 Ht1 IH Hx1]; intros l2 H2 Hf.
  - destruct l2 as [|x2 t2]; [reflexivity|].
    specialize (Hf (f x2)). simpl in Hf. rewrite Z.eqb_refl in Hf.
    discriminate.
  - destruct l2 as [|x2 t2].
    + specialize (Hf (f x1)). simpl in Hf. rewrite Z.eqb_refl in Hf.
      discriminate.
    + inversion H2 as [|? ? Ht2 Hx2]; subst.
      rewrite Forall_forall in Hx1, Hx2.
      assert (E12 : f x1 = f x2).
      { pose proof (Hf (f x1)) as F1. pose proof (Hf (f x2)) as F2.
        simpl in F1, F2. rewrite Z.eqb_refl in F1, F2.
        destruct (f x2 =? f x1) eqn:E; [apply Z.eqb_eq in E; lia|].
        destruct (f x1 =? f x2) eqn:E'; [apply Z.eqb_eq in E'; lia|].
        symmetry in F1. apply find_some in F1. destruct F1 as [In1 _].
        apply find_some in F2. destruct F2 as [In2 _].
        specialize (Hx2 _ In1). specialize (Hx1 _ In2). lia. }
      assert (Ex : x1 = x2).
      { specialize (Hf (f x1)). simpl in Hf.
        rewrite Z.eqb_refl, <- E12, Z.eqb_refl in Hf. congruence. }
      subst x2. f_equal. apply IH; [exact Ht2|].
      intros n. specialize (Hf n). simpl in Hf.
      destruct (f x1 =? n) eqn:E; [|exact Hf].
      apply Z.eqb_eq in E. subst n.
      transitivity (@None A); [|symmetry];
        apply (find_key_None Z.eqb Zeqb_spec f); intros Hin;
        apply in_map_iff in Hin; destruct Hin as (y & Ey & Hy).
      * specialize (Hx1 y Hy). lia.
      * specialize (Hx2 y Hy). lia.
Qed.

Lemma mergeHoles_sorted (existing holes : list SavedHole) :
  StronglySorted (fun a b => hole_number a < hole_number b)
    (mergeHoles existing holes).
Proof.
  unfold mergeHoles. cbv zeta.
  apply (StronglySorted_strict
           (fun a b => hole_number a - hole_number b <= 0)).
  - intros a b H. lia.
  - apply sortBy_sorted; intros; lia.
  - apply (Permutation_NoDup
             (Permutation_map _ (Permutation_sym (sortBy_perm _ _)))).
    rewrite (mapSetAll_app Z.eqb).
    apply (mapSetAll_NoDup Z.eqb Zeqb_spec).
Qed.

Lemma mergeHoles_find (existing holes : list SavedHole) (n : Z) :
  find (fun h => hole_number h =? n) (mergeHoles existing holes)
  = find (fun h => hole_number h =? n) (rev holes ++ rev existing).
Proof.
  unfold mergeHoles. cbv zeta.
  rewrite (find_key_perm Z.eqb Zeqb_spec hole_number _ _ n
             (sortBy_perm _ _)).
  - rewrite (mapSetAll_app Z.eqb).
    rewrite (mapSetAll_find Z.eqb Zeqb_spec), rev_app_distr. reflexivity.
  - apply (Permutation_NoDup
             (Permutation_map _ (Permutation_sym (sortBy_perm _ _)))).
    rewrite (mapSetAll_app Z.eqb).
    apply (mapSetAll_NoDup Z.eqb Zeqb_spec).
Qed.

Lemma mergeHoles_compose (existing h1 h2 : list SavedHole) :
  mergeHoles (mergeHoles existing h1) h2 = mergeHoles existing (h1 ++ h2).
Proof.
  apply (sorted_lookup_ext hole_number); try apply mergeHoles_sorted.
  intros n. rewrite !mergeHoles_find, rev_app_distr, <- app_assoc.
  rewrite !(find_app _ (rev h2)).
  destruct (find _ (rev h2)); [reflexivity|].
  rewrite (find_key_rev Z.eqb Zeqb_spec hole_number)
    by apply StronglySorted_NoDup, mergeHoles_sorted.
  apply mergeHoles_find.
Qed.

Lemma mergeHoles_again (existing holes : list SavedHole) :
  mergeHoles (mergeHoles existing holes) holes = mergeHoles existing holes.
Proof.
  apply (sorted_lookup_ext hole_number); try apply mergeHoles_sorted.
  intros n. rewrite !mergeHoles_find. rewrite find_app.
  destruct (find _ (rev holes)) eqn:F.
  - rewrite find_app, F. reflexivity.
  - rewrite (find_key_rev Z.eqb Zeqb_spec hole_number)
      by apply StronglySorted_NoDup, mergeHoles_sorted.
    apply mergeHoles_find.
Qed.

(* ================================================================= *)
(** * Saved courses: what a save stores *)

Lemma getProperty_set_same {V : Type} (db : list (string * V))
    (name : string) (v : V) :
  getProperty (mapSet String.eqb name v db) name = Own v.
Proof.
  unfold getProperty.
  rewrite (mapGet_mapSet_same String.eqb Seqb_spec). reflexivity.
Qed.

Lemma getProperty_set_other {V : Type} (db : list (string * V))
    (name other : string) (v : V) :
  other <> name ->
  getProperty (mapSet String.eqb name v db) other = getProperty db other.
Proof.
  intros H. unfold getProperty.
  rewrite (mapGet_mapSet_other String.eqb Seqb_spec) by congruence.
  reflexivity.
Qed.

Lemma getProperty_Inherited {V : Type} (db : list (string * V))
    (name : string) :
  getProperty db name = Inherited
  <-> mapGet String.eqb name db = None /\ In name objectPrototypeKeys.
Proof.
  unfold getProperty. destruct (mapGet String.eqb name db) as [v|].
  - split; [discriminate|]. intros [H _]. discriminate.
  - destruct (existsb (String.eqb name) objectPrototypeKeys) eqn:E.
    + split; [|reflexivity]. intros _. split; [reflexivity|].
      apply existsb_exists in E. destruct E as (x & Hx & E).
      apply String.eqb_eq in E. subst x. exact Hx.
    + split; [discriminate|]. intros [_ Hin]. exfalso.
      assert (existsb (String.eqb name) objectPrototypeKeys = true).
      { apply existsb_exists. exists name. split; [exact Hin|].
        apply String.eqb_refl. }
      congruence.
Qed.

Lemma upsertHoles_Ok (name : string) (hs : list SavedHole)
    (db db' : SavedCourses) :
  upsertHoles name hs db = Ok db' ->
  db' = mapSet String.eqb name
          {| Players := savedPlayers db name;
             Holes := mergeHoles (savedHoles db name) hs |} db.
Proof.
  unfold upsertHoles, ensureCourse, savedPlayers, savedHoles.
  destruct (getProperty db name); intros H; inversion H; reflexivity.
Qed.

Lemma upsertPlayers_Ok (h : Host) (tx : Text) (name : string)
    (ps : list SavedPlayer) (db db' : SavedCourses) :
  upsertPlayers h tx name ps db = Ok db' ->
  db' = mapSet String.eqb name
          {| Players := mergePlayers h tx (savedPlayers db name) ps;
             Holes := savedHoles db name |} db.
Proof.
  unfold upsertPlayers, ensureCourse, savedPlayers, savedHoles.
  destruct (getProperty db name); intros H; inversion H; reflexivity.
Qed.

(** X20.  After [upsertHoles] the holes of the course are in strictly
    increasing order of their numbers, so that no number occurs twice;
    under each number the hole kept is the last one given with it, or
    else the last one saved with it before.  The players saved for the
    course and every other course stay as they were. *)
Theorem upsertHoles_stored (name : string) (hs : list SavedHole)
    (db db' : SavedCourses) :
  upsertHoles name hs db = Ok db' ->
  StronglySorted (fun a b => hole_number a < hole_number b)
    (savedHoles db' name)
  /\ (forall n,
        find (fun h => hole_number h =? n) (savedHoles db' name)
        = find (fun h => hole_number h =? n)
            (rev hs ++ rev (savedHoles db name)))
  /\ savedPlayers db' name = savedPlayers db name
  /\ (forall other, other <> name ->
        getProperty db' other = getProperty db other).
Proof.
  intros H. apply upsertHoles_Ok in H.
  assert (Eh : savedHoles db' name = mergeHoles (savedHoles db name) hs).
  { subst db'. unfold savedHoles at 1.
    rewrite getProperty_set_same. reflexivity. }
  assert (Ep : savedPlayers db' name = savedPlayers db name).
  { subst db'. unfold savedPlayers at 1.
    rewrite getProperty_set_same. reflexivity. }
  rewrite Eh. split; [apply mergeHoles_sorted|].
  split; [intros n; apply mergeHoles_find|].
  split; [exact Ep|].
  intros other Ho. subst db'. apply getProperty_set_other, Ho.
Qed.

Lemma upsertHoles_stored_witness :
  StronglySorted (fun a b => hole_number a < hole_number b)
    (savedHoles
       [("Pines"%string,
         {| Players := [];
            Holes := [ {| hole_number := 1; hole_par := 4;
                          hole_strokeIndex := Some 3;
                          hole_yardage := None |};
                       {| hole_number := 2; hole_par := 5;
                          hole_strokeIndex := None;
                          hole_yardage := None |} ] |})]
       "Pines").
Proof.
  apply (upsertHoles_stored "Pines"
           [ {| hole_number := 2; hole_par := 5; hole_strokeIndex := None;
                hole_yardage := None |};
             {| hole_number := 1; hole_par := 4; hole_strokeIndex := Some 3;
                hole_yardage := None |} ]
           [("Pines"%string,
             {| Players := [];
                Holes := [ {| hole_number := 2; hole_par := 3;
                              hole_strokeIndex := Some 9;
                              hole_yardage := Some 150 |} ] |})]).
  vm_compute. reflexivity.
Defined.

(** X21.  Two saves of holes in a row store what one save of both lists
    stores, and a save repeated stores nothing new. *)
Theorem upsertHoles_compose (name : string) (h1 h2 : list SavedHole)
    (db db1 : SavedCourses) :
  upsertHoles name h1 db = Ok db1 ->
  upsertHoles name h2 db1 = upsertHoles name (h1 ++ h2) db
  /\ upsertHoles name h1 db1 = Ok db1.
Proof.
  intros H. pose proof (upsertHoles_Ok _ _ _ _ H) as E.
  assert (Hn : forall hs,
             upsertHoles name hs db1
             = Ok (mapSet String.eqb name
                     {| Players := savedPlayers db name;
                        Holes := mergeHoles
                                   (mergeHoles (savedHoles db name) h1) hs |}
                     db)).
  { intros hs. unfold upsertHoles, ensureCourse. rewrite E.
    rewrite getProperty_set_same. cbn [Players Holes].
    rewrite (mapSet_mapSet String.eqb Seqb_spec). reflexivity. }
  split.
  - rewrite Hn, mergeHoles_compose.
    unfold upsertHoles, ensureCourse in *. unfold savedPlayers, savedHoles.
    destruct (getProperty db name); try discriminate; reflexivity.
  - rewrite Hn, mergeHoles_again, <- E. reflexivity.
Qed.

Lemma upsertHoles_compose_witness :
  upsertHoles "Pines"
    [ {| hole_number := 1; hole_par := 4; hole_strokeIndex := Some 3;
         hole_yardage := None |} ]
    [("Pines"%string,
      {| Players := [];
         Holes := [ {| hole_number := 1; hole_par := 5;
                       hole_strokeIndex := None;
                       hole_yardage := None |} ] |})]
  = upsertHoles "Pines"
      ([ {| hole_number := 1; hole_par := 5; hole_strokeIndex := None;
            hole_yardage := None |} ]
       ++ [ {| hole_number := 1; hole_par := 4; hole_strokeIndex := Some 3;
               hole_yardage := None |} ])
      [].
Proof.
  apply (upsertHoles_compose "Pines"
           [ {| hole_number := 1; hole_par := 5; hole_strokeIndex := None;
                hole_yardage := None |} ]
           [ {| hole_number := 1; hole_par := 4; hole_strokeIndex := Some 3;
                hole_yardage := None |} ]
           []).
  vm_compute. reflexivity.
Defined.

(** X22.  A save fails exactly when the course name is not a course of the
    store but a member that every object inherits, such as
    [constructor] or [toString]; the save of players and the save of
    holes fail alike. *)
Theorem upsert_throws (h : Host) (tx : Text) (name : string)
    (ps : list SavedPlayer) (hs : list SavedHole) (db : SavedCourses) :
  (upsertHoles name hs db = Err typeError
   <-> mapGet String.eqb name db = None /\ In name objectPrototypeKeys)
  /\ (upsertPlayers h tx name ps db = Err typeError
      <-> mapGet String.eqb name db = None /\ In name objectPrototypeKeys)
  /\ (forall msg, upsertHoles name hs db = Err msg -> msg = typeError)
  /\ (forall msg, upsertPlayers h tx name ps db = Err msg -> msg = typeError).
Proof.
  rewrite <- getProperty_Inherited.
  unfold upsertHoles, upsertPlayers, ensureCourse.
  destruct (getProperty db name);
    (split; [|split; [|split]]);
    try (split; [discriminate|discriminate]);
    try (split; reflexivity);
    intros msg H; inversion H; reflexivity.
Qed.

(** X23.  After [upsertPlayers] no two players of the course share a name key;
    under each key the player kept is the last one given with it, or else
    the last one saved with it before; and the holes of the course are
    untouched. *)
Theorem upsertPlayers_stored (h : Host) (tx : Text) (name : string)
    (ps : list SavedPlayer) (db db' : SavedCourses) :
  upsertPlayers h tx name ps db = Ok db' ->
  NoDup (map (playerNameKey tx) (savedPlayers db' name))
  /\ (forall k,
        find (fun p => String.eqb (playerNameKey tx p) k)
          (savedPlayers db' name)
        = find (fun p => String.eqb (playerNameKey tx p) k)
            (rev ps ++ rev (savedPlayers db name)))
  /\ savedHoles db' name = savedHoles db name.
Proof.
  intros H. apply upsertPlayers_Ok in H.
  assert (Ep : savedPlayers db' name
               = mergePlayers h tx (savedPlayers db name) ps).
  { subst db'. unfold savedPlayers at 1.
    rewrite getProperty_set_same. reflexivity. }
  assert (Eh : savedHoles db' name = savedHoles db name).
  { subst db'. unfold savedHoles at 1.
    rewrite getProperty_set_same. reflexivity. }
  rewrite Ep. clear H Ep.
  unfold mergePlayers. cbv zeta. rewrite (mapSetAll_app String.eqb).
  assert (Hn : NoDup (map (playerNameKey tx)
                        (sortBy (cmpSavedPlayers h)
                           (mapValues
                              (mapSetAll String.eqb (playerNameKey tx)
                                 (savedPlayers db name ++ ps) []))))).
  { apply (Permutation_NoDup
             (Permutation_map _ (Permutation_sym (sortBy_perm _ _)))).
    apply (mapSetAll_NoDup String.eqb Seqb_spec). }
  split; [exact Hn|]. split; [|exact Eh].
  intros k.
  rewrite (find_key_perm String.eqb Seqb_spec (playerNameKey tx) _ _ k
             (sortBy_perm _ _) Hn).
  rewrite (mapSetAll_find String.eqb Seqb_spec), rev_app_distr.
  reflexivity.
Qed.

Lemma upsertPlayers_stored_witness :
  NoDup (map (playerNameKey (mkText (fun s => s) (fun s => s)))
           (savedPlayers
              [("Pines"%string,
                {| Players := [ {| saved_firstName := "Ann";
                                   saved_lastName := None;
                                   saved_handicapIndex := 9.8;
                                   saved_tee := red |} ];
                   Holes := [] |})]
              "Pines")).
Proof.
  apply (upsertPlayers_stored sampleHost (mkText (fun s => s) (fun s => s))
           "Pines"
           [ {| saved_firstName := "Ann"; saved_lastName := None;
                saved_handicapIndex := 9.8; saved_tee := red |} ]
           [("Pines"%string,
             {| Players := [ {| saved_firstName := "Ann";
                                saved_lastName := None;
                                saved_handicapIndex := 10.2;
                                saved_tee := white |} ];
                Holes := [] |})]).
  vm_compute. reflexivity.
Defined.

Lemma upsert_throws_witness :
  upsertHoles "toString" [] [] = Err typeError.
Proof.
  apply (proj1 (upsert_throws sampleHost (mkText (fun s => s) (fun s => s))
                  "toString" [] [] [])).
  split; [reflexivity|]. unfold objectPrototypeKeys.
  do 8 right. left. reflexivity.
Defined.

(* ================================================================= *)
(** * Course manager: moving a player between teams *)

Lemma find_split {A : Type} (p : A -> bool) (f : A -> A) (l : list A)
    (x : A) :
  find p l = Some x ->
  exists l1 l2, l = l1 ++ x :: l2 /\ updFirst p f l = l1 ++ f x :: l2.
Proof.
  induction l as [|y l IH]; simpl; [discriminate|].
  destruct (p y) eqn:E.
  - intros H. injection H as ->. exists [], l. split; reflexivity.
  - intros H. destruct (IH H) as (l1 & l2 & E1 & E2).
    exists (y :: l1), l2. simpl. rewrite <- E1, E2. split; reflexivity.
Qed.

Lemma find_updFirst_other {A : Type} (p q : A -> bool) (f : A -> A)
    (l : list A) :
  (forall y, q (f y) = q y) -> (forall y, p y = true -> q y = false) ->
  find q (updFirst p f l) = find q l.
Proof.
  intros Hf Hpq. induction l as [|y l IH]; simpl; [reflexivity|].
  destruct (p y) eqn:E; simpl.
  - rewrite Hf, (Hpq y E). reflexivity.
  - destruct (q y); [reflexivity|exact IH].
Qed.

Lemma find_updFirst_same {A : Type} (p : A -> bool) (f : A -> A)
    (l : list A) :
  (forall y, p (f y) = p y) ->
  find p (updFirst p f l) = option_map f (find p l).
Proof.
  intros Hf. induction l as [|y l IH]; simpl; [reflexivity|].
  destruct (p y) eqn:E; simpl.
  - rewrite Hf, E. reflexivity.
  - rewrite E. exact IH.
Qed.

Lemma updFirst_map {A B : Type} (p : A -> bool) (f : A -> A) (g : A -> B)
    (l : list A) :
  (forall y, g (f y) = g y) -> map g (updFirst p f l) = map g l.
Proof.
  intros Hf. induction l as [|y l IH]; simpl; [reflexivity|].
  destruct (p y); simpl; [rewrite Hf; reflexivity|f_equal; exact IH].
Qed.

Lemma spliceOut_perm {A : Type} (i : nat) (l : list A) (x : A) :
  nth_error l i = Some x -> Permutation (x :: spliceOut i l) l.
Proof.
  intros H. apply nth_error_split in H. destruct H as (l1 & l2 & -> & <-).
  unfold spliceOut.
  rewrite firstn_app, firstn_all, Nat.sub_diag, app_nil_r.
  replace (skipn (S (length l1)) (l1 ++ x :: l2)) with l2.
  - apply Permutation_middle.
  - rewrite skipn_app, skipn_all2 by lia.
    replace (S (length l1) - length l1)%nat with 1%nat by lia.
    reflexivity.
Qed.

Lemma perm_push {A : Type} (m : A) (a b c : list A) :
  Permutation (a ++ (b ++ [m]) ++ c) (m :: a ++ b ++ c).
Proof.
  rewrite <- app_assoc. simpl. rewrite app_assoc. symmetry.
  rewrite (app_assoc a b c). apply Permutation_middle.
Qed.

Lemma perm_cut {A : Type} (m : A) (a sp ps c : list A) :
  Permutation (m :: sp) ps ->
  Permutation (m :: a ++ sp ++ c) (a ++ ps ++ c).
Proof.
  intros H. apply (Permutation_trans (Permutation_middle _ _ _)).
  apply Permutation_app_head.
  change (m :: sp ++ c) with ((m :: sp) ++ c).
  apply Permutation_app_tail, H.
Qed.

Lemma flat_map_withTeamHandicap (ts : list Team) :
  flat_map players (map withTeamHandicap ts) = flat_map players ts.
Proof.
  induction ts as [|t ts IH]; simpl; [reflexivity|]. rewrite IH. reflexivity.
Qed.

(** What [handleDrop] does when both teams are there and the position is
    one of the source team. *)
Lemma handleDrop_unfold (gameTeams : list Team) (sourceTeamId : Z)
    (playerIndex : nat) (targetTeamId : Z) (s t : Team) (m : PlayerWithCH) :
  sourceTeamId <> targetTeamId ->
  find (fun t => team_id t =? sourceTeamId) gameTeams = Some s ->
  find (fun t => team_id t =? targetTeamId) gameTeams = Some t ->
  nth_error (players s) playerIndex = Some m ->
  handleDrop gameTeams (Some (sourceTeamId, playerIndex)) targetTeamId
  = Ok (map withTeamHandicap
          (updFirst (fun t => team_id t =? targetTeamId)
             (fun t => {| team_id := team_id t;
                          players := players t ++ [m];
                          teamHandicap := teamHandicap t |})
             (updFirst (fun t => team_id t =? sourceTeamId)
                (fun t => {| team_id := team_id t;
                             players := spliceOut playerIndex (players t);
                             teamHandicap := teamHandicap t |})
                gameTeams))).
Proof.
  intros Hne Hs Ht Hm. unfold handleDrop.
  replace (sourceTeamId =? targetTeamId) with false
    by (symmetry; apply Z.eqb_neq, Hne).
  rewrite Hs, Ht, Hm. reflexivity.
Qed.

(** X24.  A drop never loses or duplicates a player and never renumbers or
    reorders the teams; and where every team handicap was the sum of the
    course handicaps of the team, it is so afterwards. *)
Theorem handleDrop_keeps_players (gameTeams : list Team)
    (draggedPlayer : option (Z * nat)) (targetTeamId : Z)
    (updated : list Team) :
  handleDrop gameTeams draggedPlayer targetTeamId = Ok updated ->
  map team_id updated = map team_id gameTeams
  /\ Permutation (flat_map players updated) (flat_map players gameTeams)
  /\ (Forall (fun t => teamHandicap t = sumCH (players t)) gameTeams ->
      Forall (fun t => teamHandicap t = sumCH (players t)) updated).
Proof.
  intros H.
  assert (Hsame : updated = gameTeams ->
            map team_id updated = map team_id gameTeams
            /\ Permutation (flat_map players updated)
                 (flat_map players gameTeams)
            /\ (Forall (fun t => teamHandicap t = sumCH (players t))
                  gameTeams ->
                Forall (fun t => teamHandicap t = sumCH (players t))
                  updated)).
  { intros ->. split; [reflexivity|]. split; [apply Permutation_refl|auto]. }
  destruct draggedPlayer as [[src i]|];
    [|apply Hsame; unfold handleDrop in H; congruence].
  destruct (Z.eq_dec src targetTeamId) as [Heq|Hne].
  { apply Hsame. unfold handleDrop in H.
    replace (src =? targetTeamId) with true in H
      by (symmetry; apply Z.eqb_eq, Heq). congruence. }
  destruct (find (fun t => team_id t =? src) gameTeams) as [s|] eqn:Fs.
  2:{ apply Hsame. unfold handleDrop in H.
      replace (src =? targetTeamId) with false in H
        by (symmetry; apply Z.eqb_neq, Hne).
      rewrite Fs in H. congruence. }
  destruct (find (fun t => team_id t =? targetTeamId) gameTeams)
    as [t|] eqn:Ft.
  2:{ apply Hsame. unfold handleDrop in H.
      replace (src =? targetTeamId) with false in H
        by (symmetry; apply Z.eqb_neq, Hne).
      rewrite Fs, Ft in H. congruence. }
  destruct (nth_error (players s) i) as [m|] eqn:Fm.
  2:{ unfold handleDrop in H.
      replace (src =? targetTeamId) with false in H
        by (symmetry; apply Z.eqb_neq, Hne).
      rewrite Fs, Ft, Fm in H. discriminate. }
  rewrite (handleDrop_unfold _ _ _ _ s t m Hne Fs Ft Fm) in H.
  injection H as <-. clear Hsame.
  set (cut := fun t : Team =>
                {| team_id := team_id t;
                   players := spliceOut i (players t);
                   teamHandicap := teamHandicap t |}).
  set (push := fun t : Team =>
                 {| team_id := team_id t;
                    players := players t ++ [m];
                    teamHandicap := teamHandicap t |}).
  split; [|split].
  - rewrite map_map. change (fun x => team_id (withTeamHandicap x))
      with team_id.
    rewrite !updFirst_map by reflexivity. reflexivity.
  - rewrite flat_map_withTeamHandicap.
    destruct (find_split _ cut _ _ Fs) as (l1 & l2 & E1 & E2).
    rewrite E2.
    assert (Ft' : find (fun t => team_id t =? targetTeamId)
                    (l1 ++ cut s :: l2) = Some t).
    { rewrite <- E2, find_updFirst_other; [exact Ft|reflexivity|].
      intros y Hy. apply Z.eqb_eq in Hy. apply Z.eqb_neq. lia. }
    destruct (find_split _ push _ _ Ft') as (m1 & m2 & E3 & E4).
    rewrite E4.
    transitivity (m :: flat_map players (l1 ++ cut s :: l2)).
    + rewrite E3, !flat_map_app. simpl. apply perm_push.
    + rewrite E1, !flat_map_app. simpl. apply perm_cut.
      apply spliceOut_perm, Fm.
  - intros _. apply Forall_forall. intros x Hx.
    apply in_map_iff in Hx. destruct Hx as (y & <- & _). reflexivity.
Qed.

Lemma handleDrop_keeps_players_witness :
  exists updated,
    map team_id updated = [1; 2]
    /\ Permutation (flat_map players updated)
         (map (computePlayerCH sampleCourse) (rosterOf 5)).
Proof.
  destruct (handleDrop
              [ {| team_id := 1;
                   players := map (computePlayerCH sampleCourse)
                                (firstn 3 (rosterOf 5));
                   teamHandicap := 0 |};
                {| team_id := 2;
                   players := map (computePlayerCH sampleCourse)
                                (skipn 3 (rosterOf 5));
                   teamHandicap := 0 |} ]
              (Some (1, 2%nat)) 2) as [updated|msg] eqn:E;
    [|vm_compute in E; discriminate].
  exists updated.
  destruct (handleDrop_keeps_players _ _ _ _ E) as (Hid & Hp & _).
  split; [exact Hid|exact Hp].
Defined.

Lemma find_map_withTeamHandicap (k : Z) (ts : list Team) :
  find (fun t => team_id t =? k) (map withTeamHandicap ts)
  = option_map withTeamHandicap (find (fun t => team_id t =? k) ts).
Proof.
  induction ts as [|t ts IH]; simpl; [reflexivity|].
  destruct (team_id t =? k); [reflexivity|exact IH].
Qed.

Lemma sumCH_push (ms : list PlayerWithCH) (m : PlayerWithCH) :
  sumCH (ms ++ [m]) = sumCH ms + courseHandicap m.
Proof.
  rewrite !sumCH_eq, map_app, sumZ_app. simpl.
  rewrite sumZ_cons. change (sumZ []) with 0. lia.
Qed.

(** X25.  A drop on another team takes the player at the dragged position out
    of the source team and puts that player last in the target team;
    both teams get the sum of their players' course handicaps, so the
    target's is its former sum plus the course handicap of the player
    moved. *)
Theorem handleDrop_effect (gameTeams : list Team) (sourceTeamId : Z)
    (playerIndex : nat) (targetTeamId : Z) (s t : Team) (m : PlayerWithCH) :
  sourceTeamId <> targetTeamId ->
  find (fun t => team_id t =? sourceTeamId) gameTeams = Some s ->
  find (fun t => team_id t =? targetTeamId) gameTeams = Some t ->
  nth_error (players s) playerIndex = Some m ->
  exists updated,
    handleDrop gameTeams (Some (sourceTeamId, playerIndex)) targetTeamId
    = Ok updated
    /\ find (fun t => team_id t =? sourceTeamId) updated
       = Some {| team_id := team_id s;
                 players := spliceOut playerIndex (players s);
                 teamHandicap := sumCH (spliceOut playerIndex (players s)) |}
    /\ find (fun t => team_id t =? targetTeamId) updated
       = Some {| team_id := team_id t;
                 players := players t ++ [m];
                 teamHandicap := sumCH (players t) + courseHandicap m |}.
Proof.
  intros Hne Fs Ft Fm.
  rewrite (handleDrop_unfold _ _ _ _ s t m Hne Fs Ft Fm).
  eexists. split; [reflexivity|].
  rewrite !find_map_withTeamHandicap. split.
  - rewrite find_updFirst_other;
      [|reflexivity|intros y Hy; apply Z.eqb_eq in Hy; apply Z.eqb_neq; lia].
    rewrite find_updFirst_same by reflexivity. rewrite Fs. reflexivity.
  - rewrite find_updFirst_same by reflexivity.
    rewrite find_updFirst_other;
      [|reflexivity|intros y Hy; apply Z.eqb_eq in Hy; apply Z.eqb_neq; lia].
    rewrite Ft. cbn [option_map]. unfold withTeamHandicap. cbn [players team_id].
    rewrite sumCH_push. reflexivity.
Qed.

Lemma handleDrop_effect_witness :
  exists updated,
    handleDrop
      [ {| team_id := 1;
           players := map (computePlayerCH sampleCourse)
                        (firstn 3 (rosterOf 5));
           teamHandicap := 0 |};
        {| team_id := 2;
           players := map (computePlayerCH sampleCourse)
                        (skipn 3 (rosterOf 5));
           teamHandicap := 0 |} ]
      (Some (1, 0%nat)) 2
    = Ok updated.
Proof.
  destruct (handleDrop_effect
              [ {| team_id := 1;
                   players := map (computePlayerCH sampleCourse)
                                (firstn 3 (rosterOf 5));
                   teamHandicap := 0 |};
                {| team_id := 2;
                   players := map (computePlayerCH sampleCourse)
                                (skipn 3 (rosterOf 5));
                   teamHandicap := 0 |} ]
              1 0%nat 2 _ _ _ ltac:(lia) eq_refl eq_refl eq_refl)
    as (updated & E & _).
  exists updated. exact E.
Defined.

(** X26.  A drop fails in one case only: both teams are there and the dragged
    position is past the end of the source team. *)
Theorem handleDrop_throws (gameTeams : list Team)
    (draggedPlayer : option (Z * nat)) (targetTeamId : Z) (msg : string) :
  handleDrop gameTeams draggedPlayer targetTeamId = Err msg
  <-> msg = typeError
      /\ exists sourceTeamId playerIndex s t,
           draggedPlayer = Some (sourceTeamId, playerIndex)
           /\ sourceTeamId <> targetTeamId
           /\ find (fun t => team_id t =? sourceTeamId) gameTeams = Some s
           /\ find (fun t => team_id t =? targetTeamId) gameTeams = Some t
           /\ (length (players s) <= playerIndex)%nat.
Proof.
  unfold handleDrop. split.
  - destruct draggedPlayer as [[src i]|]; [|discriminate].
    destruct (src =? targetTeamId) eqn:E; [discriminate|].
    apply Z.eqb_neq in E.
    destruct (find (fun t => team_id t =? src) gameTeams) as [s|] eqn:Fs;
      [|discriminate].
    destruct (find (fun t => team_id t =? targetTeamId) gameTeams)
      as [t|] eqn:Ft; [|discriminate].
    destruct (nth_error (players s) i) eqn:Fm; [discriminate|].
    intros H. injection H as <-. split; [reflexivity|].
    exists src, i, s, t. apply nth_error_None in Fm. auto.
  - intros (-> & src & i & s & t & -> & Hne & Fs & Ft & Hi).
    replace (src =? targetTeamId) with false
      by (symmetry; apply Z.eqb_neq, Hne).
    rewrite Fs, Ft. apply nth_error_None in Hi. rewrite Hi. reflexivity.
Qed.

Lemma handleDrop_throws_witness :
  handleDrop
    [ {| team_id := 1;
         players := map (computePlayerCH sampleCourse) (rosterOf 3);
         teamHandicap := 0 |};
      {| team_id := 2; players := []; teamHandicap := 0 |} ]
    (Some (1, 3%nat)) 2
  = Err typeError.
Proof.
  apply (proj2 (handleDrop_throws _ _ _ _)). split; [reflexivity|].
  exists 1, 3%nat,
    {| team_id := 1;
       players := map (computePlayerCH sampleCourse) (rosterOf 3);
       teamHandicap := 0 |},
    {| team_id := 2; players := []; teamHandicap := 0 |}.
  split; [reflexivity|]. split; [lia|]. split; [reflexivity|].
  split; [reflexivity|]. vm_compute. lia.
Defined.

(* ================================================================= *)
(** * Course manager: link groups *)

Section Counting.

Context {A : Type}.

Lemma count_le (a b : A -> bool) (l : list A) :
  (forall p, In p l -> a p = true -> b p = true) ->
  (length (filter a l) <= length (filter b l))%nat.
Proof.
  induction l as [|x l IH]; simpl; intros H; [lia|].
  assert (IH' : (length (filter a l) <= length (filter b l))%nat)
    by (apply IH; intros p Hp; apply H; right; exact Hp).
  destruct (a x) eqn:E.
  - rewrite (H x (or_introl eq_refl) E). simpl. lia.
  - destruct (b x); simpl; lia.
Qed.

Lemma count_or (a b : A -> bool) (l : list A) :
  length (filter (fun p => a p || b p) l)
  = (length (filter b l)
     + length (filter (fun p => a p && negb (b p)) l))%nat.
Proof.
  induction l as [|x l IH]; simpl; [reflexivity|].
  destruct (a x), (b x); simpl; lia.
Qed.

Lemma filter_filter (a b : A -> bool) (l : list A) :
  filter b (filter a l) = filter (fun p => a p && b p) l.
Proof.
  induction l as [|x l IH]; simpl; [reflexivity|].
  destruct (a x); simpl; [destruct (b x); rewrite IH; reflexivity|exact IH].
Qed.

Lemma count_map {B : Type} (f : A -> B) (q : B -> bool) (l : list A) :
  length (filter q (map f l)) = length (filter (fun p => q (f p)) l).
Proof.
  induction l as [|x l IH]; simpl; [reflexivity|].
  destruct (q (f x)); simpl; rewrite IH; reflexivity.
Qed.

Lemma count_all (a : A -> bool) (l : list A) :
  (length (filter a l) <= length l)%nat.
Proof.
  induction l as [|x l IH]; simpl; [lia|]. destruct (a x); simpl; lia.
Qed.

End Counting.

Lemma distinct_In (xs : list string) (x : string) :
  In x (distinct xs) <-> In x xs.
Proof.
  unfold distinct.
  assert (H : forall seen,
            In x (fold_left (fun seen x => if existsb (String.eqb x) seen
                                           then seen else seen ++ [x])
                    xs seen)
            <-> In x seen \/ In x xs).
  { induction xs as [|y xs IH]; intros seen; simpl.
    - intuition.
    - rewrite IH. destruct (existsb (String.eqb y) seen) eqn:E.
      + apply existsb_exists in E. destruct E as (z & Hz & E).
        apply String.eqb_eq in E. subst z.
        split; [intuition|]. intros [H|[->|H]]; auto.
      + rewrite in_app_iff. simpl. intuition. }
  rewrite H. simpl. intuition.
Qed.

Lemma hasGroup_withLink (gid g : string) (p : Player) :
  hasGroup gid (withLink (Some g) p) = String.eqb g gid.
Proof. reflexivity. Qed.

Lemma linked_orEmpty (p : Player) :
  linked p = true -> linkGroupId p = Some (orEmpty (linkGroupId p)).
Proof.
  unfold linked. destruct (linkGroupId p) as [[|]|]; try discriminate.
  reflexivity.
Qed.

(** What [linkSelectedPlayers] does to the count of a group when it
    gives the selected players the group [g]. *)
Lemma link_update_count (players : list Player) (ids : list string)
    (g gid : string) :
  (linkCount g players
   + length (filter (fun p => isSelected ids p && negb (hasGroup g p))
               players) <= 4)%nat ->
  (linkCount gid players <= 4)%nat ->
  (linkCount gid
     (map (fun p => if isSelected ids p then withLink (Some g) p else p)
        players) <= 4)%nat.
Proof.
  intros Hg Hgid. unfold linkCount in *. rewrite count_map.
  destruct (String.eqb g gid) eqn:E.
  - apply String.eqb_eq in E. subst gid.
    rewrite (filter_ext _ (fun p => isSelected ids p || hasGroup g p)).
    + rewrite count_or. exact Hg.
    + intros p. destruct (isSelected ids p); simpl.
      * apply String.eqb_refl.
      * reflexivity.
  - etransitivity; [|exact Hgid]. apply count_le. intros p _.
    destruct (isSelected ids p); [|auto].
    rewrite hasGroup_withLink, E. discriminate.
Qed.

(** X27.  Linking never makes a link group larger than four: if no group of
    the course has more than four players and the identifier made for a
    new group is not in use, no group has more than four players
    afterwards. *)
Theorem linkSelectedPlayers_groups_of_four (players : list Player)
    (selectedPlayerIds : list string) (randomPart timePart : string)
    (gid : string) :
  (forall g, (linkCount g players <= 4)%nat) ->
  linkCount (makeId "grp" randomPart timePart) players = 0%nat ->
  (linkCount gid
     (linkSelectedPlayers players selectedPlayerIds randomPart timePart)
   <= 4)%nat.
Proof.
  intros Hinv Hfresh. unfold linkSelectedPlayers. cbv zeta.
  set (selected := filter (isSelected selectedPlayerIds) players).
  destruct ((length selected <? 2)%nat || (4 <? length selected)%nat) eqn:E1;
    [apply Hinv|].
  apply orb_false_iff in E1. destruct E1 as [_ E1]. apply Nat.ltb_ge in E1.
  set (groups := flat_map (fun p => if linked p
                                    then [orEmpty (linkGroupId p)] else [])
                   selected).
  destruct (1 <? length (distinct groups))%nat eqn:E2; [apply Hinv|].
  apply Nat.ltb_ge in E2.
  destruct (distinct groups) as [|g rest] eqn:Ed.
  - apply link_update_count; [|apply Hinv].
    rewrite Hfresh. simpl.
    etransitivity; [|exact E1]. unfold selected.
    apply count_le. intros p _ H. apply andb_true_iff in H. apply H.
  - destruct rest as [|g' rest]; [|simpl in E2; lia].
    destruct (4 <? length (filter (hasGroup g) players)
                   + length (filter (fun p => negb (linked p)) selected))%nat
      eqn:E3; [apply Hinv|].
    apply Nat.ltb_ge in E3.
    apply link_update_count; [|apply Hinv].
    unfold linkCount. etransitivity; [|exact E3].
    apply Nat.add_le_mono_l.
    unfold selected. rewrite filter_filter.
    apply count_le. intros p Hp H.
    apply andb_true_iff in H. destruct H as [Hs Hn].
    rewrite Hs. simpl.
    destruct (linked p) eqn:El; [|reflexivity]. exfalso.
    assert (Hin : In (orEmpty (linkGroupId p)) (distinct groups)).
    { apply distinct_In. unfold groups. apply in_flat_map.
      exists p. split.
      - unfold selected. apply filter_In. split; assumption.
      - rewrite El. left. reflexivity. }
    rewrite Ed in Hin. destruct Hin as [Hin|[]].
    apply linked_orEmpty in El.
    unfold hasGroup in Hn. rewrite El, <- Hin, String.eqb_refl in Hn.
    discriminate.
Qed.

Lemma linkSelectedPlayers_groups_of_four_witness :
  (linkCount "a"
     (linkSelectedPlayers
        [ samplePlayer "1" 5 (Some "a"%string);
          samplePlayer "2" 6 (Some "a"%string);
          samplePlayer "3" 7 None; samplePlayer "4" 8 None ]
        ["2"; "3"]%string "x" "y") <= 4)%nat.
Proof.
  apply (linkSelectedPlayers_groups_of_four
           [ samplePlayer "1" 5 (Some "a"%string);
             samplePlayer "2" 6 (Some "a"%string);
             samplePlayer "3" 7 None; samplePlayer "4" 8 None ]
           ["2"; "3"]%string "x" "y" "a").
  - intros g. unfold linkCount.
    etransitivity; [apply count_all|]. simpl. lia.
  - reflexivity.
Defined.

(** X28.  Unlinking and deleting never enlarge a link group, and after
    unlinking no selected player carries a link. *)
Theorem unlink_and_delete_shrink_groups (players : list Player)
    (selectedPlayerIds : list string) (index : nat) (gid : string) :
  (linkCount gid (unlinkSelectedPlayers players selectedPlayerIds)
   <= linkCount gid players)%nat
  /\ (linkCount gid (deletePlayer players index)
      <= linkCount gid players)%nat
  /\ Forall (fun p => isSelected selectedPlayerIds p = true ->
                      linkGroupId p = None)
       (unlinkSelectedPlayers players selectedPlayerIds).
Proof.
  unfold linkCount. split; [|split].
  - unfold unlinkSelectedPlayers.
    destruct (existsb (isSelected selectedPlayerIds) players); [|lia].
    rewrite count_map. apply count_le. intros p _.
    destruct (isSelected selectedPlayerIds p); [discriminate|auto].
  - unfold deletePlayer.
    rewrite <- (firstn_skipn index players) at 3.
    rewrite !filter_app, !length_app. apply Nat.add_le_mono_l.
    replace (index + 1)%nat with (S index) by lia.
    destruct (skipn index players) as [|x rest] eqn:E.
    + rewrite (skipn_all2 players); [simpl; lia|].
      apply (f_equal (@length _)) in E. rewrite length_skipn in E.
      simpl in E. lia.
    + replace (skipn (S index) players) with rest.
      * simpl. destruct (hasGroup gid x); simpl; lia.
      * change (S index) with (1 + index)%nat.
        rewrite <- skipn_skipn, E. reflexivity.
  - unfold unlinkSelectedPlayers.
    destruct (existsb (isSelected selectedPlayerIds) players) eqn:E.
    + apply Forall_forall. intros p Hp. apply in_map_iff in Hp.
      destruct Hp as (q & <- & _).
      destruct (isSelected selectedPlayerIds q) eqn:Eq;
        [reflexivity|congruence].
    + apply Forall_forall. intros p Hp Hs. exfalso.
      assert (existsb (isSelected selectedPlayerIds) players = true)
        by (apply existsb_exists; exists p; split; assumption).
      congruence.
Qed.

(* ================================================================= *)
(** * Payouts: sample runs *)

Lemma payouts_ordered_and_nonneg_witness :
  exists r,
    generateGame sampleHost sampleCourse (rosterOf 25)
      (sampleSettings 20 None None (Some 5)) = Ok r
    /\ nonIncreasing (map amount (payouts r))
    /\ Forall (fun x => 0 <= x) (map amount (payouts r)).
Proof.
  destruct (generateGame sampleHost sampleCourse (rosterOf 25)
              (sampleSettings 20 None None (Some 5))) as [r|m] eqn:E;
    [|vm_compute in E; discriminate].
  exists r. split; [reflexivity|].
  apply (payouts_ordered_and_nonneg _ _ _ _ _ E).
Defined.

Lemma roundPayouts_sum_exact_witness :
  sumZ (roundPayoutsPrefer10Then5 [96; 64]%Q 160) = 160.
Proof.
  apply (roundPayouts_sum_exact [96; 64]%Q 160).
  - discriminate.
  - left. vm_compute. reflexivity.
Defined.

(* ================================================================= *)
(** * Handicap lookup *)

Lemma round_inject_Z (z : Z) (x : Q) : (x == inject_Z z)%Q -> Js.round x = z.
Proof.
  intros E. unfold Js.round.
  assert (E' : (x + (1 # 2) == (2 * z + 1) # 2)%Q).
  { rewrite E. unfold Qeq, inject_Z, Qplus.
    cbn -[Z.mul Z.add]. lia. }
  rewrite (Qfloor_comp _ _ E'). unfold Qfloor.
  cbn [Qnum Qden]. symmetry. apply Z.div_unique with (r := 1); lia.
Qed.

Lemma charCodeSum_nonneg (seed : string) : 0 <= charCodeSum seed.
Proof.
  unfold charCodeSum.
  assert (H : forall l a, 0 <= a ->
            0 <= fold_left (fun acc c => acc + Z.of_N (N_of_ascii c)) l a).
  { induction l as [|c l IH]; intros a Ha; simpl; [exact Ha|].
    apply IH. lia. }
  apply H. lia.
Qed.

(** The pseudo-handicap is the tenth [(k - 50) / 10], where [k] is the
    sum of the code units modulo 414. *)
Lemma hashToHandicap_value (seed : string) :
  (hashToHandicap seed
   == inject_Z (charCodeSum seed mod 414 - 50) / 10)%Q.
Proof.
  unfold hashToHandicap. cbv zeta.
  set (k := charCodeSum seed mod 414).
  assert (Hk : 0 <= k < 414) by (apply Z.mod_pos_bound; lia).
  clearbody k. unfold toFixed1.
  destruct (Qle_bool 0 (inject_Z k / 10 - 5)) eqn:E.
  - rewrite (round_inject_Z (k - 50)).
    + reflexivity.
    + unfold inject_Z. unfold Qeq, Qdiv, Qminus, Qplus, Qmult, Qinv, Qopp.
      cbn -[Z.mul Z.add Z.opp Z.sub]. lia.
  - rewrite (round_inject_Z (50 - k)).
    + unfold inject_Z. unfold Qeq, Qdiv, Qminus, Qplus, Qmult, Qinv, Qopp.
      cbn -[Z.mul Z.add Z.opp Z.sub]. lia.
    + unfold inject_Z. unfold Qeq, Qdiv, Qminus, Qplus, Qmult, Qinv, Qopp.
      cbn -[Z.mul Z.add Z.opp Z.sub]. lia.
Qed.

Lemma hashToHandicap_range (seed : string) :
  (-5 <= hashToHandicap seed)%Q /\ (hashToHandicap seed <= 36.3)%Q.
Proof.
  rewrite hashToHandicap_value.
  set (k := charCodeSum seed mod 414).
  assert (Hk : 0 <= k < 414) by (apply Z.mod_pos_bound; lia).
  clearbody k.
  split; unfold Qle, inject_Z, Qdiv, Qmult, Qinv;
    cbn -[Z.mul Z.add Z.opp Z.sub]; lia.
Qed.

Lemma dash_in_key (a b : string) :
  existsb (Ascii.eqb "-") (list_ascii_of_string (a ++ "-" ++ b)) = true.
Proof.
  change ("-" ++ b)%string with (String "-" b).
  induction a as [|c a IH]; simpl; [reflexivity|].
  rewrite IH. apply orb_true_r.
Qed.

Lemma no_dash_inherited (name : string) :
  In name objectPrototypeKeys ->
  existsb (Ascii.eqb "-") (list_ascii_of_string name) = false.
Proof.
  intros H.
  assert (F : forallb (fun n => negb (existsb (Ascii.eqb "-")
                                        (list_ascii_of_string n)))
                objectPrototypeKeys = true) by reflexivity.
  rewrite forallb_forall in F. specialize (F name H).
  apply negb_true_iff, F.
Qed.

(** X29.  A lookup resolves to a handicap index between -5.0 and 36.3, with
    one exception: a GHIN number that, trimmed, is the name of a member
    that every object inherits resolves to that member.  A lookup by name
    always resolves to a number. *)
Theorem getHandicapIndex_range (tx : Text) (query : GhinQuery) :
  match getHandicapIndex tx query with
  | Index hi => (-5 <= hi)%Q /\ (hi <= 36.3)%Q
  | Member name =>
      exists ghinNumber,
        query = ByNumber ghinNumber
        /\ name = trim tx ghinNumber
        /\ In name objectPrototypeKeys
  end.
Proof.
  destruct query as [ghinNumber|firstName lastName]; unfold getHandicapIndex;
    cbv zeta.
  - destruct (getProperty MOCK_GHIN_BY_NUMBER (trim tx ghinNumber))
      as [hi| |] eqn:E.
    + unfold getProperty in E.
      destruct (mapGet String.eqb (trim tx ghinNumber) MOCK_GHIN_BY_NUMBER)
        as [v|] eqn:G;
        [|destruct (existsb _ objectPrototypeKeys); discriminate].
      injection E as ->.
      apply (mapGet_In String.eqb Seqb_spec) in G.
      destruct G as [G|[G|[G|[]]]]; injection G as _ <-;
        split; discriminate.
    + exists ghinNumber. split; [reflexivity|]. split; [reflexivity|].
      apply getProperty_Inherited in E. apply E.
    + apply hashToHandicap_range.
  - destruct (getProperty MOCK_GHIN_BY_NAME
                (normalizeName tx firstName lastName)) as [hi| |] eqn:E.
    + unfold getProperty in E.
      destruct (mapGet String.eqb (normalizeName tx firstName lastName)
                  MOCK_GHIN_BY_NAME) as [v|] eqn:G;
        [|destruct (existsb _ objectPrototypeKeys); discriminate].
      injection E as ->.
      apply (mapGet_In String.eqb Seqb_spec) in G.
      destruct G as [G|[G|[G|[]]]]; injection G as _ <-;
        split; discriminate.
    + exfalso. apply getProperty_Inherited in E. destruct E as [_ E].
      apply no_dash_inherited in E. unfold normalizeName in E.
      rewrite dash_in_key in E. discriminate.
    + apply hashToHandicap_range.
Qed.

(* ================================================================= *)
(** * The earlier team-size planner *)

Lemma legacy_ceil_quarter (total : Z) :
  Legacy.ceil (inject_Z total / 4) = (total + 3) / 4.
Proof.
  unfold Legacy.ceil, Qceiling, Qfloor, inject_Z, Qdiv, Qmult, Qinv, Qopp.
  cbn -[Z.mul Z.add Z.opp Z.div].
  pose proof (Z.div_mod (- (total * 1)) 4 ltac:(lia)) as H1.
  pose proof (Z.mod_pos_bound (- (total * 1)) 4 ltac:(lia)) as H2.
  apply Z.div_unique with (r := 3 - (- (total * 1)) mod 4); lia.
Qed.

Lemma updAt_repeat (i m : nat) :
  (1 <= m)%nat ->
  updAt i (fun _ => 4) (repeat 4 i ++ repeat 3 m)
  = repeat 4 (S i) ++ repeat 3 (m - 1).
Proof.
  intros Hm. induction i as [|i IH]; simpl.
  - destruct m as [|m]; [lia|]. simpl. rewrite Nat.sub_0_r. reflexivity.
  - f_equal. exact IH.
Qed.

Lemma legacy_fillFours (count i m : nat) :
  (count <= m)%nat ->
  Legacy.fillFours count i (repeat 4 i ++ repeat 3 m)
  = repeat 4 (i + count) ++ repeat 3 (m - count).
Proof.
  revert i m. induction count as [|count IH]; intros i m H;
    cbn [Legacy.fillFours].
  - rewrite Nat.add_0_r, Nat.sub_0_r. reflexivity.
  - assert (E : (i <? length (repeat 4%Z i ++ repeat 3%Z m))%nat = true)
      by (apply Nat.ltb_lt; rewrite length_app, !repeat_length; lia).
    rewrite E, updAt_repeat by lia. rewrite IH by lia.
    f_equal; [f_equal; lia|f_equal; lia].
Qed.

Lemma sumZ_repeat (x : Z) (k : nat) : sumZ (repeat x k) = Z.of_nat k * x.
Proof.
  induction k as [|k IH]; [reflexivity|].
  cbn [repeat]. rewrite sumZ_cons, IH. lia.
Qed.

Lemma sorted_fours_threes (a b : nat) :
  StronglySorted (fun x y => y <= x) (repeat 4 a ++ repeat 3 b).
Proof.
  induction a as [|a IH]; simpl.
  - induction b as [|b IHb]; simpl; constructor; [exact IHb|].
    apply Forall_forall. intros x Hx. apply repeat_spec in Hx. lia.
  - constructor; [exact IH|].
    apply Forall_app. split; apply Forall_forall; intros x Hx;
      apply repeat_spec in Hx; lia.
Qed.

(** X30.  The earlier planner, for a roster of one player or more: no team has
    more than four players; there are [ceil(total / 4)] teams, the teams
    of four first; and the sizes add up to the roster, except for a
    roster of five, where it plans two teams of three. *)
Theorem legacy_team_sizes (total : Z) :
  1 <= total ->
  sumZ (Legacy.determineTeamSizes total) = (if total =? 5 then 6 else total)
  /\ Forall (fun s => 1 <= s <= 4) (Legacy.determineTeamSizes total)
  /\ len (Legacy.determineTeamSizes total) = (total + 3) / 4
  /\ StronglySorted (fun a b => b <= a) (Legacy.determineTeamSizes total).
Proof.
  intros H1. unfold Legacy.determineTeamSizes.
  destruct (total <=? 4) eqn:E4.
  - apply Z.leb_le in E4.
    replace (total =? 5) with false by (symmetry; apply Z.eqb_neq; lia).
    split; [reflexivity|]. split; [repeat constructor; lia|].
    split; [|repeat constructor].
    unfold len. simpl. apply Z.div_unique with (r := total - 1); lia.
  - apply Z.leb_gt in E4. cbv zeta. rewrite legacy_ceil_quarter.
    pose proof (Z.div_mod (total + 3) 4 ltac:(lia)) as Hd.
    pose proof (Z.mod_pos_bound (total + 3) 4 ltac:(lia)) as Hm.
    set (n := (total + 3) / 4) in *. clearbody n.
    assert (Hfill : forall e, (e <= Z.to_nat n)%nat ->
              Legacy.fillFours e 0 (repeat 3 (Z.to_nat n))
              = repeat 4 e ++ repeat 3 (Z.to_nat n - e)).
    { intros e He.
      apply (legacy_fillFours e 0 (Z.to_nat n) He). }
    rewrite Hfill by lia.
    set (e := Z.to_nat (total - n * 3)).
    assert (He : (e <= Z.to_nat n)%nat) by (unfold e; lia).
    split; [|split; [|split]].
    + rewrite sumZ_app, !sumZ_repeat.
      destruct (total =? 5) eqn:E5.
      * apply Z.eqb_eq in E5. unfold e. lia.
      * apply Z.eqb_neq in E5. unfold e. lia.
    + apply Forall_app. split; apply Forall_forall; intros x Hx;
        apply repeat_spec in Hx; lia.
    + unfold len. rewrite length_app, !repeat_length. lia.
    + apply sorted_fours_threes.
Qed.

Lemma legacy_team_sizes_witness :
  sumZ (Legacy.determineTeamSizes 5) = 6
  /\ Forall (fun s => 1 <= s <= 4) (Legacy.determineTeamSizes 5)
  /\ len (Legacy.determineTeamSizes 5) = 2
  /\ StronglySorted (fun a b => b <= a) (Legacy.determineTeamSizes 5).
Proof. apply (legacy_team_sizes 5). lia. Defined.

(* ================================================================= *)
(** * Link groups that the placement does not place *)

Lemma members_within (g : Group) (gs : list Group) :
  In g gs -> (length (members g) <= length (flat_map members gs))%nat.
Proof.
  induction gs as [|x gs IH]; simpl; intros H; [contradiction|].
  rewrite length_app. destruct H as [->|H]; [lia|].
  specialize (IH H). lia.
Qed.

(** The plan is made from the number of players alone.  A group larger
    than every planned team is placed by no policy, whatever the host,
    the seed and the other settings: [generateGame] throws. *)
Lemma group_above_every_team_fails (h : Host) (c : Course)
    (ps : list Player) (settings : GameSettings) (g : Group) :
  In g (formGroups (map (computePlayerCH c) ps)) ->
  Forall (fun s => s < size g)
    (determineTeamSizes (len (map (computePlayerCH c) ps))) ->
  exists msg, generateGame h c ps settings = Err msg.
Proof.
  intros Hg Hplan.
  destruct (generateGame h c ps settings) as [r|msg] eqn:E;
    [exfalso|exists msg; reflexivity].
  destruct (generateGame_teams _ _ _ _ _ E) as (ts & book & _ & Hp & Hgs & Hsz).
  pose proof (formGroups_size _ _ Hg) as Hsize.
  apply (Permutation_in _ (Permutation_sym Hgs)) in Hg.
  apply in_flat_map in Hg. destruct Hg as (e & He & Hg).
  assert (Hin : In (flat_map members (snd e)) (map players ts)).
  { rewrite Hp. apply (in_map (fun e => flat_map members (snd e))), He. }
  apply in_map_iff in Hin. destruct Hin as (t & Et & Hin).
  assert (Hs : In (len (players t))
                 (determineTeamSizes (len (map (computePlayerCH c) ps)))).
  { rewrite <- Hsz. apply (in_map (fun t => len (players t))), Hin. }
  rewrite Forall_forall in Hplan. specialize (Hplan _ Hs).
  pose proof (members_within g (snd e) Hg) as Hle.
  rewrite Et in Hplan. unfold len in *. lia.
Qed.

Lemma group_above_every_team_fails_sample :
  exists msg,
    generateGame alternatingHost sampleCourse roster5linked
      (sampleSettings 20 (Some true) None None) = Err msg.
Proof.
  destruct (formGroups (map (computePlayerCH sampleCourse) roster5linked))
    as [|g gs] eqn:E; [vm_compute in E; discriminate|].
  apply (group_above_every_team_fails _ _ _ _ g).
  - rewrite E. left. reflexivity.
  - vm_compute in E. injection E as <- _. repeat constructor.
Defined.

(** Ten players in groups of three, three, two and two.  The plan is
    [[4; 3; 3]], which holds the groups: the pairs in the team of four
    and a group of three in each of the others.  The balanced policy
    puts the groups of three first, one of them in the team of four, and
    then throws on the second pair. *)
Lemma greedy_placement_misses_a_packing :
  map size (formGroups (map (computePlayerCH sampleCourse) roster10groups))
  = [3; 3; 2; 2]
  /\ determineTeamSizes 10 = [4; 3; 3]
  /\ (exists gs st,
        Permutation gs
          (formGroups (map (computePlayerCH sampleCourse) roster10groups))
        /\ Assigns gs (teamsInit [4; 3; 3], [4; 3; 3]) st
        /\ snd st = [0; 0; 0])
  /\ generateGame sampleHost sampleCourse roster10groups
       (sampleSettings 20 None None None)
     = Err "Unable to place group of size 2 within team capacities".
Proof.
  split; [vm_compute; reflexivity|]. split; [reflexivity|].
  split; [|vm_compute; reflexivity].
  remember (formGroups (map (computePlayerCH sampleCourse) roster10groups))
    as gs0 eqn:E.
  vm_compute in E. subst gs0.
  match goal with
  | |- exists gs st, Permutation gs [?a; ?b; ?c; ?d] /\ _ =>
      exists [c; d; a; b]
  end.
  eexists. split; [exact (Permutation_app_comm [_; _] [_; _])|]. split.
  - apply (Assigns_cons _ _ _ _ 0%nat 4); [reflexivity|vm_compute; discriminate|].
    apply (Assigns_cons _ _ _ _ 0%nat 2); [reflexivity|vm_compute; discriminate|].
    apply (Assigns_cons _ _ _ _ 1%nat 3); [reflexivity|vm_compute; discriminate|].
    apply (Assigns_cons _ _ _ _ 2%nat 3); [reflexivity|vm_compute; discriminate|].
    apply Assigns_nil.
  - reflexivity.
Qed.

(** Six players linked as three pairs: the plan is [[3; 3]] and the
    third pair fits no team, under either policy. *)
Lemma three_pairs_are_not_placed :
  map size (formGroups (map (computePlayerCH sampleCourse) roster6pairs))
  = [2; 2; 2]
  /\ determineTeamSizes 6 = [3; 3]
  /\ generateGame sampleHost sampleCourse roster6pairs
       (sampleSettings 20 None None None)
     = Err "Unable to place group of size 2 within team capacities"
  /\ generateGame sampleHost sampleCourse roster6pairs
       (sampleSettings 20 (Some true) (Some 42) None)
     = Err "Unable to place group of size 2 within team capacities".
Proof. repeat split; vm_compute; reflexivity. Qed.

(* ================================================================= *)
(** * Payout ratios: a number of places that is not whole *)

Lemma taperLoop_no_last (count : nat) (i : Z) (remaining share : Q) :
  Forall (fun r => (0.05 <= r)%Q) (taperLoop count i (1 # 2) remaining share).
Proof.
  revert i remaining share.
  induction count as [|count IH]; intros i remaining share;
    cbn [taperLoop]; [constructor|].
  assert (E : Qeq_bool (inject_Z i) ((1 # 2) - 1) = false).
  { apply Qeq_bool_false. unfold Qeq, Qminus, Qplus, Qopp, inject_Z.
    cbn -[Z.mul Z.add Z.opp Z.sub]. lia. }
  rewrite E. constructor; [apply qmax_floor|apply IH].
Qed.

Lemma sumQ_floor (l : list Q) :
  Forall (fun r => (0.05 <= r)%Q) l -> l <> [] -> (0 < sumQ l)%Q.
Proof.
  induction 1 as [|x l Hx Hl IH]; intros Hne; [congruence|].
  rewrite sumQ_cons. destruct l as [|y l].
  - unfold sumQ. simpl. lra.
  - assert (0 < sumQ (y :: l))%Q by (apply IH; discriminate). lra.
Qed.

(** X31.  When the smaller of [places] and [numTeams] is above 1 and not
    a whole number, the schedule is the taper without a place for the
    remainder: it has one ratio per started place and every ratio is
    positive. *)
Theorem fractional_places_have_no_remainder (places : Q) (numTeams : Z) :
  (1 < qmin places (inject_Z numTeams))%Q ->
  (forall k : Z, ~ (qmin places (inject_Z numTeams) == inject_Z k)%Q) ->
  length (basePayoutRatios places numTeams)
  = Z.to_nat (Qceiling (qmin places (inject_Z numTeams)))
  /\ Forall (fun r => (0 < r)%Q) (basePayoutRatios places numTeams).
Proof.
  intros H1 Hfrac.
  split.
  { rewrite basePayoutRatios_length.
    destruct (qmax_cases 1 (qmin places (inject_Z numTeams)))
      as [[_ ->]|[Hlt _]]; [reflexivity|lra]. }
  unfold basePayoutRatios.
  destruct (qmax_cases 1 (qmin places (inject_Z numTeams)))
    as [[_ ->]|[Hlt _]]; [|lra].
  generalize dependent (qmin places (inject_Z numTeams)). intros n H1 Hfrac.
  repeat match goal with
  | |- context [if Qeq_bool n ?c then _ else _] =>
      let E := fresh "E" in
      destruct (Qeq_bool n c) eqn:E;
        [exfalso; apply Qeq_bool_iff in E;
         first [apply (Hfrac 1), E | apply (Hfrac 2), E | apply (Hfrac 3), E
               | apply (Hfrac 4), E | apply (Hfrac 5), E]|]
  end.
  cbv zeta. rewrite (taperLoop_fractional _ 0 n) by exact Hfrac.
  set (l := taperLoop (Z.to_nat (Qceiling n)) 0 (1 # 2) 1 0.35).
  assert (Hl : Forall (fun r => (0.05 <= r)%Q) l) by apply taperLoop_no_last.
  assert (Hne : l <> []).
  { intros El. apply (f_equal (@length Q)) in El.
    unfold l in El. rewrite taperLoop_length in El. simpl in El.
    assert (1 <= Qceiling n)
      by (apply Qceiling_lower; change (inject_Z 1) with 1%Q; lra).
    lia. }
  pose proof (sumQ_floor l Hl Hne) as Hs.
  apply Forall_forall. intros r Hr. apply in_map_iff in Hr.
  destruct Hr as (x & <- & Hx).
  rewrite Forall_forall in Hl. specialize (Hl x Hx).
  apply Qlt_shift_div_l; [exact Hs|]. lra.
Qed.

Lemma fractional_places_have_no_remainder_witness :
  length (basePayoutRatios 7.5 8) = 8%nat
  /\ Forall (fun r => (0 < r)%Q) (basePayoutRatios 7.5 8).
Proof.
  apply (fractional_places_have_no_remainder 7.5 8).
  - reflexivity.
  - intros k H. change (qmin 7.5 (inject_Z 8)) with 7.5%Q in H.
    unfold Qeq, inject_Z in H. cbn -[Z.mul] in H. lia.
Defined.
